(** * Lattice.cpp: registries, validation and the optimized structure

    A shallow embedding of [cpb::Lattice] (src/cppcore/src/Lattice.cpp) and
    the properties of its registries, of its validation and of
    [optimized_structure].

    Conventions of the embedding:
    - a member function that may mutate the lattice is a computation
      [M A := Lattice -> result A * Lattice]; the lattice paired with a
      [Throw] is the object as the exception leaves it;
    - a [const] member function is a function [Lattice -> result A];
    - the two [std::unordered_map] registries are [gmap string _]; where the
      source iterates over a registry the model iterates over [map_to_list]
      (the iteration order of the source's container is unspecified);
    - Eigen is a library: what the source calls from it on matrices is the
      interface [Eigen] below, not code of this file.  Its tests [isZero()]
      and [isUpperTriangular()] compare up to a precision; they are given
      as Eigen defines them, and a property that depends on what they
      answer takes that definition as a hypothesis;
    - where the language leaves the behaviour of the source undefined, the
      model has [None] (an index out of range, a signed sum out of range)
      or a parameter (the read of a destroyed temporary);
    - [float] is IEEE binary32 and [double] is IEEE binary64, as a
      [spec_float]. *)

From Stdlib Require Import ZArith String List Lia SpecFloat.
From stdpp Require Import base option list strings gmap fin_maps pretty.

Open Scope nat_scope.

(** ** Scalars and small vectors *)

(** [float]: a binary32 value. *)
Abbreviation float := spec_float.

Definition prec32 : Z := 24.
Definition emax32 : Z := 128.

(** [0.0f] *)
Definition float_zero : float := S754_zero false.

(** [1.0f] *)
Definition float_one : float := S754_finite false 8388608 (-23).

(** The literal [0.55f]: the binary32 value nearest to 0.55, which is
    9227469 * 2^-24. *)
Definition float_0_55 : float := S754_finite false 9227469 (-24).

(** [Eigen::Vector3f]; [Cartesian] is the same type. *)
Record Vector3f := mkVector3f { vx : float; vy : float; vz : float }.
Abbreviation Cartesian := Vector3f.

(** The coefficients of a vector, in index order. *)
Definition coeffs (v : Vector3f) : list float := [vx v; vy v; vz v].

(** [v[i]], for the vector whose coefficients are [l]. *)
Definition coeff (l : list float) (i : nat) : float := nth i l float_zero.

(** [v.head(n)] *)
Definition head (n : nat) (v : Vector3f) : list float := take n (coeffs v).

(** [v.head(n) = x]: the first [n] coefficients of [v] are overwritten with
    those of [x], the others are kept. *)
Definition assign_head (n : nat) (x : list float) (v : Vector3f) : Vector3f :=
  let c i := if decide (i < n) then coeff x i else coeff (coeffs v) i in
  mkVector3f (c 0) (c 1) (c 2).

(** Modelled from the spec: [Index3D] is declared in a header that is not
    part of the sources; the spec gives it as "a relative unit-cell offset
    (3 integer components)". *)
Record Index3D := mkIndex3D { ix : Z; iy : Z; iz : Z }.

#[global] Instance Index3D_eq_dec : EqDecision Index3D.
Proof. solve_decision. Defined.

(** [Index3D::Zero()] *)
Definition Index3D_Zero : Index3D := mkIndex3D 0 0 0.

(** Unary minus on an index, coefficient by coefficient. *)
Definition index_neg (i : Index3D) : Index3D :=
  mkIndex3D (- ix i) (- iy i) (- iz i).

(** ** What the source uses of Eigen *)

Class Eigen := {
  (** [Eigen::MatrixXcd], [Eigen::VectorXd], [std::complex<double>], [double] *)
  MatrixXcd : Type;
  VectorXd : Type;
  complex : Type;
  double : Type;
  (** [m.rows()], [m.cols()] *)
  rows : MatrixXcd -> nat;
  cols : MatrixXcd -> nat;
  (** [a == b] on matrices *)
  mat_eqb : MatrixXcd -> MatrixXcd -> bool;
  (** [m.adjoint()] *)
  adjoint : MatrixXcd -> MatrixXcd;
  (** [m.diagonal().imag().isZero()] *)
  diagonal_imag_isZero : MatrixXcd -> bool;
  (** [m.isUpperTriangular()] *)
  isUpperTriangular : MatrixXcd -> bool;
  (** [MatrixXcd::Constant(1, 1, c)] *)
  Constant_1_1 : complex -> MatrixXcd;
  (** the conversion of a [double] to [std::complex<double>] *)
  complex_of_double : double -> complex;
  (** the [size x size] matrix that is zero but for the diagonal [v] *)
  diagonal_matrix : VectorXd -> MatrixXcd;
  (** [MatrixXcd()], the value of a default-constructed matrix *)
  MatrixXcd_empty : MatrixXcd;
  (** [a.isZero()] on a [Cartesian] *)
  isZero : Cartesian -> bool;
  (** [m.colPivHouseholderQr().solve(p)], [m] given by its columns; the
      result has as many coefficients as [m] has columns *)
  qr_solve : list (list float) -> list float -> list float
}.

(** ** Eigen's approximate comparisons

    Eigen is a library outside the sources.  Its tests [isZero()] and
    [isUpperTriangular()] compare up to a precision; the source passes
    none, so the precision is the default of the scalar type,
    [NumTraits<Scalar>::dummy_precision()]: [1e-5f] for [float] and [1e-12]
    for [double].  The definitions below follow the code of Eigen 3
    (Core/NumTraits.h, Core/MathFunctions.h, Core/Fuzzy.h,
    Core/TriangularMatrix.h). *)

(** [double]: a binary64 value. *)
Abbreviation float64 := spec_float.

Definition prec64 : Z := 53.
Definition emax64 : Z := 1024.

(** The literal [1e-5f]: the binary32 value nearest to 1e-5, which is
    10995116 * 2^-40. *)
Definition float_1e_5 : float := S754_finite false 10995116 (-40).

(** [1.0], [-1.0] and the literal [1e-12], the binary64 value nearest to
    1e-12, which is 4951760157141521 * 2^-92. *)
Definition double_one : float64 := S754_finite false 4503599627370496 (-52).
Definition double_minus_one : float64 := S754_finite true 4503599627370496 (-52).
Definition double_1e_12 : float64 := S754_finite false 4951760157141521 (-92).

(** [internal::isMuchSmallerThan(x, y, precision)] on real scalars:
    [abs(x) <= abs(y) * precision]. *)
Definition isMuchSmallerThan (prec emax : Z) (x y precision : spec_float) : bool :=
  SFleb (SFabs x) (SFmul prec emax (SFabs y) precision).

(** [DenseBase::isZero()] on a [Vector3f]: every coefficient is much
    smaller than [1] at the precision [1e-5f]. *)
Definition Vector3f_isZero (v : Vector3f) : bool :=
  forallb (fun c => isMuchSmallerThan prec32 emax32 c float_one float_1e_5) (coeffs v).

(** [DenseBase::isZero()] on real coefficients of type [double]: every
    coefficient is much smaller than [1] at the precision [1e-12]. *)
Definition isZero_double (l : list float64) : bool :=
  forallb (fun c => isMuchSmallerThan prec64 emax64 c double_one double_1e_12) l.

(** [MatrixBase::isUpperTriangular()] on the magnitudes of the coefficients
    on and above the diagonal and of those below it.  The first loop takes
    the largest magnitude on the upper part, from [-1]; the second compares
    every magnitude of the lower part with that maximum times the
    precision. *)
Definition isUpperTriangular_within (upper lower : list float64) : bool :=
  let maxAbsOnUpperPart :=
    foldl (fun maximum absValue => if SFltb maximum absValue then absValue else maximum)
          double_minus_one upper in
  let threshold := SFmul prec64 emax64 maxAbsOnUpperPart double_1e_12 in
  forallb (fun absValue => negb (SFltb threshold absValue)) lower.

(** What these tests read of a matrix of [std::complex<double>]. *)
Class EigenCoefficients {E : Eigen} := {
  (** the coefficients of [m.diagonal().imag()] *)
  diagonal_imag : MatrixXcd -> list float64;
  (** [abs(m(i, j))] for [i <= j], column by column *)
  abs_upper : MatrixXcd -> list float64;
  (** [abs(m(i, j))] for [i > j], column by column *)
  abs_lower : MatrixXcd -> list float64
}.

(** Modelled from the spec: Lattice.hpp is not part of the sources.  It
    declares the identifier types [sub_id] and [hop_id] ("registry size
    bounded by the identifier's representable range") and the initial value
    of the members the constructor does not assign. *)
Class LatticeDecl := {
  (** [std::numeric_limits<sub_id>::max()] *)
  sub_id_max : nat;
  (** [std::numeric_limits<hop_id>::max()] *)
  hop_id_max : nat;
  (** the initial [offset] and [min_neighbors] *)
  offset_init : Cartesian;
  min_neighbors_init : Z
}.

(** ** Exceptions *)

(** One constructor per [throw] of the source. *)
Inductive exn : Type :=
  | OnsiteNotSquare
  | OnsiteDiagonalNotReal
  | OnsiteNotTriangularOrHermitian
  | HoppingNameBlank
  | TooManyHoppings
  | HoppingExists (name : string)
  | ZeroIndexSameSublattice
  | HoppingSizeMismatch (from_sub to_sub family : string)
  | HoppingDuplicate
  | OffsetTooLarge
  | NoSublatticeNamed (name : string)
  | NoSublatticeWithID (id : nat)
  | NoHoppingNamed (name : string)
  | NoHoppingWithID (id : nat)
  | SublatticeNameBlank
  | TooManySublattices
  | SublatticeExists (name : string).

(** The C++ class of each exception. *)
Inductive exn_class : Type := logic_error | out_of_range.

Definition class_of (e : exn) : exn_class :=
  match e with
  | NoSublatticeNamed _ | NoSublatticeWithID _
  | NoHoppingNamed _ | NoHoppingWithID _ => out_of_range
  | _ => logic_error
  end.

Inductive result (A : Type) : Type :=
  | Ok (a : A)
  | Throw (e : exn).
Arguments Ok {A} a.
Arguments Throw {A} e.

Definition is_Throw {A} (r : result A) : bool :=
  match r with Throw _ => true | Ok _ => false end.

(** ** The data model and the member functions *)

Section Model.
Context {E : Eigen} {D : LatticeDecl}.

(** The structs of the source.  A field keeps its name, after a prefix
    where two structs have a field of the same name or where the member
    functions use the name for a parameter. *)

Record Sublattice := mkSublattice {
  s_position : Cartesian;     (* relative to lattice origin *)
  s_energy : MatrixXcd;       (* onsite energy matrix *)
  s_unique_id : nat;          (* different for each entry *)
  s_alias_id : nat            (* may be shared by multiple entries *)
}.

Record HoppingTerm := mkHoppingTerm {
  t_relative_index : Index3D;
  t_from : nat;
  t_to : nat
}.

Record HoppingFamily := mkHoppingFamily {
  f_energy : MatrixXcd;
  f_unique_id : nat;
  terms : list HoppingTerm
}.

Record Lattice := mkLattice {
  vectors : list Cartesian;
  offset : Cartesian;
  min_neighbors : Z;
  sublattices : gmap string Sublattice;
  hoppings : gmap string HoppingFamily
}.

Definition set_offset_field (p : Cartesian) (L : Lattice) : Lattice :=
  mkLattice (vectors L) p (min_neighbors L) (sublattices L) (hoppings L).

Definition set_min_neighbors_field (n : Z) (L : Lattice) : Lattice :=
  mkLattice (vectors L) (offset L) n (sublattices L) (hoppings L).

Definition set_sublattices (m : gmap string Sublattice) (L : Lattice) : Lattice :=
  mkLattice (vectors L) (offset L) (min_neighbors L) m (hoppings L).

Definition set_hoppings (m : gmap string HoppingFamily) (L : Lattice) : Lattice :=
  mkLattice (vectors L) (offset L) (min_neighbors L) (sublattices L) m.

(** *** Computations on a lattice that may throw *)

Definition M (A : Type) : Type := Lattice -> result A * Lattice.

Definition ret {A} (a : A) : M A := fun L => (Ok a, L).

Definition bind {A B} (m : M A) (k : A -> M B) : M B :=
  fun L => match m L with
           | (Ok a, L') => k a L'
           | (Throw e, L') => (Throw e, L')
           end.

Definition throw {A} (e : exn) : M A := fun L => (Throw e, L).

Definition get : M Lattice := fun L => (Ok L, L).

Definition modify (f : Lattice -> Lattice) : M unit := fun L => (Ok tt, f L).

(** A call of a [const] member function. *)
Definition call_const {A} (f : Lattice -> result A) : M A := fun L => (f L, L).

#[local] Notation "x <- m ;; k" := (bind m (fun x => k))
  (at level 100, m at next level, right associativity).
#[local] Notation "m ;;; k" := (bind m (fun _ => k))
  (at level 100, right associativity).

(** *** Construction *)

(** [Lattice::Lattice(a1, a2, a3)] *)
Definition Lattice_ctor (a1 a2 a3 : Cartesian) : Lattice :=
  let vectors := [] in
  let vectors := vectors ++ [a1] in
  let vectors := if negb (isZero a2) then vectors ++ [a2] else vectors in
  let vectors := if negb (isZero a3) then vectors ++ [a3] else vectors in
  mkLattice vectors offset_init min_neighbors_init ∅ ∅.

(** Modelled from the spec: [ndim()] and [nsub()] are defined in
    Lattice.hpp; "vector count = spatial dimensionality" and "an array of
    size = sublattice count". *)
Definition ndim (L : Lattice) : nat := length (vectors L).
Definition nsub (L : Lattice) : nat := size (sublattices L).

(** *** Lookups *)

(** [Lattice::sublattice(std::string const&)] *)
Definition sublattice (name : string) (L : Lattice) : result Sublattice :=
  match sublattices L !! name with
  | None => Throw (NoSublatticeNamed name)
  | Some s => Ok s
  end.

(** [Lattice::sublattice(sub_id)] *)
Definition sublattice_by_id (id : nat) (L : Lattice) : result Sublattice :=
  match find (fun p : string * Sublattice => bool_decide (s_unique_id p.2 = id))
             (map_to_list (sublattices L)) with
  | None => Throw (NoSublatticeWithID id)
  | Some p => Ok p.2
  end.

(** [Lattice::hopping_family(std::string const&)] *)
Definition hopping_family (name : string) (L : Lattice) : result HoppingFamily :=
  match hoppings L !! name with
  | None => Throw (NoHoppingNamed name)
  | Some f => Ok f
  end.

(** [Lattice::hopping_family(hop_id)] *)
Definition hopping_family_by_id (id : nat) (L : Lattice) : result HoppingFamily :=
  match find (fun p : string * HoppingFamily => bool_decide (f_unique_id p.2 = id))
             (map_to_list (hoppings L)) with
  | None => Throw (NoHoppingWithID id)
  | Some p => Ok p.2
  end.

(** *** The sublattice registry *)

(** [name.empty()] *)
Definition empty (name : string) : bool :=
  match name with EmptyString => true | String _ _ => false end.

(** [Lattice::register_sublattice].  The identifier returned is
    [static_cast<sub_id>(sublattices.size())]; the guard before it leaves
    only sizes up to [sub_id_max], which the conversion keeps. *)
Definition register_sublattice (name : string) : M nat :=
  if empty name then throw SublatticeNameBlank else
  L <- get ;;
  let max_size := sub_id_max in
  if decide (max_size < size (sublattices L)) then throw TooManySublattices else
  if decide (sublattices L !! name <> None) then throw (SublatticeExists name) else
  ret (size (sublattices L)).

(** [Lattice::add_sublattice(name, position, MatrixXcd const&)] *)
Definition add_sublattice (name : string) (position : Cartesian)
    (onsite_energy : MatrixXcd) : M unit :=
  if decide (rows onsite_energy <> cols onsite_energy) then throw OnsiteNotSquare else
  if negb (diagonal_imag_isZero onsite_energy) then throw OnsiteDiagonalNotReal else
  if negb (isUpperTriangular onsite_energy)
     && negb (mat_eqb onsite_energy (adjoint onsite_energy))
  then throw OnsiteNotTriangularOrHermitian else
  unique_id <- register_sublattice name ;;
  modify (fun L =>
    set_sublattices
      (<[name := mkSublattice position onsite_energy unique_id unique_id]>
         (sublattices L)) L).

(** [Lattice::add_sublattice(name, position, double)] *)
Definition add_sublattice_scalar (name : string) (position : Cartesian)
    (onsite_energy : double) : M unit :=
  add_sublattice name position (Constant_1_1 (complex_of_double onsite_energy)).

(** [Lattice::add_sublattice(name, position, VectorXd const&)] *)
Definition add_sublattice_vector (name : string) (position : Cartesian)
    (onsite_energy : VectorXd) : M unit :=
  let mat := diagonal_matrix onsite_energy in
  add_sublattice name position mat.

(** [Lattice::add_alias] *)
Definition add_alias (alias_name original_name : string) (position : Cartesian)
    : M unit :=
  original <- call_const (sublattice original_name) ;;
  let alias_id := s_unique_id original in
  unique_id <- register_sublattice alias_name ;;
  modify (fun L =>
    set_sublattices
      (<[alias_name := mkSublattice position (s_energy original) unique_id alias_id]>
         (sublattices L)) L).

(** *** The hopping registry *)

(** [std::unordered_map::insert]: the map, and whether the pair went in. *)
Definition umap_insert {V} (k : string) (v : V) (m : gmap string V)
    : gmap string V * bool :=
  match m !! k with
  | Some _ => (m, false)
  | None => (<[k := v]> m, true)
  end.

(** [Lattice::register_hopping_energy(name, MatrixXcd const&)] *)
Definition register_hopping_energy (name : string) (energy : MatrixXcd) : M unit :=
  if empty name then throw HoppingNameBlank else
  L <- get ;;
  let max_size := hop_id_max in
  if decide (max_size < size (hoppings L)) then throw TooManyHoppings else
  let unique_id := size (hoppings L) in
  let '(hoppings', is_unique_name) :=
    umap_insert name (mkHoppingFamily energy unique_id []) (hoppings L) in
  modify (set_hoppings hoppings') ;;;
  if negb is_unique_name then throw (HoppingExists name) else ret tt.

(** [Lattice::register_hopping_energy(name, std::complex<double>)] *)
Definition register_hopping_energy_scalar (name : string) (energy : complex) : M unit :=
  register_hopping_energy name (Constant_1_1 energy).

(** What the comparison [candidate == existing_conjugate] of the duplicate
    check answers.  The lambda declares
    [auto const existing_conjugate = std::tie(-h.relative_index, h.to, h.from);]
    and [std::tie] keeps references: the first one refers to the temporary
    that [-h.relative_index] yields, which is destroyed at the end of the
    declaration.  The comparison of the next line reads that destroyed
    object, which the language leaves undefined.  Nothing in the source
    fixes the answer, so it is a parameter of the model, for the candidate
    [(relative_index, from_id, to_id)] and the stored term [h]; of a run
    that stops at the read the model says nothing. *)
Class DestroyedTemporary := {
  conjugate_comparison : Index3D -> nat -> nat -> HoppingTerm -> bool
}.

Context {U : DestroyedTemporary}.

(** The lambda of the duplicate check: [candidate == existing ||
    candidate == existing_conjugate].  The first comparison is between
    tuples of references to live objects; [||] evaluates the second only
    when the first is false. *)
Definition collides (relative_index : Index3D) (from_id to_id : nat)
    (h : HoppingTerm) : bool :=
  bool_decide ((relative_index, from_id, to_id)
               = (t_relative_index h, t_from h, t_to h))
  || conjugate_comparison relative_index from_id to_id h.

(** [m[name]] on the hopping registry: the family stored under [name], a
    default-constructed one if there is none. *)
Definition hoppings_at (name : string) (m : gmap string HoppingFamily)
    : HoppingFamily :=
  default (mkHoppingFamily MatrixXcd_empty 0 []) (m !! name).

(** [terms.push_back(t)] *)
Definition push_term (t : HoppingTerm) (f : HoppingFamily) : HoppingFamily :=
  mkHoppingFamily (f_energy f) (f_unique_id f) (terms f ++ [t]).

(** [Lattice::add_hopping(relative_index, from_sub, to_sub, hopping_family_name)] *)
Definition add_hopping (relative_index : Index3D) (from_sub to_sub : string)
    (hopping_family_name : string) : M unit :=
  if bool_decide (from_sub = to_sub) && bool_decide (relative_index = Index3D_Zero)
  then throw ZeroIndexSameSublattice else
  from <- call_const (sublattice from_sub) ;;
  to <- call_const (sublattice to_sub) ;;
  family <- call_const (hopping_family hopping_family_name) ;;
  let hop_matrix := f_energy family in
  if bool_decide (rows (s_energy from) <> rows hop_matrix)
     || bool_decide (cols (s_energy to) <> cols hop_matrix)
  then throw (HoppingSizeMismatch from_sub to_sub hopping_family_name) else
  L <- get ;;
  let dup :=
    existsb (fun r : string * HoppingFamily =>
               existsb (collides relative_index (s_unique_id from) (s_unique_id to))
                       (terms r.2))
            (map_to_list (hoppings L)) in
  if dup then throw HoppingDuplicate else
  modify (fun L =>
    set_hoppings
      (<[hopping_family_name :=
           push_term (mkHoppingTerm relative_index (s_unique_id from) (s_unique_id to))
                     (hoppings_at hopping_family_name (hoppings L))]>
         (hoppings L)) L).

(** [Lattice::add_hopping(relative_index, from_sub, to_sub, MatrixXcd const&)] *)
Definition add_hopping_matrix (relative_index : Index3D) (from_sub to_sub : string)
    (energy : MatrixXcd) : M unit :=
  hopping_name <-
    (L <- get ;;
     (* Look for an existing hopping ID with the same energy *)
     match find (fun r : string * HoppingFamily => mat_eqb (f_energy r.2) energy)
                (map_to_list (hoppings L)) with
     | Some it => ret it.1
     | None =>
         let name := "__anonymous__" +:+ pretty (size (hoppings L)) in
         register_hopping_energy name energy ;;;
         ret name
     end) ;;
  add_hopping relative_index from_sub to_sub hopping_name.

(** [Lattice::add_hopping(relative_index, from_sub, to_sub, std::complex<double>)] *)
Definition add_hopping_scalar (relative_index : Index3D) (from_sub to_sub : string)
    (energy : complex) : M unit :=
  add_hopping_matrix relative_index from_sub to_sub (Constant_1_1 energy).

(** *** Geometry *)

(** [Lattice::translate_coordinates] *)
Definition translate_coordinates (position : Cartesian) (L : Lattice) : Vector3f :=
  let size := ndim L in
  let lattice_matrix :=
    (fun i => head size (nth i (vectors L) (mkVector3f float_zero float_zero float_zero)))
      <$> seq 0 size in
  (* Solve `lattice_matrix * v = p` *)
  let p := head size position in
  let v := mkVector3f float_zero float_zero float_zero in
  assign_head size (qr_solve lattice_matrix p) v.

(** [Lattice::set_offset]; [x > 0.55f] is [SFltb float_0_55 x]. *)
Definition set_offset (position : Cartesian) : M unit :=
  L <- get ;;
  if existsb (fun c => SFltb float_0_55 (SFabs c))
             (coeffs (translate_coordinates position L))
  then throw OffsetTooLarge
  else modify (set_offset_field position).

(** [Lattice::with_offset], a [const] member function: the receiver is
    copied, the copy is modified and returned. *)
Definition with_offset (position : Cartesian) (L : Lattice) : result Lattice :=
  let new_lattice := L in
  match set_offset position new_lattice with
  | (Ok _, new_lattice) => Ok new_lattice
  | (Throw e, _) => Throw e
  end.

(** [Lattice::with_min_neighbors] *)
Definition with_min_neighbors (number : Z) (L : Lattice) : result Lattice :=
  let new_lattice := L in
  let new_lattice := set_min_neighbors_field number new_lattice in
  Ok new_lattice.

(** *** The optimized structure *)

(** Modelled from the spec: [Hopping], [Site] and
    [OptimizedLatticeStructure] are declared in Lattice.hpp; a compiled
    hopping is a "(relative offset, neighbor sublattice id, hopping-family
    id, is-conjugate flag)" tuple, a site record holds "its position, its
    alias id, and a list of compiled hoppings", and the structure is "a
    dense, id-indexed array" of site records. *)
Record Hopping := mkHopping {
  h_relative_index : Index3D;
  h_to_sublattice : nat;
  h_id : nat;
  h_is_conjugate : bool
}.

Record Site := mkSite {
  site_position : Cartesian;
  site_alias : nat;
  site_hoppings : list Hopping
}.

Definition OptimizedLatticeStructure : Type := list Site.

(** [OptimizedLatticeStructure(n)]: [n] sites with no hoppings. *)
Definition new_structure (n : nat) : OptimizedLatticeStructure :=
  replicate n (mkSite (mkVector3f float_zero float_zero float_zero) 0 []).

(** [v[i]] used as an lvalue that [f] updates.  [std::vector::operator[]]
    does not check its index: [None] stands for the access out of range,
    which the language leaves undefined. *)
Definition at_index (i : nat) (f : Site -> Site) (v : list Site)
    : option OptimizedLatticeStructure :=
  if decide (i < length v) then Some (alter f i v) else None.

(** A range-based [for] whose body may fail. *)
Fixpoint for_each {A S} (body : A -> S -> option S) (l : list A) (s : S) : option S :=
  match l with
  | [] => Some s
  | x :: l => match body x s with
              | Some s' => for_each body l s'
              | None => None
              end
  end.

Definition set_site_position (p : Cartesian) (s : Site) : Site :=
  mkSite p (site_alias s) (site_hoppings s).

Definition set_site_alias (a : nat) (s : Site) : Site :=
  mkSite (site_position s) a (site_hoppings s).

(** [hoppings.push_back(h)] on a site *)
Definition push_hopping (h : Hopping) (s : Site) : Site :=
  mkSite (site_position s) (site_alias s) (site_hoppings s ++ [h]).

(** The body of the loop over the sublattices. *)
Definition write_sublattice (pair : string * Sublattice) (os : OptimizedLatticeStructure)
    : option OptimizedLatticeStructure :=
  let sublattice := pair.2 in
  match at_index (s_unique_id sublattice) (set_site_position (s_position sublattice)) os with
  | Some os => at_index (s_unique_id sublattice) (set_site_alias (s_alias_id sublattice)) os
  | None => None
  end.

(** The body of the loop over the terms of a family. *)
Definition write_term (hopping_family : HoppingFamily) (term : HoppingTerm)
    (os : OptimizedLatticeStructure) : option OptimizedLatticeStructure :=
  (* The other sublattice has an opposite relative index (conjugate) *)
  match at_index (t_from term)
          (push_hopping (mkHopping (t_relative_index term) (t_to term)
                                   (f_unique_id hopping_family) false)) os with
  | Some os =>
      at_index (t_to term)
        (push_hopping (mkHopping (index_neg (t_relative_index term)) (t_from term)
                                 (f_unique_id hopping_family) true)) os
  | None => None
  end.

(** [Lattice::optimized_structure] *)
Definition optimized_structure (L : Lattice) : option OptimizedLatticeStructure :=
  let opt_structure := new_structure (nsub L) in
  match for_each write_sublattice (map_to_list (sublattices L)) opt_structure with
  | Some opt_structure =>
      for_each (fun pair : string * HoppingFamily =>
                  let hopping_family := pair.2 in
                  for_each (write_term hopping_family) (terms hopping_family))
               (map_to_list (hoppings L)) opt_structure
  | None => None
  end.

(** *** Lattices that the member functions can build *)

(** A call of one of the member functions that may modify the receiver. *)
Inductive Call : Type :=
  | Call_add_sublattice (name : string) (position : Cartesian) (e : MatrixXcd)
  | Call_add_sublattice_scalar (name : string) (position : Cartesian) (e : double)
  | Call_add_sublattice_vector (name : string) (position : Cartesian) (e : VectorXd)
  | Call_add_alias (alias_name original_name : string) (position : Cartesian)
  | Call_register_hopping_energy (name : string) (e : MatrixXcd)
  | Call_register_hopping_energy_scalar (name : string) (e : complex)
  | Call_add_hopping (i : Index3D) (from_sub to_sub family : string)
  | Call_add_hopping_matrix (i : Index3D) (from_sub to_sub : string) (e : MatrixXcd)
  | Call_add_hopping_scalar (i : Index3D) (from_sub to_sub : string) (e : complex)
  | Call_set_offset (position : Cartesian).

Definition run (c : Call) : M unit :=
  match c with
  | Call_add_sublattice n p e => add_sublattice n p e
  | Call_add_sublattice_scalar n p e => add_sublattice_scalar n p e
  | Call_add_sublattice_vector n p e => add_sublattice_vector n p e
  | Call_add_alias a o p => add_alias a o p
  | Call_register_hopping_energy n e => register_hopping_energy n e
  | Call_register_hopping_energy_scalar n e => register_hopping_energy_scalar n e
  | Call_add_hopping i f t h => add_hopping i f t h
  | Call_add_hopping_matrix i f t e => add_hopping_matrix i f t e
  | Call_add_hopping_scalar i f t e => add_hopping_scalar i f t e
  | Call_set_offset p => set_offset p
  end.

(** The lattice a sequence of calls leaves, whether the calls return or
    throw. *)
Definition run_all (cs : list Call) (L : Lattice) : Lattice :=
  foldl (fun L c => (run c L).2) L cs.

(** The lattices a program obtains from the constructor, the member
    functions above and the two derivations. *)
Inductive reachable : Lattice -> Prop :=
  | reachable_ctor a1 a2 a3 :
      reachable (Lattice_ctor a1 a2 a3)
  | reachable_call L c :
      reachable L -> reachable (run c L).2
  | reachable_with_offset L p L' :
      reachable L -> with_offset p L = Ok L' -> reachable L'
  | reachable_with_min_neighbors L n L' :
      reachable L -> with_min_neighbors n L = Ok L' -> reachable L'.

(** *** Lattice objects in a store *)

(** Lattices as objects: a store maps the address of each live object to
    its value.  Copy construction puts the value at a fresh address; every
    member of [Lattice] is a value type, so a copy shares nothing with the
    object it was copied from. *)
Definition fresh_address (st : gmap nat Lattice) : nat := fresh (dom st).

(** A call of a member function on the object at [this]. *)
Definition invoke {A} (this : nat) (m : M A) (st : gmap nat Lattice)
    : option (result A * gmap nat Lattice) :=
  match st !! this with
  | Some L => let '(r, L') := m L in Some (r, <[this := L']> st)
  | None => None
  end.

(** A call of a [const] member function that returns a lattice by value:
    the value returned becomes a new object of the caller. *)
Definition invoke_derive (this : nat) (f : Lattice -> result Lattice)
    (st : gmap nat Lattice) : option (result nat * gmap nat Lattice) :=
  match st !! this with
  | Some L =>
      match f L with
      | Ok new_lattice =>
          let a := fresh_address st in Some (Ok a, <[a := new_lattice]> st)
      | Throw e => Some (Throw e, st)
      end
  | None => None
  end.

(** *** Notions used to state the properties *)

(** Every hopping term of the lattice, family after family. *)
Definition all_terms (L : Lattice) : list HoppingTerm :=
  flat_map (fun p : string * HoppingFamily => terms p.2) (map_to_list (hoppings L)).

(** What the registries of a lattice satisfy once it is built by the
    member functions. *)
Record wf (L : Lattice) : Prop := {
  (* between one and three primitive vectors *)
  wf_ndim : 1 <= ndim L <= 3;
  (* the unique identifiers are the numbers below [nsub], each once *)
  wf_sub_dense : forall i, i < nsub L ->
    exists name s, sublattices L !! name = Some s /\ s_unique_id s = i;
  wf_sub_bound : forall name s,
    sublattices L !! name = Some s -> s_unique_id s < nsub L;
  wf_sub_inj : forall n1 n2 s1 s2,
    sublattices L !! n1 = Some s1 -> sublattices L !! n2 = Some s2 ->
    s_unique_id s1 = s_unique_id s2 -> n1 = n2;
  wf_alias_bound : forall name s,
    sublattices L !! name = Some s -> s_alias_id s < nsub L;
  (* the ends of every term are identifiers of sublattices *)
  wf_term_ids : forall t, t ∈ all_terms L -> t_from t < nsub L /\ t_to t < nsub L;
  (* no term from a sublattice to itself in the same cell *)
  wf_term_nonzero : forall t, t ∈ all_terms L ->
    ~ (t_relative_index t = Index3D_Zero /\ t_from t = t_to t);
  (* no term is stored twice, in one family or in two *)
  wf_term_NoDup : NoDup (all_terms L)
}.

(** The compiled hoppings that the spec derives from the term [t] of the
    family [f], each with the index of the site it is attached to:
    "(d, B, F, conjugate=false) attached to site A, and (-d, A, F,
    conjugate=true) attached to site B". *)
Definition compiled_forward (f : HoppingFamily) (t : HoppingTerm) : Hopping :=
  mkHopping (t_relative_index t) (t_to t) (f_unique_id f) false.

Definition compiled_conjugate (f : HoppingFamily) (t : HoppingTerm) : Hopping :=
  mkHopping (index_neg (t_relative_index t)) (t_from t) (f_unique_id f) true.

Definition compiled_of_term (f : HoppingFamily) (t : HoppingTerm)
    : list (nat * Hopping) :=
  [(t_from t, compiled_forward f t); (t_to t, compiled_conjugate f t)].

(** The compiled hoppings of all the terms of the lattice. *)
Definition compiled_entries (L : Lattice) : list (nat * Hopping) :=
  flat_map (fun p : string * HoppingFamily =>
              flat_map (compiled_of_term p.2) (terms p.2))
           (map_to_list (hoppings L)).

(** Those of the entries [l] that are attached to the site [s]. *)
Definition entries_at (s : nat) (l : list (nat * Hopping)) : list Hopping :=
  (filter (fun e : nat * Hopping => e.1 = s) l).*2.

#[global] Instance HoppingTerm_eq_dec : EqDecision HoppingTerm.
Proof. solve_decision. Defined.

#[global] Instance Hopping_eq_dec : EqDecision Hopping.
Proof. solve_decision. Defined.

(** How many times [h] occurs in [l]. *)
Definition multiplicity (h : Hopping) (l : list Hopping) : nat :=
  length (filter (fun h' => h' = h) l).

(** The name under which a call registers a sublattice, for the calls
    that register one. *)
Definition sublattice_added (c : Call) : option string :=
  match c with
  | Call_add_sublattice n _ _
  | Call_add_sublattice_scalar n _ _
  | Call_add_sublattice_vector n _ _ => Some n
  | Call_add_alias a _ _ => Some a
  | _ => None
  end.

(** One compiled hopping appended to the list of its site. *)
Definition push_entry (e : nat * Hopping) (os : OptimizedLatticeStructure)
    : option OptimizedLatticeStructure :=
  at_index e.1 (push_hopping e.2) os.

End Model.

(** ** An instance to run the model on *)

(** Matrices with Gaussian-integer entries, Eigen's approximate tests on
    them, and a solver for diagonal systems: enough of Eigen to evaluate
    the member functions on lattices whose primitive vectors lie along the
    axes. *)
Module Exact.

(** A complex number with integer real and imaginary parts. *)
Definition cplx : Type := Z * Z.

(** A matrix by its rows. *)
Definition matrix : Type := list (list cplx).

Definition m_rows (m : matrix) : nat := length m.
Definition m_cols (m : matrix) : nat :=
  match m with [] => 0 | r :: _ => length r end.

Definition entry (m : matrix) (i j : nat) : cplx := nth j (nth i m []) (0, 0)%Z.

Definition conj (c : cplx) : cplx := (c.1, - c.2)%Z.

Definition m_adjoint (m : matrix) : matrix :=
  map (fun j => map (fun i => conj (entry m i j)) (seq 0 (m_rows m)))
      (seq 0 (m_cols m)).

(** The binary64 value of an integer, and the magnitude of a complex
    number: the root of the sum of the squares. *)
Definition double_of_Z (z : Z) : float64 := binary_normalize prec64 emax64 z 0 false.
Definition c_abs (c : cplx) : float64 :=
  SFsqrt prec64 emax64 (double_of_Z (c.1 * c.1 + c.2 * c.2)).

(** The coefficients that Eigen's tests read. *)
Definition m_diagonal_imag (m : matrix) : list float64 :=
  map (fun i => double_of_Z (entry m i i).2) (seq 0 (Nat.min (m_rows m) (m_cols m))).

Definition m_abs_upper (m : matrix) : list float64 :=
  flat_map (fun j => map (fun i => c_abs (entry m i j))
                         (seq 0 (Nat.min (S j) (m_rows m))))
           (seq 0 (m_cols m)).

Definition m_abs_lower (m : matrix) : list float64 :=
  flat_map (fun j => map (fun i => c_abs (entry m i j)) (seq (S j) (m_rows m - S j)))
           (seq 0 (m_cols m)).

(** The exact notions: no imaginary part on the diagonal, and no entry
    other than zero below the diagonal. *)
Definition m_diagonal_real (m : matrix) : bool :=
  forallb (fun i => bool_decide ((entry m i i).2 = 0%Z))
          (seq 0 (Nat.min (m_rows m) (m_cols m))).

Definition m_upper (m : matrix) : bool :=
  forallb (fun i => forallb (fun j => bool_decide (entry m i j = (0, 0)%Z)) (seq 0 i))
          (seq 0 (m_rows m)).

Definition m_diag (v : list Z) : matrix :=
  map (fun i => map (fun j => if decide (i = j) then (nth i v 0%Z, 0%Z) else (0, 0)%Z)
                    (seq 0 (length v)))
      (seq 0 (length v)).

(** [v_i = p_i / m_ii] in binary32. *)
Definition diagonal_solve (m : list (list float)) (p : list float) : list float :=
  imap (fun i pi => SFdiv prec32 emax32 pi (coeff (nth i m []) i)) p.

#[export] Instance eigen : Eigen := {|
  MatrixXcd := matrix;
  VectorXd := list Z;
  complex := cplx;
  double := Z;
  rows := m_rows;
  cols := m_cols;
  mat_eqb := fun a b => bool_decide (a = b);
  adjoint := m_adjoint;
  diagonal_imag_isZero := fun m => isZero_double (m_diagonal_imag m);
  isUpperTriangular := fun m => isUpperTriangular_within (m_abs_upper m) (m_abs_lower m);
  Constant_1_1 := fun c => [[c]];
  complex_of_double := fun d => (d, 0%Z);
  diagonal_matrix := m_diag;
  MatrixXcd_empty := [];
  isZero := Vector3f_isZero;
  qr_solve := diagonal_solve
|}.

#[export] Instance eigen_coefficients : EigenCoefficients := {|
  diagonal_imag := m_diagonal_imag;
  abs_upper := m_abs_upper;
  abs_lower := m_abs_lower
|}.

(** The comparison with the destroyed temporary where its storage still
    holds the value of [-h.relative_index], as in a build that does not
    reuse the storage before the comparison. *)
#[export] Instance intact : DestroyedTemporary := {|
  conjugate_comparison := fun relative_index from_id to_id h =>
    bool_decide ((relative_index, from_id, to_id)
                 = (index_neg (t_relative_index h), t_to h, t_from h))
|}.

(** The comparison where the storage no longer compares equal to any
    index. *)
Definition clobbered : DestroyedTemporary := {|
  conjugate_comparison := fun _ _ _ _ => false
|}.

(** Identifiers of eight bits, signed; the origin as initial offset and
    one as initial [min_neighbors]. *)
#[export] Instance decl : LatticeDecl := {|
  sub_id_max := 127;
  hop_id_max := 127;
  offset_init := mkVector3f float_zero float_zero float_zero;
  min_neighbors_init := 1
|}.

End Exact.

(** ** Example lattices *)

Module Examples.
Import Exact.

Definition v0 : Cartesian := mkVector3f float_zero float_zero float_zero.
Definition e1 : Cartesian := mkVector3f float_one float_zero float_zero.
Definition e2 : Cartesian := mkVector3f float_zero float_one float_zero.

(** [0.5f] *)
Definition float_half : float := S754_finite false 8388608 (-24).

(** The square lattice of the spec's scenario, before any hopping. *)
Definition square_sites : Lattice :=
  run_all [Call_add_sublattice_scalar "A" v0 0%Z] (Lattice_ctor e1 e2 v0).

(** The same with the family "t" of energy -1 and the term
    ((1,0,0), "A", "A"). *)
Definition square : Lattice :=
  run_all [Call_register_hopping_energy_scalar "t" (-1, 0)%Z;
           Call_add_hopping (mkIndex3D 1 0 0) "A" "A" "t"] square_sites.

(** Two sublattices with one orbital each, a bond between them in the
    family "t", and a second family "w" of shape 2 x 2. *)
Definition two_sites : Lattice :=
  run_all [Call_add_sublattice_scalar "A" v0 0%Z;
           Call_add_sublattice_scalar "B" (mkVector3f float_half float_zero float_zero) 0%Z;
           Call_register_hopping_energy_scalar "t" (-1, 0)%Z;
           Call_register_hopping_energy "w" [[(1, 0); (0, 0)]; [(0, 0); (1, 0)]]%Z;
           Call_add_hopping (mkIndex3D 1 0 0) "A" "B" "t"]
          (Lattice_ctor e1 e2 v0).

(** The lattice [two_sites] as the same calls build it where the comparison
    with the destroyed temporary answers false; the calls do not reach the
    comparison, no term being stored when the bond is added. *)
Definition two_sites_clobbered : Lattice :=
  run_all (U := clobbered)
          [Call_add_sublattice_scalar "A" v0 0%Z;
           Call_add_sublattice_scalar "B" (mkVector3f float_half float_zero float_zero) 0%Z;
           Call_register_hopping_energy_scalar "t" (-1, 0)%Z;
           Call_register_hopping_energy "w" [[(1, 0); (0, 0)]; [(0, 0); (1, 0)]]%Z;
           Call_add_hopping (mkIndex3D 1 0 0) "A" "B" "t"]
          (Lattice_ctor e1 e2 v0).

(** A chain: one primitive vector. *)
Definition chain : Lattice :=
  run_all [Call_add_sublattice_scalar "A" v0 0%Z] (Lattice_ctor e1 v0 v0).

(** The records these lattices hold. *)
Definition site_A : Sublattice := mkSublattice v0 [[(0, 0)%Z]] 0 0.
Definition site_B : Sublattice :=
  mkSublattice (mkVector3f float_half float_zero float_zero) [[(0, 0)%Z]] 1 1.
Definition term_AA : HoppingTerm := mkHoppingTerm (mkIndex3D 1 0 0) 0 0.
Definition term_AB : HoppingTerm := mkHoppingTerm (mkIndex3D 1 0 0) 0 1.
Definition family_t_square : HoppingFamily :=
  mkHoppingFamily [[(-1, 0)%Z]] 0 [term_AA].
Definition family_t_two_sites : HoppingFamily :=
  mkHoppingFamily [[(-1, 0)%Z]] 0 [term_AB].

(** A Hermitian matrix that is not upper triangular, a matrix of one
    entry, and a matrix of two rows and one column. *)
Definition hermitian_2 : MatrixXcd :=
  [[(1, 0); (0, 1)]; [(0, -1); (2, 0)]]%Z.
Definition seven : MatrixXcd := [[(7, 0)%Z]].

(** The literal [1e-6f], 8796093 * 2^-43, and a vector of that length. *)
Definition float_1e_6 : float := S754_finite false 8796093 (-43).
Definition tiny : Cartesian := mkVector3f float_1e_6 float_zero float_zero.

(** A matrix with the entry 1 below the diagonal and 2^40 on it. *)
Definition nearly_upper : MatrixXcd :=
  [[(1099511627776, 0); (0, 0)]; [(1, 0); (0, 0)]]%Z.

End Examples.

(** ** The queries *)

(** What the queries use of Eigen besides the operations above. *)
Class EigenQueries {E : Eigen} := {
  (** [m.diagonal().isZero()] *)
  diagonal_isZero : MatrixXcd -> bool;
  (** [m.imag().isZero()] *)
  imag_isZero : MatrixXcd -> bool
}.

(** The binary32 value of [acc + a * b] as the compiled code evaluates it:
    the product rounded and then the sum, or the two in one rounding where
    the compiler contracts them. *)
Class FloatArith := {
  float_mul_add : float -> float -> float -> float
}.

(** The integer types of [max_hoppings].  The function returns [int].  It
    counts in [idx_t], which a header outside the sources declares; the
    source passes [result], of type [idx_t], and the sum that starts from
    [cols() - 1], of type [Eigen::Index], to one [std::max], so the two are
    one type: a signed integer type, [std::ptrdiff_t] unless Eigen is
    configured otherwise.  The largest values of the two types are
    parameters; the smallest are their negatives less one. *)
Class IntegerTypes := {
  (** [std::numeric_limits<idx_t>::max()] *)
  idx_max : Z;
  (** [std::numeric_limits<int>::max()] *)
  int_max : Z
}.

(** [static_cast<float>(z)]: the integer rounded to the nearest binary32
    value. *)
Definition float_of_int (z : Z) : float := binary_normalize prec32 emax32 z 0 false.

(** [a + b] on vectors, coefficient by coefficient. *)
Definition vec_add (a b : Vector3f) : Vector3f :=
  mkVector3f (SFadd prec32 emax32 (vx a) (vx b))
             (SFadd prec32 emax32 (vy a) (vy b))
             (SFadd prec32 emax32 (vz a) (vz b)).

(** [acc += s * v] on vectors, coefficient by coefficient. *)
Definition vec_mul_add {FA : FloatArith} (acc : Vector3f) (s : float) (v : Vector3f)
    : Vector3f :=
  mkVector3f (float_mul_add (vx acc) s (vx v))
             (float_mul_add (vy acc) s (vy v))
             (float_mul_add (vz acc) s (vz v)).

(** [index[k]] *)
Definition index_coeff (i : Index3D) (k : nat) : Z := nth k [ix i; iy i; iz i] 0%Z.

Section Queries.
Context {E : Eigen} {D : LatticeDecl} {U : DestroyedTemporary}
        {Q : EigenQueries} {FA : FloatArith} {IT : IntegerTypes}.

(** A value of type [idx_t] from the integer [z]; signed arithmetic that
    leaves the range of the type is undefined, which is [None]. *)
Definition idx (z : Z) : option (result Z) :=
  if bool_decide (- idx_max - 1 <= z <= idx_max)%Z then Some (Ok z) else None.

(** [static_cast<int>(z)]: the value when [int] has it, and otherwise the
    value of [int] that differs from it by a multiple of the number of
    values of [int]. *)
Definition cast_int (z : Z) : Z :=
  ((z + (int_max + 1)) mod (2 * (int_max + 1)) - (int_max + 1))%Z.

(** The [std::accumulate] of [max_hoppings]: the lambda adds the columns
    of the family of each hopping, which it finds by identifier. *)
Definition accumulate_cols (L : Lattice) (init : option (result Z)) (hs : list Hopping)
    : option (result Z) :=
  foldl (fun acc h =>
           match acc with
           | Some (Ok n) =>
               match hopping_family_by_id (h_id h) L with
               | Throw e => Some (Throw e)
               | Ok f => idx (n + Z.of_nat (cols (f_energy f)))
               end
           | _ => acc
           end)
        init hs.

(** The body of the loop of [max_hoppings] for the site [s]; [maximum] is
    the variable [result] of the source. *)
Definition max_hoppings_step (L : Lattice) (maximum : option (result Z)) (s : Site)
    : option (result Z) :=
  match maximum with
  | Some (Ok maximum) =>
      match sublattice_by_id (site_alias s) L with
      | Throw e => Some (Throw e)
      | Ok a =>
          (* num hops in onsite matrix (-1 for diagonal) *)
          match accumulate_cols L (idx (Z.of_nat (cols (s_energy a)) - 1))
                  (site_hoppings s) with
          | Some (Ok num_scalar_hoppings) =>
              Some (Ok (Z.max maximum num_scalar_hoppings))
          | other => other
          end
      end
  | _ => maximum
  end.

(** [Lattice::max_hoppings].  [None] is what the language leaves
    undefined: the access out of range of [optimized_structure], and a
    count that leaves the range of [idx_t]. *)
Definition max_hoppings (L : Lattice) : option (result Z) :=
  match optimized_structure L with
  | None => None
  | Some os =>
      match foldl (max_hoppings_step L) (idx 0) os with
      | Some (Ok maximum) => Some (Ok (cast_int maximum))
      | other => other
      end
  end.

(** [Lattice::calc_position] *)
Definition calc_position (index : Index3D) (sublattice_name : string) (L : Lattice)
    : result Cartesian :=
  let position := offset L in
  (* Bravais lattice position *)
  let position :=
    foldl (fun position i =>
             vec_mul_add position (float_of_int (index_coeff index i))
               (nth i (vectors L) (mkVector3f float_zero float_zero float_zero)))
          position (seq 0 (ndim L)) in
  if negb (empty sublattice_name) then
    match sublattice sublattice_name L with
    | Ok s => Ok (vec_add position (s_position s))
    | Throw e => Throw e
    end
  else Ok position.

(** [Lattice::has_onsite_energy] *)
Definition has_onsite_energy (L : Lattice) : bool :=
  existsb (fun r : string * Sublattice => negb (diagonal_isZero (s_energy r.2)))
          (map_to_list (sublattices L)).

(** [Lattice::has_multiple_orbitals] *)
Definition has_multiple_orbitals (L : Lattice) : bool :=
  existsb (fun r : string * Sublattice => bool_decide (cols (s_energy r.2) <> 1))
          (map_to_list (sublattices L)).

(** [Lattice::has_complex_hoppings] *)
Definition has_complex_hoppings (L : Lattice) : bool :=
  existsb (fun r : string * HoppingFamily => negb (imag_isZero (f_energy r.2)))
          (map_to_list (hoppings L)).

(** [Lattice::sub_name_map]; [map[k] = v] is an insertion that replaces. *)
Definition sub_name_map (L : Lattice) : gmap string nat :=
  foldl (fun map (p : string * Sublattice) => <[p.1 := s_unique_id p.2]> map)
        ∅ (map_to_list (sublattices L)).

(** [Lattice::hop_name_map] *)
Definition hop_name_map (L : Lattice) : gmap string nat :=
  foldl (fun map (p : string * HoppingFamily) => <[p.1 := f_unique_id p.2]> map)
        ∅ (map_to_list (hoppings L)).

(** *** Notions used to state the properties of the queries *)

(** The family [f'] is the family [f] with terms added at the end. *)
Definition family_extends (f f' : HoppingFamily) : Prop :=
  f_energy f' = f_energy f /\ f_unique_id f' = f_unique_id f
  /\ terms f `prefix_of` terms f'.

(** The lattice [L'] has the primitive vectors and the [min_neighbors] of
    [L], its sublattices with their records, and its families, each with
    its energy, its identifier and its terms in front. *)
Record extends (L L' : Lattice) : Prop := {
  ext_vectors : vectors L' = vectors L;
  ext_min_neighbors : min_neighbors L' = min_neighbors L;
  ext_sublattices : forall name s,
    sublattices L !! name = Some s -> sublattices L' !! name = Some s;
  ext_hoppings : forall name f,
    hoppings L !! name = Some f ->
    exists f', hoppings L' !! name = Some f' /\ family_extends f f'
}.

(** More of what the registries of a lattice satisfy once it is built by
    the member functions. *)
Record wf_families (L : Lattice) : Prop := {
  (* the registries hold at most as many entries as there are identifiers *)
  wff_sub_capacity : nsub L <= S sub_id_max;
  wff_hop_capacity : size (hoppings L) <= S hop_id_max;
  (* the identifiers of the families are the numbers below their count *)
  wff_hop_dense : forall i, i < size (hoppings L) ->
    exists name f, hoppings L !! name = Some f /\ f_unique_id f = i;
  wff_hop_bound : forall name f,
    hoppings L !! name = Some f -> f_unique_id f < size (hoppings L);
  wff_hop_inj : forall n1 n2 f1 f2,
    hoppings L !! n1 = Some f1 -> hoppings L !! n2 = Some f2 ->
    f_unique_id f1 = f_unique_id f2 -> n1 = n2;
  (* the matrix of a family has the rows of the source and the columns of
     the destination of each of its terms *)
  wff_shape : forall name f t,
    hoppings L !! name = Some f -> t ∈ terms f ->
    exists nf sf nt st,
      sublattices L !! nf = Some sf /\ s_unique_id sf = t_from t
      /\ rows (s_energy sf) = rows (f_energy f)
      /\ sublattices L !! nt = Some st /\ s_unique_id st = t_to t
      /\ cols (s_energy st) = cols (f_energy f)
}.

(** The number of orbitals of the sublattice with the identifier [id] and
    the number of columns of the family with the identifier [id]. *)
Definition orbitals_of (id : nat) (L : Lattice) : Z :=
  match sublattice_by_id id L with
  | Ok a => Z.of_nat (cols (s_energy a))
  | Throw _ => 0%Z
  end.

Definition family_cols (id : nat) (L : Lattice) : Z :=
  match hopping_family_by_id id L with
  | Ok f => Z.of_nat (cols (f_energy f))
  | Throw _ => 0%Z
  end.

(** What [max_hoppings] counts for one site: the orbitals of the
    sublattice of its alias, less one, and the columns of the family of
    each of its hoppings. *)
Definition site_load (L : Lattice) (s : Site) : Z :=
  (orbitals_of (site_alias s) L - 1
   + foldr Z.add 0 (map (fun h => family_cols (h_id h) L) (site_hoppings s)))%Z.

End Queries.

(** The queries on the instance [Exact]. *)
Module ExactQueries.
Import Exact.

(** [isZero()] on integer entries: a magnitude of at most [1e-12] is the
    magnitude of the entry zero. *)
Definition m_diagonal_zero (m : matrix) : bool :=
  forallb (fun i => bool_decide (entry m i i = (0, 0)%Z))
          (seq 0 (Nat.min (m_rows m) (m_cols m))).

Definition m_real (m : matrix) : bool :=
  forallb (fun row => forallb (fun c : cplx => bool_decide (c.2 = 0%Z)) row) m.

#[export] Instance eigen_queries : EigenQueries := {|
  diagonal_isZero := m_diagonal_zero;
  imag_isZero := m_real
|}.

(** The product rounded, then the sum. *)
#[export] Instance float_arith : FloatArith := {|
  float_mul_add := fun acc a b => SFadd prec32 emax32 acc (SFmul prec32 emax32 a b)
|}.

(** [idx_t] of 64 bits and [int] of 32. *)
#[export] Instance integer_types : IntegerTypes := {|
  idx_max := 9223372036854775807;
  int_max := 2147483647
|}.

End ExactQueries.

(** More example lattices. *)
Module MoreExamples.
Import Exact Examples.

(** The quiet NaN. *)
Definition float_nan : float := S754_nan.

(** The lattice [two_sites] with an alias "A2" of "A", and the same with an
    alias "A3" of "A2". *)
Definition aliased_once : Lattice :=
  run_all [Call_add_alias "A2" "A" e1] two_sites.

Definition aliased : Lattice :=
  run_all [Call_add_alias "A3" "A2" e2] aliased_once.

(** The records of the two aliases. *)
Definition site_A2 : Sublattice := mkSublattice e1 [[(0, 0)%Z]] 2 0.
Definition site_A3 : Sublattice := mkSublattice e2 [[(0, 0)%Z]] 3 2.

(** The family "t" of [two_sites] after a second term from "A" to "B". *)
Definition term_AB_up : HoppingTerm := mkHoppingTerm (mkIndex3D 0 1 0) 0 1.

(** A lattice with one sublattice of two orbitals. *)
Definition two_orbitals : Lattice :=
  run_all [Call_add_sublattice "A" v0 hermitian_2] (Lattice_ctor e1 e2 v0).

(** Two calls on it: the first throws, as the name "A" is taken, the second
    registers "B". *)
Definition two_more_calls : list Call :=
  [Call_add_sublattice_scalar "A" v0 1%Z; Call_add_sublattice_scalar "B" e1 1%Z].

(** A lattice whose one family bears the name that [add_hopping] would
    synthesize next. *)
Definition anonymous_taken : Lattice :=
  run_all [Call_add_sublattice_scalar "A" v0 0%Z;
           Call_register_hopping_energy_scalar "__anonymous__1" (-1, 0)%Z]
          (Lattice_ctor e1 e2 v0).

End MoreExamples.

(** ** Properties *)

Section Properties.
Context {E : Eigen} {EC : EigenCoefficients} {D : LatticeDecl}
        {U : DestroyedTemporary}.

Implicit Types (L : Lattice) (name : string).

(** *** What each member function does to the lattice *)

Lemma empty_spec name : empty name = true <-> name = EmptyString.
Proof. destruct name; simpl; split; congruence. Qed.

(** [register_sublattice] never modifies the lattice; it returns the
    size of the registry when the name is not blank, the registry is not
    full and the name is new, and throws otherwise. *)
Lemma register_sublattice_cases name L :
  (name <> EmptyString /\ size (sublattices L) <= sub_id_max
   /\ sublattices L !! name = None
   /\ register_sublattice name L = (Ok (size (sublattices L)), L))
  \/ ((name = EmptyString \/ sub_id_max < size (sublattices L)
       \/ sublattices L !! name <> None)
      /\ exists x, register_sublattice name L = (Throw x, L)).
Proof.
  unfold register_sublattice, bind, get, throw, ret.
  destruct (empty name) eqn:He.
  { right. apply empty_spec in He. eauto. }
  assert (name <> EmptyString) by (intros ->; done).
  destruct (decide (sub_id_max < size (sublattices L))); [right; eauto|].
  destruct (decide (sublattices L !! name <> None)) as [Hn|Hn]; [right; eauto|].
  left. repeat split; try done; try lia.
  destruct (sublattices L !! name); [exfalso; auto | done].
Qed.

(** A successful [add_sublattice] inserts the record under a fresh name;
    a failing one leaves the lattice as it was. *)
Lemma add_sublattice_cases name position e L :
  (sublattices L !! name = None
   /\ add_sublattice name position e L
      = (Ok tt,
         set_sublattices
           (<[name := mkSublattice position e (size (sublattices L))
                        (size (sublattices L))]> (sublattices L)) L))
  \/ (exists x, add_sublattice name position e L = (Throw x, L)).
Proof.
  unfold add_sublattice, throw.
  case_decide; [right; eauto|].
  destruct (negb (diagonal_imag_isZero e)); [right; eauto|].
  destruct (negb (isUpperTriangular e) && negb (mat_eqb e (adjoint e)));
    [right; eauto|].
  unfold bind.
  destruct (register_sublattice_cases name L)
    as [(_ & _ & Hn & ->)|(_ & x & ->)]; [left|right]; eauto.
Qed.

Lemma add_alias_cases alias_name original_name position L :
  (exists original,
      sublattices L !! original_name = Some original
      /\ sublattices L !! alias_name = None
      /\ add_alias alias_name original_name position L
         = (Ok tt,
            set_sublattices
              (<[alias_name := mkSublattice position (s_energy original)
                                 (size (sublattices L)) (s_unique_id original)]>
                 (sublattices L)) L))
  \/ (exists x, add_alias alias_name original_name position L = (Throw x, L)).
Proof.
  unfold add_alias, bind, call_const, sublattice.
  destruct (sublattices L !! original_name) as [original|] eqn:Hl; [|right; eauto].
  destruct (register_sublattice_cases alias_name L)
    as [(_ & _ & Hn & ->)|(_ & x & ->)]; [left|right]; eauto.
Qed.

Lemma set_hoppings_id L : set_hoppings (hoppings L) L = L.
Proof. by destruct L. Qed.

Lemma register_hopping_energy_cases name e L :
  (name <> EmptyString
   /\ size (hoppings L) <= hop_id_max
   /\ hoppings L !! name = None
   /\ register_hopping_energy name e L
      = (Ok tt,
         set_hoppings
           (<[name := mkHoppingFamily e (size (hoppings L)) []]> (hoppings L)) L))
  \/ ((name = EmptyString \/ hop_id_max < size (hoppings L)
       \/ hoppings L !! name <> None)
      /\ exists x, register_hopping_energy name e L = (Throw x, L)).
Proof.
  unfold register_hopping_energy, throw.
  destruct (empty name) eqn:He.
  { right. apply empty_spec in He. eauto. }
  assert (name <> EmptyString) by (intros ->; done).
  unfold bind, get, modify, ret, umap_insert. cbn beta.
  destruct (decide (hop_id_max < size (hoppings L))); [right; eauto|].
  destruct (hoppings L !! name) eqn:Hl; simpl.
  - right. rewrite set_hoppings_id. eauto 6.
  - left. repeat split; try done. lia.
Qed.

Lemma existsb_elem_of {A} (f : A -> bool) (l : list A) :
  existsb f l = true <-> exists x, x ∈ l /\ f x = true.
Proof.
  rewrite existsb_exists. split; intros (x & Hx & Hf); exists x; split; try done;
    by apply list_elem_of_In.
Qed.

Lemma elem_of_flat_map {A B} (f : A -> list B) (l : list A) (y : B) :
  y ∈ flat_map f l <-> exists x, x ∈ l /\ y ∈ f x.
Proof.
  rewrite list_elem_of_In, in_flat_map.
  split; intros (x & Hx & Hy); exists x; split;
    try (by apply list_elem_of_In); done.
Qed.

Lemma elem_of_all_terms L t :
  t ∈ all_terms L <->
  exists fam f, hoppings L !! fam = Some f /\ t ∈ terms f.
Proof.
  unfold all_terms. rewrite elem_of_flat_map. split.
  - intros ([fam f] & Hp & Ht). apply elem_of_map_to_list in Hp. eauto.
  - intros (fam & f & Hp & Ht). exists (fam, f). split; [|done].
    by apply elem_of_map_to_list.
Qed.

(** The duplicate check of [add_hopping], as a statement on the terms. *)
Lemma duplicate_check_spec L i a b :
  existsb (fun r : string * HoppingFamily => existsb (collides i a b) (terms r.2))
          (map_to_list (hoppings L)) = true
  <-> exists t, t ∈ all_terms L /\ collides i a b t = true.
Proof.
  rewrite existsb_elem_of. unfold all_terms. split.
  - intros (r & Hr & Hx). apply existsb_elem_of in Hx as (t & Ht & Hc).
    exists t. split; [|done]. apply elem_of_flat_map. eauto.
  - intros (t & Ht & Hc). apply elem_of_flat_map in Ht as (r & Hr & Ht).
    exists r. split; [done|]. apply existsb_elem_of. eauto.
Qed.

Lemma collides_spec i a b t :
  collides i a b t = true <->
  (i = t_relative_index t /\ a = t_from t /\ b = t_to t)
  \/ conjugate_comparison i a b t = true.
Proof.
  unfold collides. rewrite orb_true_iff, bool_decide_eq_true.
  split; (intros [H|H]; [left|right; done]);
    first [by inversion H | by destruct H as (-> & -> & ->)].
Qed.

(** The outcome of [add_hopping] by name: either all the checks pass and
    the term goes to the end of the family's list, or it throws and the
    lattice is as before. *)
Lemma add_hopping_cases i from_sub to_sub fam L :
  (exists from to family,
      sublattices L !! from_sub = Some from
      /\ sublattices L !! to_sub = Some to
      /\ hoppings L !! fam = Some family
      /\ ~ (from_sub = to_sub /\ i = Index3D_Zero)
      /\ (forall t, t ∈ all_terms L ->
            collides i (s_unique_id from) (s_unique_id to) t = false)
      /\ add_hopping i from_sub to_sub fam L
         = (Ok tt,
            set_hoppings
              (<[fam := push_term
                          (mkHoppingTerm i (s_unique_id from) (s_unique_id to))
                          family]> (hoppings L)) L))
  \/ (exists x, add_hopping i from_sub to_sub fam L = (Throw x, L)).
Proof.
  unfold add_hopping, throw.
  destruct (bool_decide (from_sub = to_sub) && bool_decide (i = Index3D_Zero)) eqn:Hz;
    [right; eauto|].
  unfold bind, call_const, sublattice, hopping_family, get, modify. cbn beta.
  destruct (sublattices L !! from_sub) as [from|] eqn:Hf; [|right; eauto].
  destruct (sublattices L !! to_sub) as [to|] eqn:Ht; [|right; eauto].
  destruct (hoppings L !! fam) as [family|] eqn:Hh; [|right; eauto].
  destruct (_ || _) eqn:Hsz; [right; eauto|].
  destruct (existsb _ _) eqn:Hd; [right; eauto|].
  left. exists from, to, family. repeat split; try done.
  - intros [-> ->]. rewrite !bool_decide_true in Hz; done.
  - intros t Ht'. destruct (collides _ _ _ t) eqn:Hc; [|done].
    assert (existsb (fun r : string * HoppingFamily =>
               existsb (collides i (s_unique_id from) (s_unique_id to)) (terms r.2))
             (map_to_list (hoppings L)) = true) as Hd'
      by (apply duplicate_check_spec; eauto).
    congruence.
  - unfold hoppings_at. rewrite Hh. done.
Qed.

Lemma add_hopping_matrix_unfold i from_sub to_sub e L :
  add_hopping_matrix i from_sub to_sub e L =
  match find (fun r : string * HoppingFamily => mat_eqb (f_energy r.2) e)
             (map_to_list (hoppings L)) with
  | Some it => add_hopping i from_sub to_sub it.1 L
  | None =>
      let name := "__anonymous__" +:+ pretty (size (hoppings L)) in
      match register_hopping_energy name e L with
      | (Ok _, L1) => add_hopping i from_sub to_sub name L1
      | (Throw x, L1) => (Throw x, L1)
      end
  end.
Proof.
  unfold add_hopping_matrix, bind, get, ret. cbn beta.
  destruct (find _ _); [done|]. cbn zeta.
  destruct (register_hopping_energy _ e L) as [[[]|x] L1]; done.
Qed.

(** *** The invariant of the registries *)

Lemma all_terms_set_sublattices m L :
  all_terms (set_sublattices m L) = all_terms L.
Proof. done. Qed.

Lemma all_terms_insert_fresh name f L :
  hoppings L !! name = None ->
  all_terms (set_hoppings (<[name := f]> (hoppings L)) L) ≡ₚ terms f ++ all_terms L.
Proof.
  intros Hn. unfold all_terms. simpl.
  rewrite (Permutation_flat_map _ (map_to_list_insert _ _ f Hn)). done.
Qed.

Lemma all_terms_push fam family t L :
  hoppings L !! fam = Some family ->
  all_terms (set_hoppings (<[fam := push_term t family]> (hoppings L)) L)
  ≡ₚ t :: all_terms L.
Proof.
  intros Hf. unfold all_terms. simpl.
  rewrite <- (insert_delete_eq (hoppings L)).
  rewrite (Permutation_flat_map _
             (map_to_list_insert _ _ (push_term t family) (lookup_delete_eq _ fam))).
  rewrite <- (Permutation_flat_map _ (map_to_list_delete _ _ _ Hf)).
  simpl. rewrite <- app_assoc. symmetry. apply Permutation_middle.
Qed.

Lemma wf_ctor a1 a2 a3 : wf (Lattice_ctor a1 a2 a3).
Proof.
  unfold Lattice_ctor. split; simpl.
  - unfold ndim; simpl.
    destruct (negb (isZero a2)), (negb (isZero a3)); simpl; lia.
  - unfold nsub; simpl. rewrite map_size_empty. lia.
  - intros ? ?. rewrite lookup_empty. done.
  - intros ? ? ? ?. rewrite lookup_empty. done.
  - intros ? ?. rewrite lookup_empty. done.
  - unfold all_terms; simpl. rewrite map_to_list_empty. simpl. by intros t ?%elem_of_nil.
  - unfold all_terms; simpl. rewrite map_to_list_empty. simpl. by intros t ?%elem_of_nil.
  - unfold all_terms; simpl. rewrite map_to_list_empty. simpl. constructor.
Qed.

(** A record with the next identifier under a new name keeps the
    invariant. *)
Lemma wf_insert_sublattice name position e alias L :
  wf L -> sublattices L !! name = None -> alias <= nsub L ->
  wf (set_sublattices
        (<[name := mkSublattice position e (nsub L) alias]> (sublattices L)) L).
Proof.
  intros [Hd Hdense Hbound Hinj Halias Hids Hnz Hnd] Hn Ha.
  assert (nsub (set_sublattices
             (<[name := mkSublattice position e (nsub L) alias]> (sublattices L)) L)
          = S (nsub L)) as Hsz
    by (unfold nsub; simpl; by rewrite map_size_insert_None).
  split; rewrite ?Hsz, ?all_terms_set_sublattices; simpl; try done.
  - intros i Hi. destruct (decide (i = nsub L)) as [->|Hne].
    + exists name, (mkSublattice position e (nsub L) alias).
      by rewrite lookup_insert_eq.
    + destruct (Hdense i) as (n & s & Hl & Hid); [lia|].
      exists n, s. split; [|done]. rewrite lookup_insert_ne; [done|].
      intros ->. congruence.
  - intros n s. rewrite lookup_insert. case_decide.
    + intros [= <-]. simpl. lia.
    + intros Hl. apply Hbound in Hl. lia.
  - intros n1 n2 s1 s2. rewrite !lookup_insert.
    repeat case_decide; subst; try done.
    + intros [= <-] Hl Hid. apply Hbound in Hl. simpl in Hid. lia.
    + intros Hl [= <-] Hid. apply Hbound in Hl. simpl in Hid. lia.
    + apply Hinj.
  - intros n s. rewrite lookup_insert. case_decide.
    + intros [= <-]. simpl. lia.
    + intros Hl. apply Halias in Hl. lia.
  - intros t Ht. apply Hids in Ht. lia.
Qed.

Lemma wf_insert_family name f L :
  wf L -> hoppings L !! name = None -> terms f = [] ->
  wf (set_hoppings (<[name := f]> (hoppings L)) L).
Proof.
  intros [Hd Hdense Hbound Hinj Halias Hids Hnz Hnd] Hn Hf.
  pose proof (all_terms_insert_fresh name f L Hn) as Hp.
  rewrite Hf in Hp. simpl in Hp.
  split; try done.
  - intros t Ht. rewrite Hp in Ht. by apply Hids.
  - intros t Ht. rewrite Hp in Ht. by apply Hnz.
  - by rewrite Hp.
Qed.

Lemma index_neg_zero i : index_neg i = Index3D_Zero <-> i = Index3D_Zero.
Proof.
  destruct i. unfold index_neg, Index3D_Zero. simpl.
  split; intros [= ? ? ?]; f_equal; lia.
Qed.

Lemma wf_push_term fam family i from_sub to_sub from to L :
  wf L ->
  hoppings L !! fam = Some family ->
  sublattices L !! from_sub = Some from ->
  sublattices L !! to_sub = Some to ->
  ~ (from_sub = to_sub /\ i = Index3D_Zero) ->
  (forall t, t ∈ all_terms L ->
     collides i (s_unique_id from) (s_unique_id to) t = false) ->
  wf (set_hoppings
        (<[fam := push_term (mkHoppingTerm i (s_unique_id from) (s_unique_id to))
                    family]> (hoppings L)) L).
Proof.
  intros Hwf Hh Hf Ht Hz Hc.
  pose proof (all_terms_push fam family
                (mkHoppingTerm i (s_unique_id from) (s_unique_id to)) L Hh) as Hp.
  destruct Hwf as [Hd Hdense Hbound Hinj Halias Hids Hnz Hnd].
  split; try done.
  - intros t Hin. rewrite Hp in Hin. apply elem_of_cons in Hin as [->|Hin].
    + simpl. split; eapply Hbound; eauto.
    + by apply Hids.
  - intros t Hin. rewrite Hp in Hin. apply elem_of_cons in Hin as [->|Hin].
    + simpl. intros [-> Hid]. apply Hz. split; [|done]. eapply Hinj; eauto.
    + by apply Hnz.
  - rewrite Hp. constructor; [|done].
    intros Hin. specialize (Hc _ Hin).
    assert (collides i (s_unique_id from) (s_unique_id to)
              (mkHoppingTerm i (s_unique_id from) (s_unique_id to)) = true)
      by (apply collides_spec; left; done).
    congruence.
Qed.

Lemma wf_set_offset_field p L : wf L -> wf (set_offset_field p L).
Proof. intros []. split; done. Qed.

Lemma wf_set_min_neighbors_field n L : wf L -> wf (set_min_neighbors_field n L).
Proof. intros []. split; done. Qed.

Lemma wf_add_sublattice name position e L :
  wf L -> wf (add_sublattice name position e L).2.
Proof.
  intros Hwf. destruct (add_sublattice_cases name position e L)
    as [(Hn & ->)|(x & ->)]; [|done].
  simpl. by apply wf_insert_sublattice.
Qed.

Lemma wf_add_alias alias_name original_name position L :
  wf L -> wf (add_alias alias_name original_name position L).2.
Proof.
  intros Hwf. destruct (add_alias_cases alias_name original_name position L)
    as [(o & Ho & Hn & ->)|(x & ->)]; [|done].
  simpl. apply wf_insert_sublattice; [done..|].
  apply (wf_sub_bound _ Hwf) in Ho. lia.
Qed.

Lemma wf_register_hopping_energy name e L :
  wf L -> wf (register_hopping_energy name e L).2.
Proof.
  intros Hwf. destruct (register_hopping_energy_cases name e L)
    as [(_ & _ & Hn & ->)|(_ & x & ->)]; [|done].
  simpl. by apply wf_insert_family.
Qed.

Lemma wf_add_hopping i from_sub to_sub fam L :
  wf L -> wf (add_hopping i from_sub to_sub fam L).2.
Proof.
  intros Hwf. destruct (add_hopping_cases i from_sub to_sub fam L)
    as [(from & to & family & Hf & Ht & Hh & Hz & Hc & ->)|(x & ->)]; [|done].
  simpl. eapply wf_push_term; eauto.
Qed.

Lemma wf_add_hopping_matrix i from_sub to_sub e L :
  wf L -> wf (add_hopping_matrix i from_sub to_sub e L).2.
Proof.
  intros Hwf. rewrite add_hopping_matrix_unfold.
  destruct (find _ _); [by apply wf_add_hopping|]. cbn zeta.
  pose proof (wf_register_hopping_energy
                ("__anonymous__" +:+ pretty (size (hoppings L))) e L Hwf) as Hr.
  destruct (register_hopping_energy _ e L) as [[[]|x] L1]; simpl in *; [|done].
  by apply wf_add_hopping.
Qed.

Lemma set_offset_cases position L :
  set_offset position L = (Ok tt, set_offset_field position L)
  \/ set_offset position L = (Throw OffsetTooLarge, L).
Proof.
  unfold set_offset, bind, get, modify, throw. cbn beta.
  destruct (existsb _ _); auto.
Qed.

Lemma wf_set_offset position L : wf L -> wf (set_offset position L).2.
Proof.
  intros Hwf. destruct (set_offset_cases position L) as [-> | ->]; [|done].
  by apply wf_set_offset_field.
Qed.

Create HintDb wf_db.
#[local] Hint Resolve wf_add_sublattice wf_add_alias wf_register_hopping_energy
  wf_add_hopping wf_add_hopping_matrix wf_set_offset : wf_db.

Lemma wf_run c L : wf L -> wf (run c L).2.
Proof.
  destruct c; simpl;
    unfold add_sublattice_scalar, add_sublattice_vector,
           register_hopping_energy_scalar, add_hopping_scalar;
    auto with wf_db.
Qed.

(** Every lattice that the member functions build satisfies the
    invariant. *)
Lemma reachable_wf L : reachable L -> wf L.
Proof.
  induction 1 as [a1 a2 a3|L c _ IH|L p L' _ IH Hw|L n L' _ IH Hw].
  - apply wf_ctor.
  - by apply wf_run.
  - unfold with_offset in Hw.
    pose proof (wf_set_offset p L IH) as Hs.
    destruct (set_offset p L) as [[[]|x] L1]; [|done].
    by injection Hw as <-.
  - injection Hw as <-. by apply wf_set_min_neighbors_field.
Qed.

Lemma reachable_run_all cs L : reachable L -> reachable (run_all cs L).
Proof.
  revert L. induction cs as [|c cs IH]; intros L HL; [done|].
  simpl. apply IH. by constructor.
Qed.

(** *** The constructor *)

Lemma Vector3f_isZero_spec (v : Vector3f) :
  Vector3f_isZero v = true
  <-> Forall (fun c => SFleb (SFabs c) float_1e_5 = true) (coeffs v).
Proof.
  unfold Vector3f_isZero, coeffs, isMuchSmallerThan.
  assert (SFmul prec32 emax32 (SFabs float_one) float_1e_5 = float_1e_5) as ->
    by reflexivity.
  simpl. rewrite andb_true_r, !andb_true_iff, !Forall_cons, Forall_nil. tauto.
Qed.

(** C9: the constructor stores [a1], then [a2] unless [a2.isZero()], then
    [a3] unless [a3.isZero()].  With [isZero()] what Eigen defines, a
    vector is dropped exactly when each of its coefficients is at most
    [1e-5f] in magnitude: the zero vector, and the vectors near it as
    well.  The dimensionality is one plus the number of those two that
    were kept, and with [a2] dropped and [a3] kept, [a3] is the second
    primitive vector. *)
Theorem C9_constructor_drops_small_vectors (a1 a2 a3 : Cartesian) :
  (forall v, isZero v = Vector3f_isZero v) ->
  vectors (Lattice_ctor a1 a2 a3)
    = a1 :: filter (fun a => Vector3f_isZero a = false) [a2; a3]
  /\ ndim (Lattice_ctor a1 a2 a3)
     = 1 + length (filter (fun a => Vector3f_isZero a = false) [a2; a3])
  /\ vectors (Lattice_ctor a1 a2 a3)
     = match Vector3f_isZero a2, Vector3f_isZero a3 with
       | true, true => [a1]
       | true, false => [a1; a3]
       | false, true => [a1; a2]
       | false, false => [a1; a2; a3]
       end
  /\ (forall a, Vector3f_isZero a = true
                <-> Forall (fun c => SFleb (SFabs c) float_1e_5 = true) (coeffs a))
  /\ Vector3f_isZero (mkVector3f float_zero float_zero float_zero) = true.
Proof.
  intros Hzero.
  unfold ndim, Lattice_ctor. simpl. rewrite !Hzero.
  rewrite !filter_cons, filter_nil.
  split; [|split; [|split; [|split; [apply Vector3f_isZero_spec|reflexivity]]]];
    destruct (Vector3f_isZero a2), (Vector3f_isZero a3); simpl;
    repeat case_decide; done.
Qed.

(** *** Identifiers of sublattices *)

Lemma inserted_sublattice_ids name position e alias L :
  wf L -> sublattices L !! name = None -> alias <= nsub L ->
  let L' := set_sublattices
              (<[name := mkSublattice position e (nsub L) alias]> (sublattices L)) L in
  exists s,
    sublattices L' !! name = Some s
    /\ s_unique_id s = nsub L
    /\ nsub L' = S (nsub L)
    /\ (forall n' s', sublattices L !! n' = Some s' ->
          sublattices L' !! n' = Some s' /\ s_unique_id s' < s_unique_id s)
    /\ (forall i, i < nsub L' <->
          exists n' s', sublattices L' !! n' = Some s' /\ s_unique_id s' = i)
    /\ (forall n1 n2 s1 s2,
          sublattices L' !! n1 = Some s1 -> sublattices L' !! n2 = Some s2 ->
          s_unique_id s1 = s_unique_id s2 -> n1 = n2).
Proof.
  intros Hwf Hn Ha L'.
  pose proof (wf_insert_sublattice name position e alias L Hwf Hn Ha) as Hwf'.
  fold L' in Hwf'.
  exists (mkSublattice position e (nsub L) alias). repeat split.
  - subst L'. simpl. by rewrite lookup_insert_eq.
  - subst L'. unfold nsub. simpl. by rewrite map_size_insert_None.
  - subst L'. simpl. rewrite lookup_insert_ne; [done|]. intros ->. congruence.
  - simpl. by eapply wf_sub_bound.
  - apply (wf_sub_dense _ Hwf').
  - intros (n' & s' & Hl & <-). by eapply wf_sub_bound.
  - apply (wf_sub_inj _ Hwf').
Qed.

(** C5: a call that adds a sublattice ([add_sublattice] in its three
    forms, [add_alias]) and returns gives the new sublattice the number of
    sublattices registered before the call as its unique identifier; the
    sublattices registered before keep their records and have smaller
    identifiers, and the identifiers after the call are the numbers from 0
    up to the new count, each carried by one name. *)
Theorem C5_new_sublattice_id_is_count (L : Lattice) (c : Call) (name : string) :
  reachable L ->
  sublattice_added c = Some name ->
  (run c L).1 = Ok tt ->
  exists s,
    sublattices (run c L).2 !! name = Some s
    /\ s_unique_id s = nsub L
    /\ nsub (run c L).2 = S (nsub L)
    /\ (forall n' s', sublattices L !! n' = Some s' ->
          sublattices (run c L).2 !! n' = Some s' /\ s_unique_id s' < s_unique_id s)
    /\ (forall i, i < nsub (run c L).2 <->
          exists n' s', sublattices (run c L).2 !! n' = Some s' /\ s_unique_id s' = i)
    /\ (forall n1 n2 s1 s2,
          sublattices (run c L).2 !! n1 = Some s1 ->
          sublattices (run c L).2 !! n2 = Some s2 ->
          s_unique_id s1 = s_unique_id s2 -> n1 = n2).
Proof.
  intros Hr%reachable_wf Hc Hok.
  assert (forall n p e, (add_sublattice n p e L).1 = Ok tt ->
            exists s,
              sublattices (add_sublattice n p e L).2 !! n = Some s
              /\ s_unique_id s = nsub L
              /\ nsub (add_sublattice n p e L).2 = S (nsub L)
              /\ (forall n' s', sublattices L !! n' = Some s' ->
                    sublattices (add_sublattice n p e L).2 !! n' = Some s'
                    /\ s_unique_id s' < s_unique_id s)
              /\ (forall i, i < nsub (add_sublattice n p e L).2 <->
                    exists n' s', sublattices (add_sublattice n p e L).2 !! n' = Some s'
                                  /\ s_unique_id s' = i)
              /\ (forall n1 n2 s1 s2,
                    sublattices (add_sublattice n p e L).2 !! n1 = Some s1 ->
                    sublattices (add_sublattice n p e L).2 !! n2 = Some s2 ->
                    s_unique_id s1 = s_unique_id s2 -> n1 = n2)) as Hadd.
  { intros n p e Ho.
    destruct (add_sublattice_cases n p e L) as [(Hn & Heq)|(x & Heq)];
      rewrite Heq in *; [|done].
    simpl. by apply inserted_sublattice_ids. }
  destruct c; simpl in *; try done; injection Hc as ->; try by apply Hadd.
  destruct (add_alias_cases name original_name position L)
    as [(o & Ho & Hn & Heq)|(x & Heq)]; rewrite Heq in *; [|done].
  simpl. apply inserted_sublattice_ids; [done..|].
  apply (wf_sub_bound _ Hr) in Ho. lia.
Qed.

(** *** Validation of the onsite energy *)

Lemma add_sublattice_eq name position e L :
  add_sublattice name position e L =
  if decide (rows e <> cols e) then (Throw OnsiteNotSquare, L) else
  if negb (diagonal_imag_isZero e) then (Throw OnsiteDiagonalNotReal, L) else
  if negb (isUpperTriangular e) && negb (mat_eqb e (adjoint e))
  then (Throw OnsiteNotTriangularOrHermitian, L) else
  match register_sublattice name L with
  | (Ok unique_id, L') =>
      (Ok tt,
       set_sublattices
         (<[name := mkSublattice position e unique_id unique_id]> (sublattices L')) L')
  | (Throw x, L') => (Throw x, L')
  end.
Proof.
  unfold add_sublattice. case_decide; [done|].
  destruct (negb (diagonal_imag_isZero e)); [done|].
  destruct (negb (isUpperTriangular e) && negb (mat_eqb e (adjoint e))); done.
Qed.

Lemma isZero_double_spec (l : list float64) :
  isZero_double l = true
  <-> Forall (fun c => SFleb (SFabs c) double_1e_12 = true) l.
Proof.
  unfold isZero_double, isMuchSmallerThan.
  assert (SFmul prec64 emax64 (SFabs double_one) double_1e_12 = double_1e_12) as ->
    by reflexivity.
  rewrite forallb_forall, Forall_forall.
  split; intros H c Hc; apply H; by apply list_elem_of_In.
Qed.

(** C4: for a name that is not blank and not registered, in a registry
    that is not full, [add_sublattice] throws one of its three shape errors
    and leaves the lattice as it was when the matrix is not square, when
    [diagonal().imag().isZero()] is false, or when [isUpperTriangular()] is
    false and the matrix differs from its adjoint; otherwise it returns and
    the sublattice is registered.  With the two tests what Eigen defines,
    the diagonal passes exactly when each of its imaginary parts is at most
    [1e-12] in magnitude, and the matrix passes as upper triangular when no
    magnitude below the diagonal exceeds [1e-12] times the largest
    magnitude on or above it. *)
Theorem C4_add_sublattice_validation (name : string) (position : Cartesian)
    (e : MatrixXcd) (L : Lattice) :
  (forall m, diagonal_imag_isZero m = isZero_double (diagonal_imag m)) ->
  (forall m, isUpperTriangular m
             = isUpperTriangular_within (abs_upper m) (abs_lower m)) ->
  name <> EmptyString ->
  sublattices L !! name = None ->
  nsub L <= sub_id_max ->
  (rows e <> cols e
   \/ isZero_double (diagonal_imag e) = false
   \/ (isUpperTriangular_within (abs_upper e) (abs_lower e) = false
       /\ mat_eqb e (adjoint e) = false) ->
     exists x,
       add_sublattice name position e L = (Throw x, L)
       /\ (x = OnsiteNotSquare \/ x = OnsiteDiagonalNotReal
           \/ x = OnsiteNotTriangularOrHermitian))
  /\ (rows e = cols e ->
      isZero_double (diagonal_imag e) = true ->
      isUpperTriangular_within (abs_upper e) (abs_lower e) = true
      \/ mat_eqb e (adjoint e) = true ->
        add_sublattice name position e L
        = (Ok tt,
           set_sublattices
             (<[name := mkSublattice position e (nsub L) (nsub L)]> (sublattices L))
             L))
  /\ (isZero_double (diagonal_imag e) = true
      <-> Forall (fun c => SFleb (SFabs c) double_1e_12 = true) (diagonal_imag e)).
Proof.
  intros Hdiag Hupper Hne Hfresh Hcap.
  assert (register_sublattice name L = (Ok (nsub L), L)) as Hreg.
  { destruct (register_sublattice_cases name L) as [(_ & _ & _ & ->)|([?|[?|?]] & _)];
      [done|done|unfold nsub in *; lia|done]. }
  rewrite add_sublattice_eq, Hreg, Hdiag, Hupper.
  split; [|split; [|apply isZero_double_spec]].
  - intros Hbad. case_decide; [eauto|].
    destruct (isZero_double (diagonal_imag e)) eqn:Hd; simpl; [|eauto 6].
    destruct Hbad as [Hsq|[Hd'|[-> ->]]]; [done|done|]. simpl. eauto 6.
  - intros Hsq Hd Hshape. rewrite decide_False, Hd by auto. simpl.
    destruct Hshape as [-> | ->]; [done|]. by rewrite andb_false_r.
Qed.

(** *** The zero relative index *)

(** C6: [add_hopping] with the zero relative index and the same name as
    source and destination throws, in its three forms, whatever the family
    or the energy and whatever the registries hold. *)
Theorem C6_zero_index_same_sublattice_fails (sub fam : string) (e : MatrixXcd)
    (c : complex) (L : Lattice) :
  add_hopping Index3D_Zero sub sub fam L = (Throw ZeroIndexSameSublattice, L)
  /\ is_Throw (add_hopping_matrix Index3D_Zero sub sub e L).1 = true
  /\ is_Throw (add_hopping_scalar Index3D_Zero sub sub c L).1 = true.
Proof.
  assert (forall f L', add_hopping Index3D_Zero sub sub f L'
                       = (Throw ZeroIndexSameSublattice, L')) as Hz.
  { intros f L'. unfold add_hopping. by rewrite !bool_decide_true. }
  assert (forall e', is_Throw (add_hopping_matrix Index3D_Zero sub sub e' L).1 = true)
    as Hm.
  { intros e'. rewrite add_hopping_matrix_unfold.
    destruct (find _ _); [by rewrite Hz|]. cbn zeta.
    destruct (register_hopping_energy _ e' L) as [[[]|x] L1]; [by rewrite Hz|done]. }
  repeat split; [apply Hz|apply Hm|apply Hm].
Qed.

(** *** Duplicates and failures of [add_hopping] *)

Lemma add_hopping_eq i from_sub to_sub fam L :
  add_hopping i from_sub to_sub fam L =
  if bool_decide (from_sub = to_sub) && bool_decide (i = Index3D_Zero)
  then (Throw ZeroIndexSameSublattice, L) else
  match sublattices L !! from_sub with
  | None => (Throw (NoSublatticeNamed from_sub), L)
  | Some from =>
    match sublattices L !! to_sub with
    | None => (Throw (NoSublatticeNamed to_sub), L)
    | Some to =>
      match hoppings L !! fam with
      | None => (Throw (NoHoppingNamed fam), L)
      | Some family =>
        if bool_decide (rows (s_energy from) <> rows (f_energy family))
           || bool_decide (cols (s_energy to) <> cols (f_energy family))
        then (Throw (HoppingSizeMismatch from_sub to_sub fam), L) else
        if existsb (fun r : string * HoppingFamily =>
                      existsb (collides i (s_unique_id from) (s_unique_id to))
                              (terms r.2))
                   (map_to_list (hoppings L))
        then (Throw HoppingDuplicate, L)
        else (Ok tt,
              set_hoppings
                (<[fam := push_term
                            (mkHoppingTerm i (s_unique_id from) (s_unique_id to))
                            family]> (hoppings L)) L)
      end
    end
  end.
Proof.
  unfold add_hopping, throw.
  destruct (_ && _); [done|].
  unfold bind, call_const, sublattice, hopping_family, get, modify. cbn beta.
  destruct (sublattices L !! from_sub) as [from|]; [|done].
  destruct (sublattices L !! to_sub) as [to|]; [|done].
  destruct (hoppings L !! fam) as [family|] eqn:Hh; [|done].
  destruct (_ || _); [done|].
  destruct (existsb _ _); [done|].
  unfold hoppings_at. by rewrite Hh.
Qed.

(** A term that collides with a stored one is refused: as a duplicate when
    the family exists and has the shape the two sublattices ask for, and
    otherwise by the check that comes before the duplicate check. *)
Lemma add_hopping_collision i from_sub to_sub fam L from to t :
  ~ (from_sub = to_sub /\ i = Index3D_Zero) ->
  sublattices L !! from_sub = Some from ->
  sublattices L !! to_sub = Some to ->
  t ∈ all_terms L ->
  collides i (s_unique_id from) (s_unique_id to) t = true ->
  exists x,
    add_hopping i from_sub to_sub fam L = (Throw x, L)
    /\ (x = HoppingDuplicate <->
        exists family, hoppings L !! fam = Some family
                       /\ rows (s_energy from) = rows (f_energy family)
                       /\ cols (s_energy to) = cols (f_energy family))
    /\ (x = HoppingDuplicate \/ x = NoHoppingNamed fam
        \/ x = HoppingSizeMismatch from_sub to_sub fam).
Proof.
  intros Hz Hf Ht Hin Hc.
  rewrite add_hopping_eq, Hf, Ht.
  destruct (bool_decide (from_sub = to_sub) && bool_decide (i = Index3D_Zero)) eqn:Hz'.
  { apply andb_true_iff in Hz' as [?%bool_decide_eq_true ?%bool_decide_eq_true].
    exfalso; auto. }
  destruct (hoppings L !! fam) as [family|] eqn:Hh.
  - destruct (decide (rows (s_energy from) = rows (f_energy family))) as [Hr|Hr];
      [destruct (decide (cols (s_energy to) = cols (f_energy family))) as [Hcl|Hcl]|].
    + rewrite (bool_decide_false (rows _ <> _)), (bool_decide_false (cols _ <> _)) by auto.
      simpl.
      assert (existsb (fun r : string * HoppingFamily =>
                 existsb (collides i (s_unique_id from) (s_unique_id to)) (terms r.2))
               (map_to_list (hoppings L)) = true) as ->
        by (apply duplicate_check_spec; eauto).
      exists HoppingDuplicate. repeat split; eauto.
    + rewrite (bool_decide_true (cols _ <> _)), orb_true_r by auto.
      eexists. repeat split; eauto; try done.
      intros (f' & Hs & _ & ?). injection Hs as <-. done.
    + rewrite (bool_decide_true (rows _ <> _)) by auto. simpl.
      eexists. repeat split; eauto; try done.
      intros (f' & Hs & ? & _). injection Hs as <-. done.
  - eexists. repeat split; eauto; try done.
    intros (f' & ? & _). done.
Qed.

(** In a lattice that satisfies the invariant, the stored terms and their
    conjugates pass the check of the zero index. *)
Lemma stored_term_not_zero from_sub to_sub L from to t :
  wf L ->
  sublattices L !! from_sub = Some from ->
  sublattices L !! to_sub = Some to ->
  t ∈ all_terms L ->
  (s_unique_id from = t_from t /\ s_unique_id to = t_to t)
  \/ (s_unique_id from = t_to t /\ s_unique_id to = t_from t) ->
  ~ (from_sub = to_sub /\ t_relative_index t = Index3D_Zero).
Proof.
  intros Hwf Hf Ht Hin Hids [-> Hi].
  assert (from = to) as -> by congruence.
  apply (wf_term_nonzero _ Hwf _ Hin).
  split; [done|]. destruct Hids as [[? ?]|[? ?]]; congruence.
Qed.

(** What a failing [add_hopping] with an energy leaves: the lattice as it
    was, or the lattice with one more family, under the synthesized name
    and with no term. *)
Lemma add_hopping_matrix_throw_state i from_sub to_sub e L x L' :
  add_hopping_matrix i from_sub to_sub e L = (Throw x, L') ->
  L' = L
  \/ (find (fun r : string * HoppingFamily => mat_eqb (f_energy r.2) e)
           (map_to_list (hoppings L)) = None
      /\ hoppings L !! ("__anonymous__" +:+ pretty (size (hoppings L))) = None
      /\ L' = set_hoppings
                (<["__anonymous__" +:+ pretty (size (hoppings L))
                   := mkHoppingFamily e (size (hoppings L)) []]> (hoppings L)) L).
Proof.
  rewrite add_hopping_matrix_unfold.
  destruct (find _ _) eqn:Hfind.
  - destruct (add_hopping_cases i from_sub to_sub p.1 L)
      as [(? & ? & ? & _ & _ & _ & _ & _ & ->)|(y & ->)]; [done|].
    intros [= _ <-]. by left.
  - cbn zeta.
    destruct (register_hopping_energy_cases
                ("__anonymous__" +:+ pretty (size (hoppings L))) e L)
      as [(_ & _ & Hn & ->)|(_ & y & ->)].
    + match goal with |- add_hopping _ _ _ ?n ?L1 = _ -> _ =>
        destruct (add_hopping_cases i from_sub to_sub n L1)
          as [(? & ? & ? & _ & _ & _ & _ & _ & ->)|(y & ->)]; [done|]
      end.
      intros [= _ <-]. right. done.
    + intros [= _ <-]. by left.
Qed.

(** C3: what the duplicate check makes of a stored term and of its
    conjugate.  In a lattice built by the member functions that holds a
    term (d, A, B):
    - an [add_hopping] of (d, A, B) never returns, whatever the family and
      whatever the comparison with the destroyed temporary answers; when a
      family name is given the lattice is as before and the error is the
      duplicate error exactly when the family is registered and its matrix
      has the rows of the source and the columns of the destination, and
      otherwise the error of the check that fails first;
    - an [add_hopping] of the conjugate (-d, B, A) into a family of the
      fitting shape is refused only where an exact match or the comparison
      with the destroyed temporary says so: where that comparison answers
      true for the stored term the call throws the duplicate error, and
      where it answers false for every stored term, and (-d, B, A) is not
      stored itself, the call returns and the conjugate is stored. *)
Theorem C3_conjugate_check_reads_destroyed_temporary (L : Lattice)
    (t : HoppingTerm) (from_sub to_sub fam : string) (from to : Sublattice)
    (e : MatrixXcd) :
  reachable L ->
  t ∈ all_terms L ->
  sublattices L !! from_sub = Some from ->
  sublattices L !! to_sub = Some to ->
  (s_unique_id from = t_from t -> s_unique_id to = t_to t ->
   (exists x,
       add_hopping (t_relative_index t) from_sub to_sub fam L = (Throw x, L)
       /\ (x = HoppingDuplicate <->
           exists family, hoppings L !! fam = Some family
                          /\ rows (s_energy from) = rows (f_energy family)
                          /\ cols (s_energy to) = cols (f_energy family))
       /\ (x = HoppingDuplicate \/ x = NoHoppingNamed fam
           \/ x = HoppingSizeMismatch from_sub to_sub fam))
   /\ is_Throw (add_hopping_matrix (t_relative_index t) from_sub to_sub e L).1 = true)
  /\ (s_unique_id from = t_to t -> s_unique_id to = t_from t ->
      forall family,
        hoppings L !! fam = Some family ->
        rows (s_energy from) = rows (f_energy family) ->
        cols (s_energy to) = cols (f_energy family) ->
        (conjugate_comparison (index_neg (t_relative_index t)) (t_to t) (t_from t) t
         = true ->
         add_hopping (index_neg (t_relative_index t)) from_sub to_sub fam L
         = (Throw HoppingDuplicate, L))
        /\ (mkHoppingTerm (index_neg (t_relative_index t)) (t_to t) (t_from t)
              ∉ all_terms L ->
            (forall h, h ∈ all_terms L ->
               conjugate_comparison (index_neg (t_relative_index t))
                 (t_to t) (t_from t) h = false) ->
            add_hopping (index_neg (t_relative_index t)) from_sub to_sub fam L
            = (Ok tt,
               set_hoppings
                 (<[fam := push_term
                             (mkHoppingTerm (index_neg (t_relative_index t))
                                (t_to t) (t_from t))
                             family]> (hoppings L)) L))).
Proof.
  intros Hwf%reachable_wf Hin Hf Ht. split.
  - intros Ha Hb.
    assert (collides (t_relative_index t) (s_unique_id from) (s_unique_id to) t = true)
      as Hc by (apply collides_spec; left; done).
    assert (~ (from_sub = to_sub /\ t_relative_index t = Index3D_Zero)) as Hz
      by (eapply stored_term_not_zero; eauto).
    split; [by eapply add_hopping_collision|].
    rewrite add_hopping_matrix_unfold.
    destruct (find _ _) as [it|].
    + destruct (add_hopping_collision (t_relative_index t) from_sub to_sub it.1 L from to t)
        as (x & -> & _); done.
    + cbn zeta.
      destruct (register_hopping_energy_cases
                  ("__anonymous__" +:+ pretty (size (hoppings L))) e L)
        as [(_ & _ & Hn & ->)|(_ & y & ->)]; [|done].
      match goal with |- is_Throw (add_hopping _ _ _ ?n ?L1).1 = true =>
        destruct (add_hopping_collision (t_relative_index t) from_sub to_sub n L1 from to t)
          as (x & -> & _); try done
      end.
      rewrite (all_terms_insert_fresh _ _ _ Hn). done.
  - intros Ha Hb family Hh Hr Hcl.
    assert (~ (from_sub = to_sub /\ t_relative_index t = Index3D_Zero)) as Hz
      by (eapply stored_term_not_zero; eauto).
    assert (add_hopping (index_neg (t_relative_index t)) from_sub to_sub fam L
            = if existsb (fun r : string * HoppingFamily =>
                            existsb (collides (index_neg (t_relative_index t))
                                       (t_to t) (t_from t)) (terms r.2))
                         (map_to_list (hoppings L))
              then (Throw HoppingDuplicate, L)
              else (Ok tt,
                    set_hoppings
                      (<[fam := push_term
                                  (mkHoppingTerm (index_neg (t_relative_index t))
                                     (t_to t) (t_from t))
                                  family]> (hoppings L)) L)) as ->.
    { rewrite add_hopping_eq, Hf, Ht, Hh, Ha, Hb.
      destruct (bool_decide (from_sub = to_sub)
                && bool_decide (index_neg (t_relative_index t) = Index3D_Zero)) eqn:Hz'.
      { apply andb_true_iff in Hz' as [?%bool_decide_eq_true Hi%bool_decide_eq_true].
        apply (proj1 (index_neg_zero _)) in Hi. exfalso; auto. }
      rewrite (bool_decide_false (rows _ <> _)), (bool_decide_false (cols _ <> _)) by auto.
      done. }
    split.
    + intros Hc.
      assert (existsb (fun r : string * HoppingFamily =>
                 existsb (collides (index_neg (t_relative_index t)) (t_to t) (t_from t))
                         (terms r.2))
               (map_to_list (hoppings L)) = true) as ->; [|done].
      apply duplicate_check_spec. exists t. split; [done|].
      apply collides_spec. by right.
    + intros Hnew Hfalse.
      destruct (existsb _ _) eqn:Hd; [|done]. exfalso.
      apply duplicate_check_spec in Hd as (h & Hh' & Hc).
      apply collides_spec in Hc as [(Hi & Hfrom & Hto)|Hc].
      * apply Hnew. destruct h as [hi hf ht]. simpl in *. by subst.
      * rewrite (Hfalse h Hh') in Hc. done.
Qed.

(** *** The offset *)

Lemma SFleb_not_SFltb (x y : float) : SFleb x y = true -> SFltb y x = false.
Proof.
  unfold SFleb, SFltb, SFcompare.
  destruct x as [sx|sx| |sx mx ex], y as [sy|sy| |sy my ey];
    try destruct sx; try destruct sy; try done.
  - change (Pos.compare_cont Eq mx my) with (Pos.compare mx my).
    change (Pos.compare_cont Eq my mx) with (Pos.compare my mx).
    rewrite (Z.compare_antisym ex ey), (Pos.compare_antisym mx my).
    destruct (ex ?= ey)%Z; simpl; try done. destruct (mx ?= my)%positive; done.
  - change (Pos.compare_cont Eq mx my) with (Pos.compare mx my).
    change (Pos.compare_cont Eq my mx) with (Pos.compare my mx).
    rewrite (Z.compare_antisym ex ey), (Pos.compare_antisym mx my).
    destruct (ex ?= ey)%Z; simpl; try done. destruct (mx ?= my)%positive; done.
Qed.

Lemma set_offset_eq position L :
  set_offset position L =
  if existsb (fun c => SFltb float_0_55 (SFabs c))
             (coeffs (translate_coordinates position L))
  then (Throw OffsetTooLarge, L)
  else (Ok tt, set_offset_field position L).
Proof. unfold set_offset, bind, get, throw, modify. cbn beta. by destruct (existsb _ _). Qed.

(** C7: with the fractional coordinates that [translate_coordinates]
    gives for the position, [set_offset] stores the position as the offset
    when the magnitude of each coordinate is at most the bound, and throws,
    leaving the lattice as it was, when the magnitude of one of them is
    above the bound.  The bound is the constant of the code, [0.55f]. *)
Theorem C7_set_offset_bound (position : Cartesian) (L : Lattice) :
  (Forall (fun c => SFleb (SFabs c) float_0_55 = true)
          (coeffs (translate_coordinates position L)) ->
     set_offset position L = (Ok tt, set_offset_field position L)
     /\ offset (set_offset position L).2 = position)
  /\ (Exists (fun c => SFltb float_0_55 (SFabs c) = true)
             (coeffs (translate_coordinates position L)) ->
     set_offset position L = (Throw OffsetTooLarge, L)
     /\ offset (set_offset position L).2 = offset L).
Proof.
  rewrite set_offset_eq. split.
  - intros Hall.
    assert (existsb (fun c => SFltb float_0_55 (SFabs c))
              (coeffs (translate_coordinates position L)) = false) as ->; [|done].
    apply not_true_is_false. intros (c & Hc & Hgt)%existsb_elem_of.
    rewrite Forall_forall in Hall. apply Hall, SFleb_not_SFltb in Hc. congruence.
  - intros (c & Hc & Hgt)%Exists_exists.
    assert (existsb (fun c => SFltb float_0_55 (SFabs c))
              (coeffs (translate_coordinates position L)) = true) as ->; [|done].
    apply existsb_elem_of. eauto.
Qed.

(** C10: [translate_coordinates] reads only the first [ndim] coefficients
    of the position, and the coordinates it returns are zero from index
    [ndim] on; so [set_offset] gives the same outcome for two positions
    that agree on the first [ndim] coefficients, and it throws exactly when
    the magnitude of one of the first [ndim] coordinates is above
    [0.55f]. *)
Theorem C10_only_spanned_components_count (position position' : Cartesian)
    (L : Lattice) :
  head (ndim L) position = head (ndim L) position' ->
  translate_coordinates position L = translate_coordinates position' L
  /\ (forall i, ndim L <= i -> i < 3 ->
        coeff (coeffs (translate_coordinates position L)) i = float_zero)
  /\ (set_offset position L).1 = (set_offset position' L).1
  /\ ((set_offset position L).1 = Throw OffsetTooLarge <->
      exists i, i < ndim L /\ i < 3
                /\ SFltb float_0_55
                     (SFabs (coeff (coeffs (translate_coordinates position L)) i))
                   = true).
Proof.
  intros Hh.
  assert (translate_coordinates position L = translate_coordinates position' L) as Heq.
  { unfold translate_coordinates. by rewrite Hh. }
  assert (forall i, ndim L <= i -> i < 3 ->
            coeff (coeffs (translate_coordinates position L)) i = float_zero) as Hzero.
  { intros i Hi Hi3. unfold translate_coordinates, assign_head. unfold ndim in Hi |- *.
    unfold coeff at 1. unfold coeffs at 1.
    destruct i as [|[|[|?]]]; cbn [nth vx vy vz]; try lia; (case_decide; [lia|done]). }
  split; [done|]. split; [done|]. split.
  - rewrite !set_offset_eq, Heq. by destruct (existsb _ _).
  - rewrite set_offset_eq.
    destruct (existsb _ _) eqn:Hex; simpl.
    + split; [|done]. intros _.
      apply existsb_elem_of in Hex as (c & Hc & Hgt).
      apply list_elem_of_lookup in Hc as (i & Hi).
      assert (i < 3) as Hi3 by (apply lookup_lt_Some in Hi; done).
      assert (coeff (coeffs (translate_coordinates position L)) i = c) as Hci.
      { unfold coeff. by apply nth_lookup_Some. }
      exists i. split; [|by rewrite Hci].
      destruct (decide (i < ndim L)); [done|].
      rewrite Hzero in Hci by lia. subst c. done.
    + split; [done|]. intros (i & Hi & Hi3 & Hgt).
      assert (existsb (fun c => SFltb float_0_55 (SFabs c))
                (coeffs (translate_coordinates position L)) = true); [|congruence].
      apply existsb_elem_of. eexists. split; [|exact Hgt].
      unfold coeff. apply list_elem_of_lookup. exists i.
      rewrite nth_lookup.
      destruct (coeffs (translate_coordinates position L) !! i) eqn:Hl; [done|].
      apply lookup_ge_None in Hl. simpl in Hl. lia.
Qed.

(** *** Derived lattices *)

Lemma fresh_address_None (st : gmap nat Lattice) : st !! fresh_address st = None.
Proof. apply not_elem_of_dom. unfold fresh_address. apply is_fresh. Qed.

Lemma with_offset_cases position L :
  (with_offset position L = Ok (set_offset_field position L)
   /\ set_offset position L = (Ok tt, set_offset_field position L))
  \/ (with_offset position L = Throw OffsetTooLarge
      /\ set_offset position L = (Throw OffsetTooLarge, L)).
Proof.
  unfold with_offset.
  destruct (set_offset_cases position L) as [-> | ->]; auto.
Qed.

(** A derivation leaves the store as it was but for the new object, and a
    later call on the new object does not reach the receiver. *)
Lemma invoke_derive_frame (f : Lattice -> result Lattice) this L
    (st st' : gmap nat Lattice) r :
  st !! this = Some L ->
  invoke_derive this f st = Some (r, st') ->
  st' !! this = Some L
  /\ forall a, r = Ok a ->
       a <> this /\ st !! a = None
       /\ (exists L', f L = Ok L' /\ st' = <[a := L']> st)
       /\ forall A (m : M A) r' st'',
            invoke a m st' = Some (r', st'') -> st'' !! this = Some L.
Proof.
  intros Hthis. unfold invoke_derive. rewrite Hthis.
  destruct (f L) as [L'|x] eqn:Hf; intros [= <- <-].
  - pose proof (fresh_address_None st) as Hfresh.
    assert (fresh_address st <> this) as Hne by (intros Heq; congruence).
    split; [by rewrite lookup_insert_ne|].
    intros a [= <-]. repeat split; eauto.
    intros A m r' st''. unfold invoke. rewrite lookup_insert_eq.
    destruct (m L') as [r1 L1]. intros [= _ <-].
    by rewrite !lookup_insert_ne.
  - split; [done|]. intros a [=].
Qed.

(** C8, as the code has it: [with_min_neighbors] returns a new lattice;
    [with_offset] returns a new lattice when [set_offset] accepts the
    position and throws the error of [set_offset] when it does not.  In
    each case the receiver is afterwards the lattice it was, registries and
    offset included, and no later call on the lattice returned changes
    it. *)
Theorem C8_derivation_leaves_receiver (st : gmap nat Lattice) (this : nat)
    (L : Lattice) (position : Cartesian) (number : Z) :
  st !! this = Some L ->
  (exists a,
      invoke_derive this (with_min_neighbors number) st
      = Some (Ok a, <[a := set_min_neighbors_field number L]> st)
      /\ a <> this /\ st !! a = None)
  /\ ((exists a,
          invoke_derive this (with_offset position) st
          = Some (Ok a, <[a := set_offset_field position L]> st)
          /\ a <> this /\ st !! a = None
          /\ (set_offset position L).1 = Ok tt)
      \/ (invoke_derive this (with_offset position) st
          = Some (Throw OffsetTooLarge, st)
          /\ (set_offset position L).1 = Throw OffsetTooLarge))
  /\ (forall f r st',
        f = with_offset position \/ f = with_min_neighbors number ->
        invoke_derive this f st = Some (r, st') ->
        st' !! this = Some L
        /\ forall a, r = Ok a ->
             forall A (m : M A) r' st'',
               invoke a m st' = Some (r', st'') -> st'' !! this = Some L).
Proof.
  intros Hthis.
  pose proof (fresh_address_None st) as Hfresh.
  assert (fresh_address st <> this) as Hne by (intros Heq; congruence).
  split; [|split].
  - exists (fresh_address st). unfold invoke_derive, with_min_neighbors.
    rewrite Hthis. done.
  - unfold invoke_derive. rewrite Hthis.
    destruct (with_offset_cases position L) as [[-> ->]|[-> ->]].
    + left. exists (fresh_address st). done.
    + right. done.
  - intros f r st' _ Hinv.
    destruct (invoke_derive_frame f this L st st' r Hthis Hinv) as [Hkeep Hnew].
    split; [done|]. intros a Ha. by destruct (Hnew a Ha) as (_ & _ & _ & ?).
Qed.

(** *** The optimized structure *)

Lemma at_index_lt i f (v : list Site) :
  i < length v -> at_index i f v = Some (alter f i v).
Proof. intros Hi. unfold at_index. by rewrite decide_True. Qed.

Lemma for_each_app {A S} (body : A -> S -> option S) l1 l2 s :
  for_each body (l1 ++ l2) s =
  match for_each body l1 s with
  | Some s' => for_each body l2 s'
  | None => None
  end.
Proof.
  revert s. induction l1 as [|x l1 IH]; intros s; simpl; [done|].
  destruct (body x s); [apply IH|done].
Qed.

Lemma for_each_flat_map {A B S} (body : B -> S -> option S) (g : A -> list B) l s :
  for_each (fun x => for_each body (g x)) l s = for_each body (flat_map g l) s.
Proof.
  revert s. induction l as [|x l IH]; intros s; simpl; [done|].
  rewrite for_each_app. destruct (for_each body (g x) s); [apply IH|done].
Qed.

Lemma write_term_push_entries f t os :
  write_term f t os = for_each push_entry (compiled_of_term f t) os.
Proof.
  unfold write_term, compiled_of_term, push_entry. simpl.
  destruct (at_index (t_from t) _ os); [|done].
  by destruct (at_index (t_to t) _ _).
Qed.

Lemma for_each_ext {A S} (body body' : A -> S -> option S) l s :
  (forall x s, body x s = body' x s) ->
  for_each body l s = for_each body' l s.
Proof.
  intros Hext. revert s. induction l as [|x l IH]; intros s; simpl; [done|].
  rewrite Hext. destruct (body' x s); [apply IH|done].
Qed.

(** The loop over the families appends the entries of
    [compiled_entries], in their order. *)
Lemma hopping_loop_push_entries L os :
  for_each (fun pair : string * HoppingFamily =>
              let hopping_family := pair.2 in
              for_each (write_term hopping_family) (terms hopping_family))
           (map_to_list (hoppings L)) os
  = for_each push_entry (compiled_entries L) os.
Proof.
  unfold compiled_entries. rewrite <- for_each_flat_map.
  apply for_each_ext. intros [name f] s. simpl.
  rewrite <- for_each_flat_map. apply for_each_ext. intros t s'.
  apply write_term_push_entries.
Qed.

Lemma entries_at_cons s e l :
  entries_at s (e :: l) = if decide (e.1 = s) then e.2 :: entries_at s l
                          else entries_at s l.
Proof. unfold entries_at. rewrite filter_cons. by case_decide. Qed.

Lemma push_entries_result entries :
  forall os,
    (forall e, e ∈ entries -> e.1 < length os) ->
    exists os',
      for_each push_entry entries os = Some os'
      /\ length os' = length os
      /\ forall s site, os !! s = Some site ->
           os' !! s = Some (mkSite (site_position site) (site_alias site)
                              (site_hoppings site ++ entries_at s entries)).
Proof.
  induction entries as [|e entries IH]; intros os Hb.
  - exists os. repeat split; try done.
    intros s [] Hs. unfold entries_at. simpl. by rewrite app_nil_r.
  - simpl. unfold push_entry at 1.
    rewrite at_index_lt by (apply Hb; left).
    destruct (IH (alter (push_hopping e.2) e.1 os)) as (os' & Hrun & Hlen & Hsites).
    { intros e' He'. rewrite length_alter. apply Hb. by right. }
    exists os'. split; [done|]. split; [by rewrite Hlen, length_alter|].
    intros s site Hs. rewrite entries_at_cons.
    destruct (decide (e.1 = s)) as [Heq|Hneq].
    + rewrite (Hsites s (push_hopping e.2 site)).
      * simpl. by rewrite <- app_assoc.
      * rewrite Heq, list_lookup_alter_eq, Hs. done.
    + apply Hsites. by rewrite list_lookup_alter_ne.
Qed.

(** The loop over the sublattices keeps the length of the array and the
    (empty) lists of hoppings. *)
Lemma sublattice_loop_result (l : list (string * Sublattice)) :
  forall os,
    (forall p, p ∈ l -> s_unique_id p.2 < length os) ->
    exists os',
      for_each write_sublattice l os = Some os'
      /\ length os' = length os
      /\ forall s site', os' !! s = Some site' ->
           exists site, os !! s = Some site
                        /\ site_hoppings site' = site_hoppings site.
Proof.
  induction l as [|p l IH]; intros os Hb.
  - exists os. eauto.
  - simpl. unfold write_sublattice at 1.
    rewrite at_index_lt by (apply Hb; left). cbv beta iota zeta.
    rewrite at_index_lt by (rewrite length_alter; apply Hb; left).
    destruct (IH (alter (set_site_alias (s_alias_id p.2)) (s_unique_id p.2)
                    (alter (set_site_position (s_position p.2)) (s_unique_id p.2) os)))
      as (os' & Hrun & Hlen & Hsites).
    { intros p' Hp'. rewrite !length_alter. apply Hb. by right. }
    exists os'. split; [done|]. split; [by rewrite Hlen, !length_alter|].
    intros s site' Hs. destruct (Hsites s site' Hs) as (site & Hl & Hh).
    destruct (decide (s_unique_id p.2 = s)) as [Heq|Hneq].
    + subst s. rewrite !list_lookup_alter_eq in Hl.
      destruct (os !! s_unique_id p.2) as [site0|]; simpl in Hl; [|done].
      injection Hl as <-. eauto.
    + rewrite !list_lookup_alter_ne in Hl by done. eauto.
Qed.

(** For a lattice that satisfies the invariant, [optimized_structure]
    stays within its array, which has one site per sublattice, and the
    hoppings of the site [s] are the entries that the spec attaches to
    [s]. *)
Lemma optimized_structure_refines L :
  wf L ->
  exists os,
    optimized_structure L = Some os
    /\ length os = nsub L
    /\ forall s site, os !! s = Some site ->
         site_hoppings site = entries_at s (compiled_entries L).
Proof.
  intros Hwf. unfold optimized_structure.
  destruct (sublattice_loop_result (map_to_list (sublattices L))
              (new_structure (nsub L))) as (os1 & -> & Hlen1 & Hs1).
  { intros [n s] Hp%elem_of_map_to_list. unfold new_structure.
    rewrite length_replicate. simpl. by eapply wf_sub_bound. }
  unfold new_structure in Hlen1. rewrite length_replicate in Hlen1.
  rewrite hopping_loop_push_entries.
  destruct (push_entries_result (compiled_entries L) os1) as (os & -> & Hlen & Hs).
  { intros e He. unfold compiled_entries in He.
    apply elem_of_flat_map in He as ([n f] & Hp & He).
    apply elem_of_flat_map in He as (t & Ht & He). simpl in *.
    assert (t ∈ all_terms L) as Hin.
    { apply elem_of_all_terms. apply elem_of_map_to_list in Hp. eauto. }
    apply (wf_term_ids _ Hwf) in Hin as [? ?].
    unfold compiled_of_term in He.
    rewrite Hlen1.
    apply elem_of_cons in He as [->|He]; [done|].
    apply list_elem_of_singleton in He as ->. done. }
  exists os. split; [done|]. split; [lia|].
  intros s site Hsite.
  assert (s < length os1) as Hlt by (apply lookup_lt_Some in Hsite; lia).
  apply lookup_lt_is_Some in Hlt as [site1 Hsite1].
  rewrite (Hs s site1 Hsite1) in Hsite. injection Hsite as <-. simpl.
  destruct (Hs1 s site1 Hsite1) as (site0 & Hl0 & ->).
  unfold new_structure in Hl0. apply lookup_replicate in Hl0 as [-> _]. done.
Qed.

(** *** Counting compiled hoppings *)

Lemma multiplicity_entries_at h s (l : list (nat * Hopping)) :
  multiplicity h (entries_at s l) = length (filter (fun e => e = (s, h)) l).
Proof.
  unfold multiplicity. induction l as [|[s' h'] l IH]; [done|].
  rewrite entries_at_cons, (filter_cons (fun e => e = (s, h))). simpl.
  destruct (decide (s' = s)) as [->|Hs].
  - rewrite filter_cons. destruct (decide (h' = h)) as [->|Hh].
    + rewrite decide_True by done. simpl. by rewrite IH.
    + rewrite decide_False by congruence. done.
  - rewrite decide_False by congruence. done.
Qed.

Lemma length_filter_flat_map_le {A B C} (P : B -> Prop) `{!forall x, Decision (P x)}
    (Q : C -> Prop) `{!forall x, Decision (Q x)}
    (g : A -> list B) (h : A -> list C) (l : list A) :
  (forall y, y ∈ l -> length (filter P (g y)) <= length (filter Q (h y))) ->
  length (filter P (flat_map g l)) <= length (filter Q (flat_map h l)).
Proof.
  induction l as [|y l IH]; intros Hle; simpl; [done|].
  rewrite !filter_app, !length_app.
  pose proof (Hle y (list_elem_of_here _ _)).
  assert (length (filter P (flat_map g l)) <= length (filter Q (flat_map h l))).
  { apply IH. intros y' Hy'. apply Hle. by right. }
  lia.
Qed.

Lemma length_filter_flat_map_le1 {A B} (P : B -> Prop) `{!forall x, Decision (P x)}
    (Q : A -> Prop) `{!forall x, Decision (Q x)} (g : A -> list B) (l : list A) :
  (forall y, y ∈ l -> length (filter P (g y)) <= if decide (Q y) then 1 else 0) ->
  length (filter P (flat_map g l)) <= length (filter Q l).
Proof.
  induction l as [|y l IH]; intros Hle; simpl; [done|].
  rewrite filter_app, length_app, (filter_cons Q).
  pose proof (Hle y (list_elem_of_here _ _)).
  assert (length (filter P (flat_map g l)) <= length (filter Q l)).
  { apply IH. intros y' Hy'. apply Hle. by right. }
  destruct (decide (Q y)); simpl; lia.
Qed.

Lemma NoDup_filter_eq_le {A} `{EqDecision A} (x : A) (l : list A) :
  NoDup l -> length (filter (fun y => y = x) l) <= 1.
Proof.
  induction 1 as [|y l Hy Hnd IH]; [simpl; lia|].
  rewrite filter_cons. destruct (decide (y = x)) as [->|]; [|done].
  simpl. destruct (filter (fun y => y = x) l) as [|z ?] eqn:Hf; [simpl; lia|].
  assert (z ∈ filter (fun y => y = x) l) as Hz by (rewrite Hf; left).
  apply list_elem_of_filter in Hz as [-> Hz]. done.
Qed.

Lemma elem_of_filter_length {A} (P : A -> Prop) `{!forall x, Decision (P x)}
    (x : A) (l : list A) :
  x ∈ l -> P x -> 1 <= length (filter P l).
Proof.
  intros Hx HP.
  assert (x ∈ filter P l) as Hf by (by apply list_elem_of_filter).
  destruct (filter P l); [by apply elem_of_nil in Hf|simpl; lia].
Qed.

Lemma elem_of_compiled_entries L fam f t e :
  hoppings L !! fam = Some f -> t ∈ terms f -> e ∈ compiled_of_term f t ->
  e ∈ compiled_entries L.
Proof.
  intros Hf Ht He. unfold compiled_entries.
  apply elem_of_flat_map. exists (fam, f). split; [by apply elem_of_map_to_list|].
  apply elem_of_flat_map. eauto.
Qed.

(** An entry of the form that the spec derives from [t] occurs in the
    compiled entries of the lattice as many times as [t] occurs among the
    terms, at most. *)
Lemma compiled_entries_le_terms L (e : nat * Hopping) (t : HoppingTerm) :
  (forall f' t', length (filter (fun e' => e' = e) (compiled_of_term f' t'))
                 <= if decide (t' = t) then 1 else 0) ->
  length (filter (fun e' => e' = e) (compiled_entries L))
  <= length (filter (fun t' => t' = t) (all_terms L)).
Proof.
  intros Hle. unfold compiled_entries, all_terms.
  apply length_filter_flat_map_le. intros p _.
  apply length_filter_flat_map_le1. intros t' _. apply Hle.
Qed.

Lemma forward_entry_once L fam f t :
  wf L -> hoppings L !! fam = Some f -> t ∈ terms f ->
  length (filter (fun e => e = (t_from t, compiled_forward f t)) (compiled_entries L)) = 1.
Proof.
  intros Hwf Hf Ht. apply Nat.le_antisymm.
  - etrans; [apply (compiled_entries_le_terms L _ t)|].
    + intros f' t'. unfold compiled_of_term. rewrite !filter_cons, filter_nil.
      destruct (decide (t' = t)) as [->|Hne].
      * rewrite (decide_False (P := (_, compiled_conjugate _ _) = _)) by (intros [=]).
        case_decide; simpl; lia.
      * rewrite (decide_False (P := (_, compiled_conjugate _ _) = _)) by (intros [=]).
        rewrite decide_False; [simpl; lia|].
        intros [= H1 H2 H3 H4]. destruct t, t'. simpl in *. subst. done.
    + apply NoDup_filter_eq_le. by apply wf_term_NoDup.
  - eapply elem_of_filter_length; [|done].
    eapply elem_of_compiled_entries; eauto. left.
Qed.

Lemma conjugate_entry_once L fam f t :
  wf L -> hoppings L !! fam = Some f -> t ∈ terms f ->
  length (filter (fun e => e = (t_to t, compiled_conjugate f t)) (compiled_entries L)) = 1.
Proof.
  intros Hwf Hf Ht. apply Nat.le_antisymm.
  - etrans; [apply (compiled_entries_le_terms L _ t)|].
    + intros f' t'. unfold compiled_of_term. rewrite !filter_cons, filter_nil.
      destruct (decide (t' = t)) as [->|Hne].
      * rewrite (decide_False (P := (_, compiled_forward _ _) = _)) by (intros [=]).
        case_decide; simpl; lia.
      * rewrite (decide_False (P := (_, compiled_forward _ _) = _)) by (intros [=]).
        rewrite decide_False; [simpl; lia|].
        intros Heq. apply Hne.
        destruct t as [[x y z] a b], t' as [[x' y' z'] a' b'].
        unfold compiled_conjugate, index_neg in Heq. simpl in Heq.
        injection Heq as -> Hx Hy Hz -> _.
        f_equal. f_equal; lia.
    + apply NoDup_filter_eq_le. by apply wf_term_NoDup.
  - eapply elem_of_filter_length; [|done].
    eapply elem_of_compiled_entries; eauto. right. left.
Qed.

Lemma list_sum_indicator (g : nat -> nat) (i a n : nat) :
  a <= i < a + n ->
  list_sum (map (fun s => (if decide (i = s) then 1 else 0) + g s) (seq a n))
  = 1 + list_sum (map g (seq a n)).
Proof.
  revert a. induction n as [|n IH]; intros a Hi; [lia|].
  simpl. destruct (decide (i = a)) as [->|Hne].
  - assert (list_sum (map (fun s => (if decide (a = s) then 1 else 0) + g s)
                          (seq (S a) n))
            = list_sum (map g (seq (S a) n))) as ->; [|lia].
    f_equal. apply map_ext_in. intros s Hs%in_seq.
    rewrite decide_False by lia. done.
  - rewrite IH by lia. lia.
Qed.

Lemma entries_per_site_total (n : nat) (l : list (nat * Hopping)) :
  (forall e, e ∈ l -> e.1 < n) ->
  list_sum (map (fun s => length (entries_at s l)) (seq 0 n)) = length l.
Proof.
  induction l as [|e l IH]; intros Hb.
  - simpl. induction (seq 0 n) as [|? ? IHs]; [done|]. simpl. by rewrite IHs.
  - assert (map (fun s => length (entries_at s (e :: l))) (seq 0 n)
            = map (fun s => (if decide (e.1 = s) then 1 else 0)
                            + length (entries_at s l)) (seq 0 n)) as ->.
    { apply map_ext. intros s. rewrite entries_at_cons. by case_decide. }
    rewrite list_sum_indicator by (pose proof (Hb e (list_elem_of_here _ _)); lia).
    rewrite IH; [done|]. intros e' He'. apply Hb. by right.
Qed.

Lemma map_by_index {A B} (f : A -> B) (g : nat -> B) (l : list A) (a : nat) :
  (forall s x, l !! s = Some x -> f x = g (a + s)) ->
  map f l = map g (seq a (length l)).
Proof.
  revert a. induction l as [|x l IH]; intros a Hfg; [done|].
  simpl. f_equal.
  - rewrite (Hfg 0 x); [f_equal; lia|done].
  - apply IH. intros s y Hs. rewrite (Hfg (S s) y); [f_equal; lia|done].
Qed.

Lemma length_compiled_entries L :
  length (compiled_entries L) = 2 * length (all_terms L).
Proof.
  unfold compiled_entries, all_terms.
  induction (map_to_list (hoppings L)) as [|p l IH]; [done|].
  simpl. rewrite !length_app, IH.
  assert (length (flat_map (compiled_of_term p.2) (terms p.2))
          = 2 * length (terms p.2)) as ->; [|lia].
  induction (terms p.2) as [|t ts IHt]; [done|]. simpl in *. lia.
Qed.

(** C2: for a lattice built by the member functions and a term
    t = (d, A, B) of a family F of it, [optimized_structure] returns an
    array with one site per sublattice in which the hoppings of each site s
    are the compiled hoppings that the terms give for s, two per term:
    (d, B, F, false) at the site A and (-d, A, F, true) at the site B.
    The first occurs once among the hoppings of the site A and the second
    once among those of the site B, and the array holds twice as many
    compiled hoppings as the lattice has terms. *)
Theorem C2_two_compiled_hoppings_per_term (L : Lattice) (fam : string)
    (f : HoppingFamily) (t : HoppingTerm) :
  reachable L ->
  hoppings L !! fam = Some f ->
  t ∈ terms f ->
  exists os,
    optimized_structure L = Some os
    /\ length os = nsub L
    /\ (forall s site, os !! s = Some site ->
          site_hoppings site = entries_at s (compiled_entries L))
    /\ compiled_of_term f t
       = [(t_from t, mkHopping (t_relative_index t) (t_to t) (f_unique_id f) false);
          (t_to t, mkHopping (index_neg (t_relative_index t)) (t_from t)
                     (f_unique_id f) true)]
    /\ (exists site, os !! t_from t = Some site
          /\ multiplicity
               (mkHopping (t_relative_index t) (t_to t) (f_unique_id f) false)
               (site_hoppings site) = 1)
    /\ (exists site, os !! t_to t = Some site
          /\ multiplicity
               (mkHopping (index_neg (t_relative_index t)) (t_from t)
                  (f_unique_id f) true)
               (site_hoppings site) = 1)
    /\ list_sum (map (fun site => length (site_hoppings site)) os)
       = 2 * length (all_terms L).
Proof.
  intros Hwf%reachable_wf Hf Ht.
  destruct (optimized_structure_refines L Hwf) as (os & Hos & Hlen & Hsites).
  assert (t ∈ all_terms L) as Hin by (apply elem_of_all_terms; eauto).
  destruct (wf_term_ids _ Hwf t Hin) as [Hfrom Hto].
  exists os. repeat split; try done.
  - rewrite <- Hlen in Hfrom. apply lookup_lt_is_Some in Hfrom as [site Hsite].
    exists site. split; [done|]. rewrite (Hsites _ _ Hsite).
    rewrite multiplicity_entries_at. by eapply forward_entry_once.
  - rewrite <- Hlen in Hto. apply lookup_lt_is_Some in Hto as [site Hsite].
    exists site. split; [done|]. rewrite (Hsites _ _ Hsite).
    rewrite multiplicity_entries_at. by eapply conjugate_entry_once.
  - rewrite <- length_compiled_entries.
    rewrite (map_by_index _ (fun s => length (entries_at s (compiled_entries L))) os 0).
    + rewrite Hlen. apply entries_per_site_total.
      intros e He. unfold compiled_entries in He.
      apply elem_of_flat_map in He as ([n f'] & Hp & He).
      apply elem_of_flat_map in He as (t' & Ht' & He). simpl in *.
      assert (t' ∈ all_terms L) as Hin'.
      { apply elem_of_all_terms. apply elem_of_map_to_list in Hp. eauto. }
      apply (wf_term_ids _ Hwf) in Hin' as [? ?].
      apply elem_of_cons in He as [->|He]; [done|].
      apply list_elem_of_singleton in He as ->. done.
    + intros s site Hs. simpl. by rewrite (Hsites _ _ Hs).
Qed.

End Properties.

(** ** Properties of the registries and of the queries *)

Section MoreProperties.
Context {E : Eigen} {D : LatticeDecl} {U : DestroyedTemporary}
        {Q : EigenQueries} {FA : FloatArith} {IT : IntegerTypes}.

Implicit Types (L : Lattice) (name : string).

(** *** Successful calls *)

Lemma add_sublattice_Ok name position e L L' :
  add_sublattice name position e L = (Ok tt, L') ->
  name <> EmptyString /\ nsub L <= sub_id_max /\ sublattices L !! name = None
  /\ L' = set_sublattices
            (<[name := mkSublattice position e (nsub L) (nsub L)]> (sublattices L)) L.
Proof.
  rewrite add_sublattice_eq. case_decide; [done|].
  destruct (negb (diagonal_imag_isZero e)); [done|].
  destruct (negb (isUpperTriangular e) && negb (mat_eqb e (adjoint e))); [done|].
  destruct (register_sublattice_cases name L)
    as [(Hne & Hcap & Hn & ->)|(_ & x & ->)]; [|done].
  intros [= <-]. done.
Qed.

Lemma add_alias_Ok alias_name original_name position L L' :
  add_alias alias_name original_name position L = (Ok tt, L') ->
  exists original,
    sublattices L !! original_name = Some original
    /\ alias_name <> EmptyString /\ nsub L <= sub_id_max
    /\ sublattices L !! alias_name = None
    /\ L' = set_sublattices
              (<[alias_name := mkSublattice position (s_energy original) (nsub L)
                                 (s_unique_id original)]> (sublattices L)) L.
Proof.
  unfold add_alias, bind, call_const, sublattice.
  destruct (sublattices L !! original_name) as [original|] eqn:Hl; [|done].
  destruct (register_sublattice_cases alias_name L)
    as [(Hne & Hcap & Hn & ->)|(_ & x & ->)]; [|done].
  intros [= <-]. eauto 10.
Qed.

Lemma register_hopping_energy_Ok name e L L' :
  register_hopping_energy name e L = (Ok tt, L') ->
  name <> EmptyString /\ size (hoppings L) <= hop_id_max
  /\ hoppings L !! name = None
  /\ L' = set_hoppings
            (<[name := mkHoppingFamily e (size (hoppings L)) []]> (hoppings L)) L.
Proof.
  destruct (register_hopping_energy_cases name e L)
    as [(Hne & Hcap & Hn & ->)|(_ & x & ->)]; [|done].
  intros [= <-]. done.
Qed.

Lemma add_hopping_Ok i from_sub to_sub fam L L' :
  add_hopping i from_sub to_sub fam L = (Ok tt, L') ->
  exists from to family,
    sublattices L !! from_sub = Some from
    /\ sublattices L !! to_sub = Some to
    /\ hoppings L !! fam = Some family
    /\ ~ (from_sub = to_sub /\ i = Index3D_Zero)
    /\ rows (s_energy from) = rows (f_energy family)
    /\ cols (s_energy to) = cols (f_energy family)
    /\ (forall t, t ∈ all_terms L ->
          collides i (s_unique_id from) (s_unique_id to) t = false)
    /\ L' = set_hoppings
              (<[fam := push_term
                          (mkHoppingTerm i (s_unique_id from) (s_unique_id to))
                          family]> (hoppings L)) L.
Proof.
  rewrite add_hopping_eq.
  destruct (bool_decide (from_sub = to_sub) && bool_decide (i = Index3D_Zero)) eqn:Hz;
    [done|].
  destruct (sublattices L !! from_sub) as [from|] eqn:Hf; [|done].
  destruct (sublattices L !! to_sub) as [to|] eqn:Ht; [|done].
  destruct (hoppings L !! fam) as [family|] eqn:Hh; [|done].
  destruct (bool_decide (rows (s_energy from) <> rows (f_energy family))) eqn:Hr;
    [done|].
  destruct (bool_decide (cols (s_energy to) <> cols (f_energy family))) eqn:Hc;
    [done|].
  simpl. destruct (existsb _ _) eqn:Hd; [done|].
  intros [= <-]. exists from, to, family.
  apply bool_decide_eq_false in Hr, Hc.
  repeat split; try done.
  - intros [-> ->]. rewrite !bool_decide_true in Hz; done.
  - by destruct (decide (rows (s_energy from) = rows (f_energy family))).
  - by destruct (decide (cols (s_energy to) = cols (f_energy family))).
  - intros t Ht'. destruct (collides _ _ _ t) eqn:Hcol; [|done].
    assert (existsb (fun r : string * HoppingFamily =>
               existsb (collides i (s_unique_id from) (s_unique_id to)) (terms r.2))
             (map_to_list (hoppings L)) = true) as Hd'
      by (apply duplicate_check_spec; eauto).
    congruence.
Qed.

(** *** The registries only grow *)

Lemma family_extends_refl (f : HoppingFamily) : family_extends f f.
Proof. by repeat split. Qed.

Lemma extends_refl L : extends L L.
Proof. split; eauto using family_extends_refl. Qed.

Lemma extends_trans L1 L2 L3 : extends L1 L2 -> extends L2 L3 -> extends L1 L3.
Proof.
  intros [Hv1 Hm1 Hs1 Hh1] [Hv2 Hm2 Hs2 Hh2]. split; try congruence; eauto.
  intros name f Hf. destruct (Hh1 _ _ Hf) as (f' & Hf' & He1 & Hi1 & Hp1).
  destruct (Hh2 _ _ Hf') as (f'' & Hf'' & He2 & Hi2 & Hp2).
  exists f''. split; [done|]. repeat split; try congruence. by etrans.
Qed.

Lemma extends_insert_sublattice name s L :
  sublattices L !! name = None ->
  extends L (set_sublattices (<[name := s]> (sublattices L)) L).
Proof.
  intros Hn. split; simpl; eauto using family_extends_refl.
  intros n' s' Hs'. rewrite lookup_insert_ne; [done|]. intros ->. congruence.
Qed.

Lemma extends_insert_family name f L :
  hoppings L !! name = None ->
  extends L (set_hoppings (<[name := f]> (hoppings L)) L).
Proof.
  intros Hn. split; simpl; eauto.
  intros n' f' Hf'. exists f'. split; [|apply family_extends_refl].
  rewrite lookup_insert_ne; [done|]. intros ->. congruence.
Qed.

Lemma extends_push_term fam family t L :
  hoppings L !! fam = Some family ->
  extends L (set_hoppings (<[fam := push_term t family]> (hoppings L)) L).
Proof.
  intros Hf. split; simpl; eauto.
  intros n' f' Hf'. destruct (decide (fam = n')) as [<-|Hne].
  - exists (push_term t family). rewrite lookup_insert_eq. split; [done|].
    assert (f' = family) as -> by congruence.
    repeat split. simpl. by apply prefix_app_r.
  - exists f'. rewrite lookup_insert_ne by done. split; [done|].
    apply family_extends_refl.
Qed.

Lemma extends_set_offset_field p L : extends L (set_offset_field p L).
Proof. split; simpl; eauto using family_extends_refl. Qed.

Lemma extends_add_hopping i from_sub to_sub fam L :
  extends L (add_hopping i from_sub to_sub fam L).2.
Proof.
  destruct (add_hopping_cases i from_sub to_sub fam L)
    as [(from & to & family & _ & _ & Hh & _ & _ & ->)|(x & ->)];
    [|apply extends_refl].
  by apply extends_push_term.
Qed.

Lemma extends_run c L : extends L (run c L).2.
Proof.
  assert (forall n p e, extends L (add_sublattice n p e L).2) as Hadd.
  { intros n p e. destruct (add_sublattice_cases n p e L) as [(Hn & ->)|(x & ->)];
      [by apply extends_insert_sublattice|apply extends_refl]. }
  assert (forall n e, extends L (register_hopping_energy n e L).2) as Hreg.
  { intros n e. destruct (register_hopping_energy_cases n e L)
      as [(_ & _ & Hn & ->)|(_ & x & ->)];
      [by apply extends_insert_family|apply extends_refl]. }
  assert (forall i a b e, extends L (add_hopping_matrix i a b e L).2) as Hmat.
  { intros i a b e. rewrite add_hopping_matrix_unfold.
    destruct (find _ _); [apply extends_add_hopping|]. cbn zeta.
    pose proof (Hreg ("__anonymous__" +:+ pretty (size (hoppings L))) e) as Hr.
    destruct (register_hopping_energy _ e L) as [[[]|x] L1]; simpl in *; [|done].
    eapply extends_trans; [exact Hr|apply extends_add_hopping]. }
  destruct c; simpl;
    unfold add_sublattice_scalar, add_sublattice_vector,
           register_hopping_energy_scalar, add_hopping_scalar; auto.
  - destruct (add_alias_cases alias_name original_name position L)
      as [(o & _ & Hn & ->)|(x & ->)];
      [by apply extends_insert_sublattice|apply extends_refl].
  - apply extends_add_hopping.
  - destruct (set_offset_cases position L) as [-> | ->];
      [apply extends_set_offset_field|apply extends_refl].
Qed.

Lemma extends_run_all cs L : extends L (run_all cs L).
Proof.
  revert L. induction cs as [|c cs IH]; intros L; [apply extends_refl|].
  simpl. eapply extends_trans; [apply extends_run|apply IH].
Qed.

(** X1: whatever the calls and whether they return or throw, the lattice
    they leave has the primitive vectors and the [min_neighbors] it had,
    every sublattice it had with the same record, and every family it had
    with the same energy and identifier and with its terms in front of the
    terms added since. *)
Theorem X1_registries_only_grow (cs : list Call) (L : Lattice) :
  vectors (run_all cs L) = vectors L
  /\ min_neighbors (run_all cs L) = min_neighbors L
  /\ (forall name s,
        sublattices L !! name = Some s ->
        sublattices (run_all cs L) !! name = Some s)
  /\ (forall name f,
        hoppings L !! name = Some f ->
        exists f',
          hoppings (run_all cs L) !! name = Some f'
          /\ f_energy f' = f_energy f
          /\ f_unique_id f' = f_unique_id f
          /\ terms f `prefix_of` terms f').
Proof. by destruct (extends_run_all cs L). Qed.

(** *** More of the invariant of the registries *)

Lemma wff_ctor a1 a2 a3 : wf_families (Lattice_ctor a1 a2 a3).
Proof.
  unfold Lattice_ctor. split; simpl.
  - unfold nsub; simpl. rewrite map_size_empty. lia.
  - rewrite map_size_empty. lia.
  - rewrite map_size_empty. lia.
  - intros ? ?. rewrite lookup_empty. done.
  - intros ? ? ? ?. rewrite lookup_empty. done.
  - intros ? ? ?. rewrite lookup_empty. done.
Qed.

Lemma wff_insert_sublattice name s L :
  wf_families L -> sublattices L !! name = None -> nsub L <= sub_id_max ->
  wf_families (set_sublattices (<[name := s]> (sublattices L)) L).
Proof.
  intros [Hsc Hhc Hdense Hbound Hinj Hshape] Hn Hcap.
  split; simpl; try done.
  - unfold nsub. simpl. rewrite map_size_insert_None by done. unfold nsub in Hcap. lia.
  - intros n f t Hf Ht.
    destruct (Hshape n f t Hf Ht) as (nf & sf & nt & st & H1 & H2 & H3 & H4 & H5 & H6).
    exists nf, sf, nt, st. repeat split; try done.
    + rewrite lookup_insert_ne; [done|]. intros ->. congruence.
    + rewrite lookup_insert_ne; [done|]. intros ->. congruence.
Qed.

Lemma wff_insert_family name e L :
  wf_families L -> hoppings L !! name = None -> size (hoppings L) <= hop_id_max ->
  wf_families
    (set_hoppings
       (<[name := mkHoppingFamily e (size (hoppings L)) []]> (hoppings L)) L).
Proof.
  intros [Hsc Hhc Hdense Hbound Hinj Hshape] Hn Hcap.
  pose proof (all_terms_insert_fresh name
                (mkHoppingFamily e (size (hoppings L)) []) L Hn) as Hp.
  simpl in Hp.
  split; simpl; try done.
  - rewrite map_size_insert_None by done. lia.
  - rewrite map_size_insert_None by done. intros i Hi.
    destruct (decide (i = size (hoppings L))) as [->|Hne].
    + eexists name, _. by rewrite lookup_insert_eq.
    + destruct (Hdense i) as (n & f & Hl & Hid); [lia|].
      exists n, f. split; [|done]. rewrite lookup_insert_ne; [done|].
      intros ->. congruence.
  - rewrite map_size_insert_None by done.
    intros n f. rewrite lookup_insert. case_decide.
    + intros [= <-]. simpl. lia.
    + intros Hl. apply Hbound in Hl. lia.
  - intros n1 n2 f1 f2. rewrite !lookup_insert.
    repeat case_decide; subst; try done.
    + intros [= <-] Hl Hid. apply Hbound in Hl. simpl in Hid. lia.
    + intros Hl [= <-] Hid. apply Hbound in Hl. simpl in Hid. lia.
    + apply Hinj.
  - intros n f t. rewrite lookup_insert. case_decide.
    + intros [= <-]. simpl. by intros ?%elem_of_nil.
    + apply Hshape.
Qed.

(** What a family of the registry is after a term went to the end of the
    family [fam]. *)
Lemma lookup_push_term fam family t (m : gmap string HoppingFamily) n f' :
  m !! fam = Some family ->
  <[fam := push_term t family]> m !! n = Some f' ->
  exists f, m !! n = Some f
            /\ f_unique_id f' = f_unique_id f /\ f_energy f' = f_energy f
            /\ (terms f' = terms f \/ (n = fam /\ terms f' = terms f ++ [t])).
Proof.
  intros Hf. rewrite lookup_insert. case_decide as Hn.
  - subst n. intros [= <-]. exists family. simpl. eauto 10.
  - intros Hl. exists f'. eauto 10.
Qed.

Lemma wff_push_term fam family i from_sub to_sub from to L :
  wf L -> wf_families L ->
  hoppings L !! fam = Some family ->
  sublattices L !! from_sub = Some from ->
  sublattices L !! to_sub = Some to ->
  ~ (from_sub = to_sub /\ i = Index3D_Zero) ->
  rows (s_energy from) = rows (f_energy family) ->
  cols (s_energy to) = cols (f_energy family) ->
  (forall t, t ∈ all_terms L ->
     collides i (s_unique_id from) (s_unique_id to) t = false) ->
  wf_families
    (set_hoppings
       (<[fam := push_term (mkHoppingTerm i (s_unique_id from) (s_unique_id to))
                   family]> (hoppings L)) L).
Proof.
  intros Hwf [Hsc Hhc Hdense Hbound Hinj Hshape] Hh Hf Ht Hz Hr Hc Hcol.
  set (t0 := mkHoppingTerm i (s_unique_id from) (s_unique_id to)).
  pose proof (all_terms_push fam family t0 L Hh) as Hp.
  assert (size (<[fam := push_term t0 family]> (hoppings L)) = size (hoppings L))
    as Hsz by (by eapply map_size_insert_Some).
  split; simpl; rewrite ?Hsz; try done.
  - intros j Hj. destruct (Hdense j Hj) as (n & f & Hl & Hid).
    destruct (decide (n = fam)) as [->|Hne].
    + exists fam, (push_term t0 family). rewrite lookup_insert_eq.
      split; [done|]. simpl. congruence.
    + exists n, f. by rewrite lookup_insert_ne.
  - intros n f' Hl.
    destruct (lookup_push_term _ _ _ _ _ _ Hh Hl) as (f & Hl0 & -> & _). eauto.
  - intros n1 n2 f1 f2 Hl1 Hl2.
    destruct (lookup_push_term _ _ _ _ _ _ Hh Hl1) as (g1 & Hg1 & -> & _).
    destruct (lookup_push_term _ _ _ _ _ _ Hh Hl2) as (g2 & Hg2 & -> & _).
    eauto.
  - intros n f' t Hl Hin.
    destruct (lookup_push_term _ _ _ _ _ _ Hh Hl) as (f & Hl0 & _ & -> & Hterms).
    assert (t ∈ terms f \/ (n = fam /\ t = t0)) as [Hold|[-> ->]].
    { destruct Hterms as [Heq|[-> Heq]]; rewrite Heq in Hin; [by left|].
      apply elem_of_app in Hin as [?|?%list_elem_of_singleton]; auto. }
    + by eapply Hshape.
    + assert (f = family) as -> by congruence.
      exists from_sub, from, to_sub, to. done.
Qed.

Lemma wff_set_offset_field p L : wf_families L -> wf_families (set_offset_field p L).
Proof. intros []. split; done. Qed.

Lemma wff_set_min_neighbors_field n L :
  wf_families L -> wf_families (set_min_neighbors_field n L).
Proof. intros []. split; done. Qed.

Lemma wff_add_hopping i from_sub to_sub fam L :
  wf L -> wf_families L -> wf_families (add_hopping i from_sub to_sub fam L).2.
Proof.
  intros Hwf Hwff.
  destruct (add_hopping i from_sub to_sub fam L) as [[[]|x] L'] eqn:Hrun.
  - apply add_hopping_Ok in Hrun
      as (from & to & family & Hf & Ht & Hh & Hz & Hr & Hc & Hcol & ->).
    simpl. eapply wff_push_term; eauto.
  - destruct (add_hopping_cases i from_sub to_sub fam L)
      as [(? & ? & ? & _ & _ & _ & _ & _ & Heq)|(y & Heq)];
      rewrite Heq in Hrun; [done|]. by injection Hrun as _ <-.
Qed.

Lemma wff_register_hopping_energy name e L :
  wf_families L -> wf_families (register_hopping_energy name e L).2.
Proof.
  intros Hwff. destruct (register_hopping_energy_cases name e L)
    as [(_ & Hcap & Hn & ->)|(_ & x & ->)]; [|done].
  simpl. by apply wff_insert_family.
Qed.

Lemma wff_run c L : wf L -> wf_families L -> wf_families (run c L).2.
Proof.
  intros Hwf Hwff.
  assert (forall n p e, wf_families (add_sublattice n p e L).2) as Hadd.
  { intros n p e. destruct (add_sublattice n p e L) as [[[]|x] L'] eqn:Hrun.
    - apply add_sublattice_Ok in Hrun as (_ & Hcap & Hn & ->).
      simpl. by apply wff_insert_sublattice.
    - destruct (add_sublattice_cases n p e L) as [(_ & Heq)|(y & Heq)];
        rewrite Heq in Hrun; [done|]. by injection Hrun as _ <-. }
  assert (forall i a b e, wf_families (add_hopping_matrix i a b e L).2) as Hmat.
  { intros i a b e. rewrite add_hopping_matrix_unfold.
    destruct (find _ _); [by apply wff_add_hopping|]. cbn zeta.
    pose proof (wff_register_hopping_energy
                  ("__anonymous__" +:+ pretty (size (hoppings L))) e L Hwff) as Hr.
    pose proof (wf_register_hopping_energy
                  ("__anonymous__" +:+ pretty (size (hoppings L))) e L Hwf) as Hr'.
    destruct (register_hopping_energy _ e L) as [[[]|x] L1]; simpl in *; [|done].
    by apply wff_add_hopping. }
  destruct c; simpl;
    unfold add_sublattice_scalar, add_sublattice_vector,
           register_hopping_energy_scalar, add_hopping_scalar;
    auto using wff_register_hopping_energy, wff_add_hopping.
  - destruct (add_alias alias_name original_name position L) as [[[]|x] L'] eqn:Hrun.
    + apply add_alias_Ok in Hrun as (o & _ & _ & Hcap & Hn & ->).
      simpl. by apply wff_insert_sublattice.
    + destruct (add_alias_cases alias_name original_name position L)
        as [(? & _ & _ & Heq)|(y & Heq)]; rewrite Heq in Hrun; [done|].
      by injection Hrun as _ <-.
  - destruct (set_offset_cases position L) as [-> | ->];
      [by apply wff_set_offset_field|done].
Qed.

Lemma reachable_wf_families L : reachable L -> wf_families L.
Proof.
  induction 1 as [a1 a2 a3|L c HL IH|L p L' HL IH Hw|L n L' HL IH Hw].
  - apply wff_ctor.
  - apply wff_run; [by apply reachable_wf|done].
  - destruct (with_offset_cases p L) as [[Heq _]|[Heq _]]; rewrite Heq in Hw; [|done].
    injection Hw as <-. by apply wff_set_offset_field.
  - injection Hw as <-. by apply wff_set_min_neighbors_field.
Qed.

(** X2: in a lattice built by the member functions every identifier fits
    its type: the registries hold at most one entry more than the largest
    value of the identifier type, and the unique identifiers, the alias
    identifiers and the identifiers of the families are at most that
    value. *)
Theorem X2_identifiers_fit (L : Lattice) :
  reachable L ->
  nsub L <= S sub_id_max
  /\ size (hoppings L) <= S hop_id_max
  /\ (forall name s, sublattices L !! name = Some s ->
        s_unique_id s <= sub_id_max /\ s_alias_id s <= sub_id_max)
  /\ (forall name f, hoppings L !! name = Some f -> f_unique_id f <= hop_id_max).
Proof.
  intros Hr. pose proof (reachable_wf L Hr) as Hwf.
  pose proof (reachable_wf_families L Hr) as Hwff.
  pose proof (wff_sub_capacity _ Hwff) as Hsc.
  pose proof (wff_hop_capacity _ Hwff) as Hhc.
  split; [done|]. split; [done|]. split.
  - intros name s Hs. pose proof (wf_sub_bound _ Hwf _ _ Hs).
    pose proof (wf_alias_bound _ Hwf _ _ Hs). lia.
  - intros name f Hf. pose proof (wff_hop_bound _ Hwff _ _ Hf). lia.
Qed.

(** X3: in a lattice built by the member functions the identifiers of the
    hopping families are the numbers from 0 up to the number of families,
    and no two families have the same identifier. *)
Theorem X3_family_ids_are_dense (L : Lattice) :
  reachable L ->
  (forall i, i < size (hoppings L) <->
     exists name f, hoppings L !! name = Some f /\ f_unique_id f = i)
  /\ (forall n1 n2 f1 f2,
        hoppings L !! n1 = Some f1 -> hoppings L !! n2 = Some f2 ->
        f_unique_id f1 = f_unique_id f2 -> n1 = n2).
Proof.
  intros Hwff%reachable_wf_families. split; [|apply (wff_hop_inj _ Hwff)].
  intros i. split; [apply (wff_hop_dense _ Hwff)|].
  intros (n & f & Hl & <-). by eapply wff_hop_bound.
Qed.

Lemma flat_map_NoDup_inj {A B} (f : A -> list B) (l : list A) (x1 x2 : A) (y : B) :
  NoDup (flat_map f l) ->
  x1 ∈ l -> x2 ∈ l -> y ∈ f x1 -> y ∈ f x2 -> x1 = x2.
Proof.
  induction l as [|x l IH]; simpl; [by intros _ ?%elem_of_nil|].
  intros (Hx & Hdisj & Hl)%NoDup_app H1 H2 Hy1 Hy2.
  apply elem_of_cons in H1 as [->|H1]; apply elem_of_cons in H2 as [->|H2]; try done.
  - exfalso. apply (Hdisj y Hy1). apply elem_of_flat_map. eauto.
  - exfalso. apply (Hdisj y Hy2). apply elem_of_flat_map. eauto.
  - by apply IH.
Qed.

(** X4: in a lattice built by the member functions no term (d, A, B) is
    stored twice, whatever the comparison with the destroyed temporary
    answers: the terms of all the families together have no repetition, so
    a term that two family names hold is held under one name.  No stored
    term joins a sublattice to itself within a cell, and the two ends of
    every stored term are identifiers of sublattices of the lattice. *)
Theorem X4_no_term_stored_twice (L : Lattice) :
  reachable L ->
  NoDup (all_terms L)
  /\ (forall fam1 fam2 f1 f2 t,
        hoppings L !! fam1 = Some f1 -> hoppings L !! fam2 = Some f2 ->
        t ∈ terms f1 -> t ∈ terms f2 -> fam1 = fam2)
  /\ (forall t, t ∈ all_terms L ->
        ~ (t_relative_index t = Index3D_Zero /\ t_from t = t_to t))
  /\ (forall t, t ∈ all_terms L -> t_from t < nsub L /\ t_to t < nsub L).
Proof.
  intros Hwf%reachable_wf. split; [apply (wf_term_NoDup _ Hwf)|].
  split; [|split; [apply (wf_term_nonzero _ Hwf)|apply (wf_term_ids _ Hwf)]].
  intros fam1 fam2 f1 f2 t H1 H2 Ht1 Ht2.
  assert ((fam1, f1) = (fam2, f2)) as Heq; [|by injection Heq].
  eapply (flat_map_NoDup_inj (fun p : string * HoppingFamily => terms p.2)
            (map_to_list (hoppings L)) _ _ t).
  - apply (wf_term_NoDup _ Hwf).
  - by apply elem_of_map_to_list.
  - by apply elem_of_map_to_list.
  - done.
  - done.
Qed.


(** *** Lookups by identifier *)

Lemma find_unique {A} (P : A -> bool) (l : list A) (x : A) :
  x ∈ l -> P x = true -> (forall y, y ∈ l -> P y = true -> y = x) ->
  find P l = Some x.
Proof.
  intros Hx HP Huniq. destruct (find P l) as [y|] eqn:Hfind.
  - apply find_some in Hfind as [Hy HPy]. f_equal. apply Huniq; [|done].
    by apply list_elem_of_In.
  - exfalso. apply list_elem_of_In in Hx.
    pose proof (find_none _ _ Hfind x Hx). congruence.
Qed.

Lemma sublattice_by_id_unique L name s :
  wf L -> sublattices L !! name = Some s ->
  sublattice_by_id (s_unique_id s) L = Ok s.
Proof.
  intros Hwf Hs. unfold sublattice_by_id.
  rewrite (find_unique _ _ (name, s)); [done| |by apply bool_decide_eq_true|].
  - by apply elem_of_map_to_list.
  - intros [n' s'] Hin Hid. apply elem_of_map_to_list in Hin.
    apply bool_decide_eq_true in Hid. simpl in *.
    assert (n' = name) as -> by (eapply (wf_sub_inj _ Hwf); eauto).
    congruence.
Qed.

Lemma hopping_family_by_id_unique L name f :
  wf_families L -> hoppings L !! name = Some f ->
  hopping_family_by_id (f_unique_id f) L = Ok f.
Proof.
  intros Hwff Hf. unfold hopping_family_by_id.
  rewrite (find_unique _ _ (name, f)); [done| |by apply bool_decide_eq_true|].
  - by apply elem_of_map_to_list.
  - intros [n' f'] Hin Hid. apply elem_of_map_to_list in Hin.
    apply bool_decide_eq_true in Hid. simpl in *.
    assert (n' = name) as -> by (eapply (wff_hop_inj _ Hwff); eauto).
    congruence.
Qed.

(** X5: in a lattice built by the member functions the lookup of a
    sublattice by identifier is the inverse of registration: it returns the
    record of a registered sublattice from that record's unique identifier,
    it returns a record for every identifier below the number of
    sublattices, and it throws for every identifier from that number on. *)
Theorem X5_sublattice_by_id (L : Lattice) :
  reachable L ->
  (forall name s, sublattices L !! name = Some s ->
     sublattice_by_id (s_unique_id s) L = Ok s)
  /\ (forall id, id < nsub L ->
        exists name s, sublattices L !! name = Some s /\ s_unique_id s = id
                       /\ sublattice_by_id id L = Ok s)
  /\ (forall id, nsub L <= id ->
        sublattice_by_id id L = Throw (NoSublatticeWithID id)).
Proof.
  intros Hwf%reachable_wf. split; [|split].
  - intros name s. by apply sublattice_by_id_unique.
  - intros id Hid. destruct (wf_sub_dense _ Hwf id Hid) as (name & s & Hs & <-).
    exists name, s. repeat split; [done|]. by eapply sublattice_by_id_unique.
  - intros id Hid. unfold sublattice_by_id.
    destruct (find _ _) as [[n s]|] eqn:Hfind; [|done].
    apply find_some in Hfind as [Hin Hp]. apply list_elem_of_In in Hin.
    apply elem_of_map_to_list in Hin. apply bool_decide_eq_true in Hp. simpl in Hp.
    apply (wf_sub_bound _ Hwf) in Hin. lia.
Qed.

(** X6: the same for the hopping families: the lookup by identifier
    returns the family registered with that identifier, for every
    identifier below the number of families, and throws from that number
    on. *)
Theorem X6_hopping_family_by_id (L : Lattice) :
  reachable L ->
  (forall name f, hoppings L !! name = Some f ->
     hopping_family_by_id (f_unique_id f) L = Ok f)
  /\ (forall id, id < size (hoppings L) ->
        exists name f, hoppings L !! name = Some f /\ f_unique_id f = id
                       /\ hopping_family_by_id id L = Ok f)
  /\ (forall id, size (hoppings L) <= id ->
        hopping_family_by_id id L = Throw (NoHoppingWithID id)).
Proof.
  intros Hwff%reachable_wf_families. split; [|split].
  - intros name f. by apply hopping_family_by_id_unique.
  - intros id Hid. destruct (wff_hop_dense _ Hwff id Hid) as (name & f & Hf & <-).
    exists name, f. repeat split; [done|]. by eapply hopping_family_by_id_unique.
  - intros id Hid. unfold hopping_family_by_id.
    destruct (find _ _) as [[n f]|] eqn:Hfind; [|done].
    apply find_some in Hfind as [Hin Hp]. apply list_elem_of_In in Hin.
    apply elem_of_map_to_list in Hin. apply bool_decide_eq_true in Hp. simpl in Hp.
    apply (wff_hop_bound _ Hwff) in Hin. lia.
Qed.

(** X7: in a lattice built by the member functions the matrix of a family
    fits each of its terms: the sublattice that the lookup by identifier
    gives for the source of the term has as many rows as the matrix, and
    the sublattice of the destination has as many columns. *)
Theorem X7_stored_terms_fit_their_family (L : Lattice) (name : string)
    (f : HoppingFamily) (t : HoppingTerm) :
  reachable L ->
  hoppings L !! name = Some f ->
  t ∈ terms f ->
  exists sf st,
    sublattice_by_id (t_from t) L = Ok sf
    /\ rows (s_energy sf) = rows (f_energy f)
    /\ sublattice_by_id (t_to t) L = Ok st
    /\ cols (s_energy st) = cols (f_energy f).
Proof.
  intros Hr Hf Ht. pose proof (reachable_wf L Hr) as Hwf.
  destruct (wff_shape _ (reachable_wf_families L Hr) name f t Hf Ht)
    as (nf & sf & nt & st & Hsf & <- & Hrows & Hst & <- & Hcols).
  exists sf, st. repeat split; try done; by eapply sublattice_by_id_unique.
Qed.

(** *** Registration and lookup by name *)

Lemma register_hopping_energy_eq name e L :
  register_hopping_energy name e L =
  if empty name then (Throw HoppingNameBlank, L) else
  if decide (hop_id_max < size (hoppings L)) then (Throw TooManyHoppings, L) else
  match hoppings L !! name with
  | Some _ => (Throw (HoppingExists name), L)
  | None =>
      (Ok tt,
       set_hoppings
         (<[name := mkHoppingFamily e (size (hoppings L)) []]> (hoppings L)) L)
  end.
Proof.
  unfold register_hopping_energy, throw. destruct (empty name); [done|].
  unfold bind, get, modify, ret, umap_insert. cbn beta.
  case_decide; [done|].
  destruct (hoppings L !! name); simpl; [|done]. by rewrite set_hoppings_id.
Qed.

(** X8: a sublattice that [add_sublattice] registered is found under its
    name with the position and the energy given and with the number of
    sublattices registered before as both identifiers; the name was unknown
    before; the other names and the families are as before.  From then on,
    after any further calls, whether they return or throw, the name gives
    the same record, and [add_sublattice] and [add_alias] throw for it,
    whatever the position and the energy, and leave the lattice as it
    is. *)
Theorem X8_add_sublattice_then_lookup (name : string) (position : Cartesian)
    (e : MatrixXcd) (L L' : Lattice) :
  add_sublattice name position e L = (Ok tt, L') ->
  sublattice name L = Throw (NoSublatticeNamed name)
  /\ sublattice name L' = Ok (mkSublattice position e (nsub L) (nsub L))
  /\ (forall other, other <> name -> sublattice other L' = sublattice other L)
  /\ hoppings L' = hoppings L
  /\ (forall cs,
        sublattice name (run_all cs L')
        = Ok (mkSublattice position e (nsub L) (nsub L)))
  /\ (forall cs position' e', exists x,
        add_sublattice name position' e' (run_all cs L') = (Throw x, run_all cs L'))
  /\ (forall cs original position', exists x,
        add_alias name original position' (run_all cs L') = (Throw x, run_all cs L')).
Proof.
  intros (Hne & Hcap & Hn & ->)%add_sublattice_Ok.
  set (L' := set_sublattices _ L).
  assert (forall cs, sublattices (run_all cs L') !! name
                     = Some (mkSublattice position e (nsub L) (nsub L))) as Hkept.
  { intros cs. apply (ext_sublattices _ _ (extends_run_all cs L')).
    subst L'. simpl. by rewrite lookup_insert_eq. }
  unfold sublattice. rewrite Hn. subst L'. simpl. rewrite lookup_insert_eq.
  split; [done|]. split; [done|]. split; [|split; [done|split; [|split]]].
  - intros other Ho. by rewrite lookup_insert_ne.
  - intros cs. by rewrite Hkept.
  - intros cs position' e'.
    match goal with |- exists x, add_sublattice _ _ _ ?L1 = _ =>
      destruct (add_sublattice_cases name position' e' L1) as [(Hn' & _)|?]; [|done]
    end.
    by rewrite Hkept in Hn'.
  - intros cs original position'.
    match goal with |- exists x, add_alias _ _ _ ?L1 = _ =>
      destruct (add_alias_cases name original position' L1)
        as [(o & _ & Hn' & _)|?]; [|done]
    end.
    by rewrite Hkept in Hn'.
Qed.

(** X9: a family that [register_hopping_energy] registered is found under
    its name with the energy given, the number of families registered
    before as identifier and no term; the name was unknown before; the
    other names and the sublattices are as before; and a second
    registration of the name throws and leaves the lattice as it is, with
    the error of the name in use unless the registry is full. *)
Theorem X9_register_hopping_energy_then_lookup (name : string) (e : MatrixXcd)
    (L L' : Lattice) :
  register_hopping_energy name e L = (Ok tt, L') ->
  hopping_family name L = Throw (NoHoppingNamed name)
  /\ hopping_family name L' = Ok (mkHoppingFamily e (size (hoppings L)) [])
  /\ (forall other, other <> name -> hopping_family other L' = hopping_family other L)
  /\ sublattices L' = sublattices L
  /\ (forall e', exists x,
        register_hopping_energy name e' L' = (Throw x, L')
        /\ (x = HoppingExists name \/ x = TooManyHoppings)
        /\ (size (hoppings L') <= hop_id_max -> x = HoppingExists name)).
Proof.
  intros (Hne & Hcap & Hn & ->)%register_hopping_energy_Ok.
  unfold hopping_family. simpl. rewrite Hn, lookup_insert_eq.
  split; [done|]. split; [done|]. split; [|split; [done|]].
  - intros other Ho. by rewrite lookup_insert_ne.
  - intros e'. rewrite register_hopping_energy_eq.
    assert (empty name = false) as ->.
    { destruct (empty name) eqn:He; [|done]. by apply empty_spec in He. }
    simpl. case_decide.
    + eexists. split; [done|]. split; [auto|]. lia.
    + rewrite lookup_insert_eq. eexists. split; [done|]. auto.
Qed.

(** X10: [add_alias] looks the original up before anything else: when it
    is unknown the call throws the lookup's error, whatever the alias name,
    and the lattice is as before.  When the original is known and the alias
    name is new and not blank and the registry is not full, the alias is
    registered with the position given, the energy of the original, the
    number of sublattices registered before as unique identifier and the
    unique identifier of the original as alias identifier; the original and
    the families are as before. *)
Theorem X10_add_alias (alias_name original_name : string) (position : Cartesian)
    (L : Lattice) :
  (sublattices L !! original_name = None ->
     add_alias alias_name original_name position L
     = (Throw (NoSublatticeNamed original_name), L))
  /\ (forall original,
        sublattices L !! original_name = Some original ->
        alias_name <> EmptyString ->
        nsub L <= sub_id_max ->
        sublattices L !! alias_name = None ->
        exists L',
          add_alias alias_name original_name position L = (Ok tt, L')
          /\ sublattice alias_name L'
             = Ok (mkSublattice position (s_energy original) (nsub L)
                     (s_unique_id original))
          /\ sublattice original_name L' = Ok original
          /\ nsub L' = S (nsub L)
          /\ hoppings L' = hoppings L).
Proof.
  split.
  - intros Ho. unfold add_alias, bind, call_const, sublattice. by rewrite Ho.
  - intros original Ho Hne Hcap Hn.
    unfold add_alias, bind, call_const, sublattice at 1. rewrite Ho.
    destruct (register_sublattice_cases alias_name L)
      as [(_ & _ & _ & ->)|([?|[?|?]] & _)]; [|done|unfold nsub in *; lia|done].
    eexists. split; [done|]. unfold sublattice, nsub. simpl.
    rewrite lookup_insert_eq, map_size_insert_None by done.
    rewrite lookup_insert_ne by (intros ->; congruence). by rewrite Ho.
Qed.

(** *** The result of [add_hopping] *)

(** X11: when [add_hopping] by name returns on a lattice built by the
    member functions, the names resolved to sublattices and to a family of
    the lattice, the new term, with the unique identifiers of the two
    sublattices, is the last term of that family, the other families and
    the sublattices are as before, and [optimized_structure] of the new
    lattice has the compiled hopping of the term once at the site of the
    source and its conjugate once at the site of the destination. *)
Theorem X11_add_hopping_then_structure (i : Index3D) (from_sub to_sub fam : string)
    (L L' : Lattice) :
  reachable L ->
  add_hopping i from_sub to_sub fam L = (Ok tt, L') ->
  exists from to family os site_from site_to,
    sublattice from_sub L = Ok from
    /\ sublattice to_sub L = Ok to
    /\ hopping_family fam L = Ok family
    /\ hopping_family fam L'
       = Ok (mkHoppingFamily (f_energy family) (f_unique_id family)
               (terms family
                ++ [mkHoppingTerm i (s_unique_id from) (s_unique_id to)]))
    /\ (forall other, other <> fam ->
          hopping_family other L' = hopping_family other L)
    /\ sublattices L' = sublattices L
    /\ optimized_structure L' = Some os
    /\ os !! s_unique_id from = Some site_from
    /\ multiplicity (mkHopping i (s_unique_id to) (f_unique_id family) false)
         (site_hoppings site_from) = 1
    /\ os !! s_unique_id to = Some site_to
    /\ multiplicity
         (mkHopping (index_neg i) (s_unique_id from) (f_unique_id family) true)
         (site_hoppings site_to) = 1.
Proof.
  intros Hr Hrun.
  pose proof (wf_add_hopping i from_sub to_sub fam L (reachable_wf L Hr)) as Hwf'.
  rewrite Hrun in Hwf'. simpl in Hwf'.
  apply add_hopping_Ok in Hrun
    as (from & to & family & Hf & Ht & Hh & Hz & Hrows & Hcols & Hcol & ->).
  set (t0 := mkHoppingTerm i (s_unique_id from) (s_unique_id to)) in *.
  set (L' := set_hoppings (<[fam := push_term t0 family]> (hoppings L)) L) in *.
  assert (hoppings L' !! fam = Some (push_term t0 family)) as Hh'
    by (subst L'; simpl; by rewrite lookup_insert_eq).
  assert (t0 ∈ terms (push_term t0 family)) as Hin
    by (simpl; apply elem_of_app; right; left).
  destruct (optimized_structure_refines L' Hwf') as (os & Hos & Hlen & Hsites).
  assert (t0 ∈ all_terms L') as Hin' by (apply elem_of_all_terms; eauto).
  destruct (wf_term_ids _ Hwf' t0 Hin') as [Hfrom Hto]. simpl in Hfrom, Hto.
  rewrite <- Hlen in Hfrom, Hto.
  apply lookup_lt_is_Some in Hfrom as [site_from Hsf].
  apply lookup_lt_is_Some in Hto as [site_to Hst].
  exists from, to, family, os, site_from, site_to.
  unfold sublattice, hopping_family. rewrite Hf, Ht, Hh, Hh'.
  repeat split; try done.
  - intros other Ho. subst L'. simpl. by rewrite lookup_insert_ne.
  - rewrite (Hsites _ _ Hsf), multiplicity_entries_at.
    apply (forward_entry_once L' fam (push_term t0 family) t0 Hwf' Hh' Hin).
  - rewrite (Hsites _ _ Hst), multiplicity_entries_at.
    apply (conjugate_entry_once L' fam (push_term t0 family) t0 Hwf' Hh' Hin).
Qed.

Lemma find_mat_eqb_None L e :
  find (fun r : string * HoppingFamily => mat_eqb (f_energy r.2) e)
       (map_to_list (hoppings L)) = None
  <-> forall n f, hoppings L !! n = Some f -> mat_eqb (f_energy f) e = false.
Proof.
  split.
  - intros Hfind n f Hf.
    apply (find_none _ _ Hfind (n, f)), list_elem_of_In. by apply elem_of_map_to_list.
  - intros Hall. destruct (find _ _) as [[n f]|] eqn:Hfind; [|done].
    apply find_some in Hfind as [Hin Hp]. apply list_elem_of_In in Hin.
    apply elem_of_map_to_list in Hin. simpl in Hp. rewrite (Hall _ _ Hin) in Hp. done.
Qed.

(** X12: when [add_hopping] with an energy returns, the new term is the
    last term of a family of the new lattice.  If a family of the lattice
    had an energy equal to the one given, that family is one of those and
    no family was added; if none had, the family is the new family
    "__anonymous__N", N the number of families before the call, with the
    energy given, N as identifier and the new term as its only term. *)
Theorem X12_add_hopping_with_energy (i : Index3D) (from_sub to_sub : string)
    (e : MatrixXcd) (L L' : Lattice) :
  add_hopping_matrix i from_sub to_sub e L = (Ok tt, L') ->
  exists fam family' from to,
    sublattices L !! from_sub = Some from
    /\ sublattices L !! to_sub = Some to
    /\ hoppings L' !! fam = Some family'
    /\ last (terms family')
       = Some (mkHoppingTerm i (s_unique_id from) (s_unique_id to))
    /\ sublattices L' = sublattices L
    /\ ((exists n f, hoppings L !! n = Some f /\ mat_eqb (f_energy f) e = true) ->
        (exists family, hoppings L !! fam = Some family
                        /\ mat_eqb (f_energy family) e = true
                        /\ family_extends family family')
        /\ size (hoppings L') = size (hoppings L))
    /\ ((forall n f, hoppings L !! n = Some f -> mat_eqb (f_energy f) e = false) ->
        fam = "__anonymous__" +:+ pretty (size (hoppings L))
        /\ hoppings L !! fam = None
        /\ family' = mkHoppingFamily e (size (hoppings L))
                       [mkHoppingTerm i (s_unique_id from) (s_unique_id to)]
        /\ size (hoppings L') = S (size (hoppings L))).
Proof.
  rewrite add_hopping_matrix_unfold.
  destruct (find _ _) as [[n f]|] eqn:Hfind.
  - pose proof Hfind as Hnone.
    apply find_some in Hfind as [Hin Hp]. apply list_elem_of_In in Hin.
    apply elem_of_map_to_list in Hin. simpl in Hp.
    intros (from & to & family & Hf & Ht & Hh & _ & _ & _ & _ & ->)%add_hopping_Ok.
    simpl in Hh. assert (family = f) as -> by congruence.
    exists n, (push_term (mkHoppingTerm i (s_unique_id from) (s_unique_id to)) f),
      from, to.
    simpl. rewrite lookup_insert_eq, last_snoc.
    do 5 (split; [done|]). split.
    + intros _. split; [|by eapply map_size_insert_Some].
      exists f. repeat split; try done. simpl. by apply prefix_app_r.
    + intros Hall. rewrite (Hall _ _ Hin) in Hp. done.
  - cbn zeta. pose proof (proj1 (find_mat_eqb_None L e) Hfind) as Hall.
    clear Hfind. rename Hall into Hfind.
    destruct (register_hopping_energy _ e L) as [[[]|x] L1] eqn:Hreg; [|done].
    apply register_hopping_energy_Ok in Hreg as (_ & _ & Hn & ->).
    intros (from & to & family & Hf & Ht & Hh & _ & _ & _ & _ & ->)%add_hopping_Ok.
    simpl in Hf, Ht, Hh. rewrite lookup_insert_eq in Hh. injection Hh as <-.
    exists ("__anonymous__" +:+ pretty (size (hoppings L))),
      (push_term (mkHoppingTerm i (s_unique_id from) (s_unique_id to))
         (mkHoppingFamily e (size (hoppings L)) [])),
      from, to.
    simpl. rewrite lookup_insert_eq.
    do 5 (split; [done|]). split.
    + intros (n & f & Hl & Heq). rewrite (Hfind _ _ Hl) in Heq. done.
    + intros _. repeat split; try done.
      rewrite insert_insert_eq. by rewrite map_size_insert_None.
Qed.

(** X13: the synthesized name can be in use.  When no family has an energy
    equal to the one given, the registry is not full and a family is
    registered under "__anonymous__N", N the number of families,
    [add_hopping] with an energy throws the error of the name in use, and
    the lattice is as before. *)
Theorem X13_synthesized_name_in_use (i : Index3D) (from_sub to_sub : string)
    (e : MatrixXcd) (L : Lattice) :
  (forall n f, hoppings L !! n = Some f -> mat_eqb (f_energy f) e = false) ->
  hoppings L !! ("__anonymous__" +:+ pretty (size (hoppings L))) <> None ->
  size (hoppings L) <= hop_id_max ->
  add_hopping_matrix i from_sub to_sub e L
  = (Throw (HoppingExists ("__anonymous__" +:+ pretty (size (hoppings L)))), L).
Proof.
  intros Hall Htaken Hcap. apply (proj2 (find_mat_eqb_None L e)) in Hall.
  rewrite add_hopping_matrix_unfold, Hall. cbn zeta.
  rewrite register_hopping_energy_eq. simpl.
  rewrite decide_False by lia.
  destruct (hoppings L !! _); done.
Qed.

(** *** The sites of the optimized structure *)

Lemma write_sublattice_Some p (os os' : list Site) :
  write_sublattice p os = Some os' ->
  s_unique_id p.2 < length os
  /\ os' = alter (set_site_alias (s_alias_id p.2)) (s_unique_id p.2)
             (alter (set_site_position (s_position p.2)) (s_unique_id p.2) os).
Proof.
  unfold write_sublattice, at_index. case_decide; [|done].
  rewrite decide_True by (by rewrite length_alter). intros [= <-]. done.
Qed.

Lemma sublattice_loop_untouched (l : list (string * Sublattice)) i :
  forall os os' : list Site,
    for_each write_sublattice l os = Some os' ->
    (forall p, p ∈ l -> s_unique_id p.2 <> i) ->
    os' !! i = os !! i.
Proof.
  induction l as [|p l IH]; intros os os' Hrun Hne; simpl in Hrun.
  - by injection Hrun as <-.
  - destruct (write_sublattice p os) as [os1|] eqn:Hw; [|done].
    apply write_sublattice_Some in Hw as [_ ->].
    rewrite (IH _ _ Hrun) by (intros q Hq; apply Hne; by right).
    rewrite !list_lookup_alter_ne by (apply Hne; left). done.
Qed.

(** After the loop over the sublattices, the site at the identifier of
    each sublattice has its position and its alias identifier. *)
Lemma sublattice_loop_sites (l : list (string * Sublattice)) :
  forall os os' : list Site,
    NoDup ((fun p : string * Sublattice => s_unique_id p.2) <$> l) ->
    for_each write_sublattice l os = Some os' ->
    forall p, p ∈ l ->
      exists site0,
        os !! s_unique_id p.2 = Some site0
        /\ os' !! s_unique_id p.2
           = Some (mkSite (s_position p.2) (s_alias_id p.2) (site_hoppings site0)).
Proof.
  induction l as [|p0 l IH]; intros os os' Hnd Hrun p Hp.
  { by apply elem_of_nil in Hp. }
  simpl in Hrun. rewrite fmap_cons in Hnd. apply NoDup_cons in Hnd as [Hni Hnd].
  destruct (write_sublattice p0 os) as [os1|] eqn:Hw; [|done].
  apply write_sublattice_Some in Hw as [Hlt ->].
  apply elem_of_cons in Hp as [->|Hp].
  - apply lookup_lt_is_Some in Hlt as [site0 Hs0]. exists site0. split; [done|].
    rewrite (sublattice_loop_untouched _ _ _ _ Hrun).
    + rewrite !list_lookup_alter_eq, Hs0. done.
    + intros q Hq Heq. apply Hni. rewrite <- Heq.
      apply list_elem_of_fmap. eauto.
  - destruct (IH _ _ Hnd Hrun p Hp) as (site1 & Hs1 & Hs').
    assert (s_unique_id p0.2 <> s_unique_id p.2) as Hne.
    { intros Heq. apply Hni. rewrite Heq. apply list_elem_of_fmap. eauto. }
    rewrite !list_lookup_alter_ne in Hs1 by done. eauto.
Qed.

Lemma NoDup_sublattice_ids L :
  wf L ->
  NoDup ((fun p : string * Sublattice => s_unique_id p.2)
           <$> map_to_list (sublattices L)).
Proof.
  intros Hwf. apply NoDup_fmap_2_strong; [|apply NoDup_map_to_list].
  intros [n1 s1] [n2 s2] H1%elem_of_map_to_list H2%elem_of_map_to_list Hid.
  simpl in Hid. assert (n1 = n2) as -> by (eapply (wf_sub_inj _ Hwf); eauto).
  congruence.
Qed.

(** The structure of a lattice that satisfies the invariant, site by
    site. *)
Lemma optimized_structure_sites L :
  wf L ->
  exists os,
    optimized_structure L = Some os
    /\ length os = nsub L
    /\ (forall s site, os !! s = Some site ->
          site_hoppings site = entries_at s (compiled_entries L))
    /\ (forall name s, sublattices L !! name = Some s ->
          exists site, os !! s_unique_id s = Some site
                       /\ site_position site = s_position s
                       /\ site_alias site = s_alias_id s).
Proof.
  intros Hwf.
  destruct (optimized_structure_refines L Hwf) as (os & Hos & Hlen & Hsites).
  exists os. do 3 (split; [done|]).
  intros name s Hs. unfold optimized_structure in Hos.
  destruct (for_each write_sublattice _ _) as [os1|] eqn:Hloop; [|done].
  destruct (sublattice_loop_sites _ _ _ (NoDup_sublattice_ids L Hwf) Hloop (name, s))
    as (site0 & _ & Hs1); [by apply elem_of_map_to_list|]. simpl in Hs1.
  rewrite hopping_loop_push_entries in Hos.
  destruct (push_entries_result (compiled_entries L) os1) as (os' & Hrun & _ & Hkeep).
  { intros e He. unfold compiled_entries in He.
    apply elem_of_flat_map in He as ([n f] & Hp & He).
    apply elem_of_flat_map in He as (t & Ht & He). simpl in *.
    assert (t ∈ all_terms L) as Hin.
    { apply elem_of_all_terms. apply elem_of_map_to_list in Hp. eauto. }
    apply (wf_term_ids _ Hwf) in Hin as [? ?].
    assert (length os1 = nsub L) as ->.
    { destruct (sublattice_loop_result (map_to_list (sublattices L))
                  (new_structure (nsub L))) as (os2 & Hrun2 & Hlen2 & _).
      - intros [n' s'] Hp'%elem_of_map_to_list. unfold new_structure.
        rewrite length_replicate. simpl. by eapply wf_sub_bound.
      - rewrite Hloop in Hrun2. injection Hrun2 as ->.
        unfold new_structure in Hlen2. by rewrite length_replicate in Hlen2. }
    apply elem_of_cons in He as [->|He]; [done|].
    apply list_elem_of_singleton in He as ->. done. }
  rewrite Hos in Hrun. injection Hrun as <-.
  rewrite (Hkeep _ _ Hs1). eauto.
Qed.

(** X14: [optimized_structure] of a lattice built by the member functions
    has one site per sublattice, and the site at the unique identifier of a
    sublattice has the position and the alias identifier of that
    sublattice; for an alias that is the unique identifier of the
    sublattice it was made from, the index of another site of the
    array. *)
Theorem X14_sites_of_the_structure (L : Lattice) (name : string) (s : Sublattice) :
  reachable L ->
  sublattices L !! name = Some s ->
  exists os site,
    optimized_structure L = Some os
    /\ length os = nsub L
    /\ os !! s_unique_id s = Some site
    /\ site_position site = s_position s
    /\ site_alias site = s_alias_id s
    /\ site_alias site < length os.
Proof.
  intros Hwf%reachable_wf Hs.
  destruct (optimized_structure_sites L Hwf) as (os & Hos & Hlen & _ & Hsites).
  destruct (Hsites name s Hs) as (site & Hsite & Hp & Ha).
  exists os, site. repeat split; try done.
  rewrite Ha, Hlen. by eapply wf_alias_bound.
Qed.

(** *** [max_hoppings] *)

Lemma family_cols_nonneg L id : (0 <= family_cols id L)%Z.
Proof. unfold family_cols. destruct (hopping_family_by_id id L); lia. Qed.

Lemma sum_family_cols_nonneg L (hs : list Hopping) :
  (0 <= foldr Z.add 0 (map (fun h => family_cols (h_id h) L) hs))%Z.
Proof.
  induction hs as [|h hs IH]; simpl; [lia|].
  pose proof (family_cols_nonneg L (h_id h)). lia.
Qed.

Lemma idx_in_range z : (- idx_max - 1 <= z <= idx_max)%Z -> idx z = Some (Ok z).
Proof. intros H. unfold idx. by rewrite bool_decide_true. Qed.

Lemma idx_above z : (idx_max < z)%Z -> idx z = None.
Proof. intros H. unfold idx. rewrite bool_decide_false; [done|lia]. Qed.

Lemma accumulate_cols_None L (hs : list Hopping) : accumulate_cols L None hs = None.
Proof. unfold accumulate_cols. induction hs; simpl; done. Qed.

Lemma accumulate_cols_Ok L (hs : list Hopping) :
  forall init,
    (forall h, h ∈ hs -> exists f, hopping_family_by_id (h_id h) L = Ok f) ->
    (- idx_max - 1 <= init)%Z ->
    (init + foldr Z.add 0 (map (fun h => family_cols (h_id h) L) hs) <= idx_max)%Z ->
    accumulate_cols L (Some (Ok init)) hs
    = Some (Ok (init + foldr Z.add 0 (map (fun h => family_cols (h_id h) L) hs))%Z).
Proof.
  unfold accumulate_cols.
  induction hs as [|h hs IH]; intros init Hok Hlo Hhi; simpl in *.
  - do 2 f_equal. lia.
  - destruct (Hok h) as (f & Hf); [left|].
    pose proof (sum_family_cols_nonneg L hs) as Hsum.
    unfold family_cols at 1 in Hhi. unfold family_cols at 1. rewrite Hf in *.
    rewrite idx_in_range by lia.
    rewrite IH; [do 2 f_equal; lia| |lia|lia].
    intros h' Hh'. apply Hok. by right.
Qed.

Lemma accumulate_cols_above L (hs : list Hopping) :
  forall init,
    (forall h, h ∈ hs -> exists f, hopping_family_by_id (h_id h) L = Ok f) ->
    (- idx_max - 1 <= init <= idx_max)%Z ->
    (idx_max < init + foldr Z.add 0 (map (fun h => family_cols (h_id h) L) hs))%Z ->
    accumulate_cols L (Some (Ok init)) hs = None.
Proof.
  induction hs as [|h hs IH]; intros init Hok Hin Hhi; simpl in *; [lia|].
  destruct (Hok h) as (f & Hf); [left|].
  unfold family_cols at 1 in Hhi. rewrite Hf in Hhi.
  unfold accumulate_cols. simpl. rewrite Hf.
  destruct (decide (init + Z.of_nat (cols (f_energy f)) <= idx_max)%Z) as [Hle|Hgt].
  - rewrite idx_in_range by lia. apply IH; [|lia|lia].
    intros h' Hh'. apply Hok. by right.
  - rewrite idx_above by lia. apply accumulate_cols_None.
Qed.

Lemma max_hoppings_step_Ok L (m : Z) (s : Site) :
  (0 <= idx_max)%Z ->
  (exists a, sublattice_by_id (site_alias s) L = Ok a) ->
  (forall h, h ∈ site_hoppings s -> exists f, hopping_family_by_id (h_id h) L = Ok f) ->
  max_hoppings_step L (Some (Ok m)) s
  = if decide (site_load L s <= idx_max)%Z
    then Some (Ok (Z.max m (site_load L s)))
    else None.
Proof.
  intros Hidx (a & Ha) Hok. unfold max_hoppings_step, site_load, orbitals_of.
  rewrite Ha.
  pose proof (sum_family_cols_nonneg L (site_hoppings s)) as Hsum.
  case_decide as Hload.
  - rewrite idx_in_range by lia. rewrite accumulate_cols_Ok by (done || lia). done.
  - destruct (decide (Z.of_nat (cols (s_energy a)) - 1 <= idx_max)%Z) as [Hle|Hgt].
    + rewrite idx_in_range by lia. rewrite accumulate_cols_above by (done || lia). done.
    + rewrite idx_above by lia. by rewrite accumulate_cols_None.
Qed.

Lemma max_hoppings_fold_None L (os : list Site) :
  foldl (max_hoppings_step L) None os = None.
Proof. induction os; simpl; done. Qed.

Lemma max_hoppings_fold L (os : list Site) :
  (0 <= idx_max)%Z ->
  forall m,
    (forall s, s ∈ os ->
       (exists a, sublattice_by_id (site_alias s) L = Ok a)
       /\ forall h, h ∈ site_hoppings s ->
            exists f, hopping_family_by_id (h_id h) L = Ok f) ->
    ((forall s, s ∈ os -> (site_load L s <= idx_max)%Z) ->
     exists n,
       foldl (max_hoppings_step L) (Some (Ok m)) os = Some (Ok n)
       /\ (m <= n)%Z
       /\ (forall s, s ∈ os -> (site_load L s <= n)%Z)
       /\ (n = m \/ exists s, s ∈ os /\ site_load L s = n))
    /\ ((exists s, s ∈ os /\ (idx_max < site_load L s)%Z) ->
        foldl (max_hoppings_step L) (Some (Ok m)) os = None).
Proof.
  intros Hidx.
  induction os as [|s os IH]; intros m Hok; cbn [foldl].
  - split.
    + intros _. exists m. repeat split; [lia| |by left]. by intros s ?%elem_of_nil.
    + intros (s & Hs%elem_of_nil & _). done.
  - destruct (Hok s) as [Ha Hh]; [left|].
    rewrite max_hoppings_step_Ok by done.
    assert (forall s', s' ∈ os ->
              (exists a, sublattice_by_id (site_alias s') L = Ok a)
              /\ forall h, h ∈ site_hoppings s' ->
                   exists f, hopping_family_by_id (h_id h) L = Ok f) as Hok'
      by (intros s' Hs'; apply Hok; by right).
    destruct (IH (Z.max m (site_load L s)) Hok') as [IHfit IHabove].
    split.
    + intros Hfit. rewrite decide_True by (apply Hfit; left).
      destruct IHfit as (n & -> & Hle & Hall & Hatt).
      { intros s' Hs'. apply Hfit. by right. }
      exists n. split; [done|]. split; [lia|]. split.
      * intros s' [->|Hs']%elem_of_cons; [lia|by apply Hall].
      * destruct Hatt as [->|(s' & Hs' & <-)].
        -- destruct (Z.max_spec m (site_load L s)) as [[_ ->]|[_ ->]].
           ++ right. exists s. split; [left|done].
           ++ by left.
        -- right. exists s'. split; [by right|done].
    + intros (s' & Hs' & Habove). case_decide as Hload.
      * apply IHabove. apply elem_of_cons in Hs' as [->|Hs']; [lia|eauto].
      * apply max_hoppings_fold_None.
Qed.

Lemma cast_int_id n : (0 <= int_max)%Z -> (0 <= n <= int_max)%Z -> cast_int n = n.
Proof.
  intros Hint Hn. unfold cast_int.
  rewrite Z.mod_small by lia. lia.
Qed.

(** What the lookups of [max_hoppings] find in a lattice that satisfies
    the invariants: a sublattice for the alias of every site and a family
    for every compiled hopping. *)
Lemma max_hoppings_lookups L (os : list Site) :
  wf L -> wf_families L ->
  optimized_structure L = Some os ->
  forall s, s ∈ os ->
    (exists a, sublattice_by_id (site_alias s) L = Ok a)
    /\ forall h, h ∈ site_hoppings s ->
         exists f, hopping_family_by_id (h_id h) L = Ok f.
Proof.
  intros Hwf Hwff Hos'.
  destruct (optimized_structure_sites L Hwf) as (os' & Hos & Hlen & Hentries & Hsites).
  assert (os' = os) as -> by congruence.
  intros site Hsite. apply list_elem_of_lookup in Hsite as (i & Hi).
  assert (i < nsub L) as Hlt by (apply lookup_lt_Some in Hi; lia).
  split.
  - destruct (wf_sub_dense _ Hwf i Hlt) as (name & s & Hs & <-).
    destruct (Hsites name s Hs) as (site' & Hsite' & _ & Ha).
    assert (Some site' = Some site) as Heq
      by (rewrite <- Hsite', <- Hi; reflexivity).
    injection Heq as ->.
    pose proof (wf_alias_bound _ Hwf _ _ Hs) as Hab.
    destruct (wf_sub_dense _ Hwf _ Hab) as (name' & s' & Hs' & Hid).
    exists s'. rewrite Ha, <- Hid. by eapply sublattice_by_id_unique.
  - intros h Hh. rewrite (Hentries _ _ Hi) in Hh.
    unfold entries_at in Hh. apply list_elem_of_fmap in Hh as ([j h'] & -> & Hh).
    apply list_elem_of_filter in Hh as [_ Hh]. unfold compiled_entries in Hh.
    apply elem_of_flat_map in Hh as ([nm f] & Hp & Hh).
    apply elem_of_flat_map in Hh as (t & Ht & Hh). simpl in *.
    apply elem_of_map_to_list in Hp.
    exists f.
    apply elem_of_cons in Hh as [Hh|Hh];
      [|apply list_elem_of_singleton in Hh]; injection Hh as _ ->; simpl;
      by eapply hopping_family_by_id_unique.
Qed.

(** X15: on a lattice built by the member functions [max_hoppings] neither
    throws nor reads out of range.  The count of a site is the number of
    orbitals of the sublattice of the site's alias, less one, and the
    columns of the family of each compiled hopping of the site.  When the
    count of every site is a value of [idx_t], the function returns the
    conversion to [int] of a number that is at least 0 and at least the
    count of every site, and that is 0 or the count of one of the sites;
    the conversion keeps the number when it is a value of [int].  When the
    count of some site is beyond the values of [idx_t], the sum leaves the
    range of the type, which the language leaves undefined. *)
Theorem X15_max_hoppings (L : Lattice) :
  (0 <= idx_max)%Z ->
  (0 <= int_max)%Z ->
  reachable L ->
  exists os,
    optimized_structure L = Some os
    /\ ((forall s, s ∈ os -> (site_load L s <= idx_max)%Z) ->
        exists n,
          max_hoppings L = Some (Ok (cast_int n))
          /\ (0 <= n)%Z
          /\ (forall s, s ∈ os -> (site_load L s <= n)%Z)
          /\ (n = 0%Z \/ exists s, s ∈ os /\ site_load L s = n)
          /\ ((n <= int_max)%Z -> cast_int n = n))
    /\ ((exists s, s ∈ os /\ (idx_max < site_load L s)%Z) ->
        max_hoppings L = None).
Proof.
  intros Hidx Hint Hr. pose proof (reachable_wf L Hr) as Hwf.
  pose proof (reachable_wf_families L Hr) as Hwff.
  destruct (optimized_structure_sites L Hwf) as (os & Hos & _).
  pose proof (max_hoppings_lookups L os Hwf Hwff Hos) as Hlook.
  destruct (max_hoppings_fold L os Hidx 0 Hlook) as [Hfit Habove].
  exists os. split; [done|]. unfold max_hoppings.
  rewrite Hos, idx_in_range by lia. split.
  - intros Hload. destruct (Hfit Hload) as (n & -> & Hle & Hall & Hatt).
    exists n. repeat split; try done. intros Hn. apply cast_int_id; lia.
  - intros Hload. by rewrite (Habove Hload).
Qed.

(** *** The name maps *)

Lemma foldl_insert_lookup {V} (g : V -> nat) (l : list (string * V)) (k : string) :
  forall m0 : gmap string nat,
    NoDup l.*1 ->
    foldl (fun map (p : string * V) => <[p.1 := g p.2]> map) m0 l !! k
    = match (list_to_map l : gmap string V) !! k with
      | Some v => Some (g v)
      | None => m0 !! k
      end.
Proof.
  induction l as [|[k0 v0] l IH]; intros m0 Hnd; simpl; [done|].
  rewrite fmap_cons in Hnd. apply NoDup_cons in Hnd as [Hni Hnd].
  rewrite IH by done. simpl.
  destruct (decide (k0 = k)) as [->|Hne].
  - rewrite (not_elem_of_list_to_map_1 l k Hni), !lookup_insert_eq. done.
  - rewrite !lookup_insert_ne by done. done.
Qed.

Lemma name_map_lookup {V} (g : V -> nat) (m : gmap string V) (k : string) :
  foldl (fun (map : gmap string nat) (p : string * V) => <[p.1 := g p.2]> map)
        ∅ (map_to_list m) !! k
  = g <$> m !! k.
Proof.
  rewrite foldl_insert_lookup by apply NoDup_fst_map_to_list.
  rewrite list_to_map_to_list, lookup_empty. by destruct (m !! k).
Qed.

(** X16: the two name maps give, for each registered name, the unique
    identifier registered with it, and nothing for the other names; in a
    lattice built by the member functions no identifier is given for two
    names, and the identifiers given are the numbers from 0 up to the
    number of entries. *)
Theorem X16_name_maps (L : Lattice) :
  reachable L ->
  (forall name, sub_name_map L !! name = s_unique_id <$> sublattices L !! name)
  /\ (forall name, hop_name_map L !! name = f_unique_id <$> hoppings L !! name)
  /\ (forall n1 n2 i,
        sub_name_map L !! n1 = Some i -> sub_name_map L !! n2 = Some i -> n1 = n2)
  /\ (forall n1 n2 i,
        hop_name_map L !! n1 = Some i -> hop_name_map L !! n2 = Some i -> n1 = n2)
  /\ (forall i, i < nsub L <-> exists name, sub_name_map L !! name = Some i)
  /\ (forall i, i < size (hoppings L) <->
        exists name, hop_name_map L !! name = Some i).
Proof.
  intros Hr. pose proof (reachable_wf L Hr) as Hwf.
  pose proof (reachable_wf_families L Hr) as Hwff.
  assert (forall name, sub_name_map L !! name = s_unique_id <$> sublattices L !! name)
    as Hsub by (intros; apply name_map_lookup).
  assert (forall name, hop_name_map L !! name = f_unique_id <$> hoppings L !! name)
    as Hhop by (intros; apply name_map_lookup).
  do 2 (split; [done|]). split; [|split; [|split]].
  - intros n1 n2 i. rewrite !Hsub.
    destruct (sublattices L !! n1) as [s1|] eqn:H1; [|done].
    destruct (sublattices L !! n2) as [s2|] eqn:H2; [|done].
    simpl. intros [= <-] [= Heq]. eapply (wf_sub_inj _ Hwf); eauto.
  - intros n1 n2 i. rewrite !Hhop.
    destruct (hoppings L !! n1) as [f1|] eqn:H1; [|done].
    destruct (hoppings L !! n2) as [f2|] eqn:H2; [|done].
    simpl. intros [= <-] [= Heq]. eapply (wff_hop_inj _ Hwff); eauto.
  - intros i. split.
    + intros Hi. destruct (wf_sub_dense _ Hwf i Hi) as (name & s & Hs & <-).
      exists name. by rewrite Hsub, Hs.
    + intros (name & Hn). rewrite Hsub in Hn.
      destruct (sublattices L !! name) as [s|] eqn:Hs; [|done].
      injection Hn as <-. by eapply wf_sub_bound.
  - intros i. split.
    + intros Hi. destruct (wff_hop_dense _ Hwff i Hi) as (name & f & Hf & <-).
      exists name. by rewrite Hhop, Hf.
    + intros (name & Hn). rewrite Hhop in Hn.
      destruct (hoppings L !! name) as [f|] eqn:Hf; [|done].
      injection Hn as <-. by eapply wff_hop_bound.
Qed.

(** *** The three flags *)

Lemma has_onsite_energy_spec L :
  has_onsite_energy L = true <->
  exists name s, sublattices L !! name = Some s
                 /\ diagonal_isZero (s_energy s) = false.
Proof.
  unfold has_onsite_energy. rewrite existsb_elem_of. split.
  - intros ([n s] & Hin%elem_of_map_to_list & Hp). simpl in Hp.
    exists n, s. split; [done|]. by destruct (diagonal_isZero _).
  - intros (n & s & Hs & Hp). exists (n, s). split; [by apply elem_of_map_to_list|].
    simpl. by rewrite Hp.
Qed.

Lemma has_multiple_orbitals_spec L :
  has_multiple_orbitals L = true <->
  exists name s, sublattices L !! name = Some s /\ cols (s_energy s) <> 1.
Proof.
  unfold has_multiple_orbitals. rewrite existsb_elem_of. split.
  - intros ([n s] & Hin%elem_of_map_to_list & Hp%bool_decide_eq_true). eauto.
  - intros (n & s & Hs & Hp). exists (n, s). split; [by apply elem_of_map_to_list|].
    by apply bool_decide_eq_true.
Qed.

Lemma has_complex_hoppings_spec L :
  has_complex_hoppings L = true <->
  exists name f, hoppings L !! name = Some f /\ imag_isZero (f_energy f) = false.
Proof.
  unfold has_complex_hoppings. rewrite existsb_elem_of. split.
  - intros ([n f] & Hin%elem_of_map_to_list & Hp). simpl in Hp.
    exists n, f. split; [done|]. by destruct (imag_isZero _).
  - intros (n & f & Hf & Hp). exists (n, f). split; [by apply elem_of_map_to_list|].
    simpl. by rewrite Hp.
Qed.

(** X17: the three flags never go back to false: once a lattice has an
    onsite energy, a sublattice with a number of orbitals other than one,
    or a complex hopping, it has it after every sequence of calls, whether
    the calls return or throw. *)
Theorem X17_flags_stay_set (cs : list Call) (L : Lattice) :
  (has_onsite_energy L = true -> has_onsite_energy (run_all cs L) = true)
  /\ (has_multiple_orbitals L = true -> has_multiple_orbitals (run_all cs L) = true)
  /\ (has_complex_hoppings L = true -> has_complex_hoppings (run_all cs L) = true).
Proof.
  pose proof (extends_run_all cs L) as [_ _ Hsub Hhop].
  split; [|split].
  - rewrite !has_onsite_energy_spec. intros (n & s & Hs & Hp). eauto.
  - rewrite !has_multiple_orbitals_spec. intros (n & s & Hs & Hp). eauto.
  - rewrite !has_complex_hoppings_spec. intros (n & f & Hf & Hp).
    destruct (Hhop _ _ Hf) as (f' & Hf' & He & _). exists n, f'.
    split; [done|]. by rewrite He.
Qed.

(** *** Positions and offsets *)

Lemma foldl_ext_in {A B} (f g : A -> B -> A) (l : list B) :
  forall a, (forall a x, x ∈ l -> f a x = g a x) -> foldl f a l = foldl g a l.
Proof.
  induction l as [|x l IH]; intros a Hfg; simpl; [done|].
  rewrite (Hfg a x) by left. apply IH. intros a' x' Hx'. apply Hfg. by right.
Qed.

(** X18: [calc_position] reads the index only below the number of
    primitive vectors: two indices that agree there give the same result.
    With the empty name it returns the position of the cell and never
    throws; with the name of a registered sublattice it returns that
    position plus the position of the sublattice; with any other name it
    throws the error of the lookup by name. *)
Theorem X18_calc_position (index index' : Index3D) (name : string) (L : Lattice) :
  (forall k, k < ndim L -> index_coeff index k = index_coeff index' k) ->
  calc_position index name L = calc_position index' name L
  /\ exists cell,
       calc_position index EmptyString L = Ok cell
       /\ (name <> EmptyString ->
           calc_position index name L
           = match sublattices L !! name with
             | Some s => Ok (vec_add cell (s_position s))
             | None => Throw (NoSublatticeNamed name)
             end).
Proof.
  intros Hagree. split.
  - unfold calc_position.
    rewrite (foldl_ext_in _
               (fun position i =>
                  vec_mul_add position (float_of_int (index_coeff index' i))
                    (nth i (vectors L) (mkVector3f float_zero float_zero float_zero)))).
    + done.
    + intros a k Hk%elem_of_seq. rewrite Hagree by lia. done.
  - eexists. split; [reflexivity|].
    intros Hne. unfold calc_position, sublattice.
    destruct (empty name) eqn:He; [by apply empty_spec in He|]. simpl.
    by destruct (sublattices L !! name).
Qed.

Lemma translate_coordinates_vectors position L L' :
  vectors L' = vectors L ->
  translate_coordinates position L' = translate_coordinates position L.
Proof. intros Hv. unfold translate_coordinates, ndim. by rewrite Hv. Qed.

Lemma set_offset_vectors position L L' :
  vectors L' = vectors L -> (set_offset position L').1 = (set_offset position L).1.
Proof.
  intros Hv. rewrite !set_offset_eq, (translate_coordinates_vectors _ _ _ Hv).
  by destruct (existsb _ _).
Qed.

(** X19: offsets do not add up and do not depend on one another: on the
    lattice that [with_offset] returned, [with_offset] gives what it gives
    on the first lattice; and [with_offset] after [with_min_neighbors]
    gives the lattice that [with_min_neighbors] after [with_offset] gives,
    or throws as [with_offset] does on the first lattice. *)
Theorem X19_derivations_compose (p q : Cartesian) (n : Z) (L L1 : Lattice) :
  with_offset p L = Ok L1 ->
  with_offset q L1 = with_offset q L
  /\ with_offset p (set_min_neighbors_field n L)
     = with_min_neighbors n L1
  /\ with_min_neighbors n L = Ok (set_min_neighbors_field n L).
Proof.
  intros Hp.
  destruct (with_offset_cases p L) as [[Heq Hs]|[Heq _]]; rewrite Heq in Hp; [|done].
  injection Hp as <-. split; [|split; [|done]].
  - unfold with_offset. rewrite !set_offset_eq.
    rewrite (translate_coordinates_vectors q L (set_offset_field p L)) by done.
    destruct (existsb _ _); [done|]. by destruct L.
  - unfold with_offset, with_min_neighbors. rewrite set_offset_eq.
    rewrite (translate_coordinates_vectors p L (set_min_neighbors_field n L)) by done.
    rewrite set_offset_eq in Hs. destruct (existsb _ _); [done|]. by destruct L.
Qed.

(** X20: whether [set_offset] accepts a position depends on the primitive
    vectors alone, which no call changes: the outcome for a position is the
    same after any sequence of calls as before it. *)
Theorem X20_offset_check_is_stable (cs : list Call) (position : Cartesian)
    (L : Lattice) :
  (set_offset position (run_all cs L)).1 = (set_offset position L).1
  /\ translate_coordinates position (run_all cs L)
     = translate_coordinates position L
  /\ ndim (run_all cs L) = ndim L.
Proof.
  pose proof (ext_vectors _ _ (extends_run_all cs L)) as Hv.
  split; [by apply set_offset_vectors|].
  split; [by apply translate_coordinates_vectors|]. unfold ndim. by rewrite Hv.
Qed.

(** X21: the check of [set_offset] is a comparison of binary32 values, and
    a NaN is not greater than the bound: a position whose fractional
    coordinates are each a NaN or of magnitude at most [0.55f] is stored as
    the offset, while an infinite coordinate is refused. *)
Theorem X21_offset_check_on_nan_and_infinity (position : Cartesian) (L : Lattice) :
  (Forall (fun c => c = S754_nan \/ SFleb (SFabs c) float_0_55 = true)
          (coeffs (translate_coordinates position L)) ->
     set_offset position L = (Ok tt, set_offset_field position L))
  /\ (Exists (fun c => exists s, c = S754_infinity s)
             (coeffs (translate_coordinates position L)) ->
      set_offset position L = (Throw OffsetTooLarge, L)).
Proof.
  rewrite set_offset_eq. split.
  - intros Hall.
    assert (existsb (fun c => SFltb float_0_55 (SFabs c))
              (coeffs (translate_coordinates position L)) = false) as ->; [|done].
    apply not_true_is_false. intros (c & Hc & Hgt)%existsb_elem_of.
    rewrite Forall_forall in Hall. destruct (Hall c Hc) as [->|Hle]; [done|].
    apply SFleb_not_SFltb in Hle. congruence.
  - intros (c & Hc & s & ->)%Exists_exists.
    assert (existsb (fun c => SFltb float_0_55 (SFabs c))
              (coeffs (translate_coordinates position L)) = true) as ->; [|done].
    apply existsb_elem_of. eexists. split; [exact Hc|]. done.
Qed.

End MoreProperties.

(** ** The properties on the example lattices *)

Import Exact Examples.

Lemma reachable_square_sites : reachable square_sites.
Proof. apply reachable_run_all, reachable_ctor. Qed.

Lemma reachable_square : reachable square.
Proof. apply reachable_run_all, reachable_square_sites. Qed.

Lemma reachable_two_sites : reachable two_sites.
Proof. apply reachable_run_all, reachable_ctor. Qed.

Lemma reachable_chain : reachable chain.
Proof. apply reachable_run_all, reachable_ctor. Qed.

(** C1 on the lattice with the one sublattice "A" and no family: the call
    [add_hopping((0,0,0), "A", "A", 5.0)] throws, and the lattice it
    leaves has the family "__anonymous__0", which the lattice did not have
    before the call. *)
Lemma C1_failing_add_hopping_leaves_family :
  (add_hopping_scalar Index3D_Zero "A" "A" (5, 0)%Z square_sites).1
    = Throw ZeroIndexSameSublattice
  /\ hoppings square_sites = ∅
  /\ hoppings (add_hopping_scalar Index3D_Zero "A" "A" (5, 0)%Z square_sites).2
     = {["__anonymous__0" := mkHoppingFamily [[(5, 0)%Z]] 0 []]}
  /\ sublattices (add_hopping_scalar Index3D_Zero "A" "A" (5, 0)%Z square_sites).2
     = sublattices square_sites.
Proof. repeat split; reflexivity. Qed.

(** C2 on the square lattice of the spec's scenario. *)
Lemma C2_witness :
  exists os,
    optimized_structure square = Some os
    /\ length os = nsub square
    /\ (forall s site, os !! s = Some site ->
          site_hoppings site = entries_at s (compiled_entries square))
    /\ compiled_of_term family_t_square term_AA
       = [(t_from term_AA,
           mkHopping (t_relative_index term_AA) (t_to term_AA)
             (f_unique_id family_t_square) false);
          (t_to term_AA,
           mkHopping (index_neg (t_relative_index term_AA)) (t_from term_AA)
             (f_unique_id family_t_square) true)]
    /\ (exists site, os !! t_from term_AA = Some site
          /\ multiplicity
               (mkHopping (t_relative_index term_AA) (t_to term_AA)
                  (f_unique_id family_t_square) false)
               (site_hoppings site) = 1)
    /\ (exists site, os !! t_to term_AA = Some site
          /\ multiplicity
               (mkHopping (index_neg (t_relative_index term_AA)) (t_from term_AA)
                  (f_unique_id family_t_square) true)
               (site_hoppings site) = 1)
    /\ list_sum (map (fun site => length (site_hoppings site)) os)
       = 2 * length (all_terms square).
Proof.
  apply (C2_two_compiled_hoppings_per_term square "t" family_t_square term_AA).
  - apply reachable_square.
  - reflexivity.
  - simpl. left.
Defined.

Lemma term_AB_in_two_sites : term_AB ∈ all_terms two_sites.
Proof.
  apply elem_of_all_terms. exists "t", family_t_two_sites.
  split; [reflexivity|left].
Qed.

(** On the lattice [two_sites], which holds the term ((1,0,0), A, B), the
    same term is offered to the family "w", which is registered and of
    shape 2 x 2: the size check comes first, and the call throws the size
    mismatch, not the duplicate error. *)
Lemma duplicate_for_another_shape :
  (add_hopping (t_relative_index term_AB) "A" "B" "w" two_sites).1
  = Throw (HoppingSizeMismatch "A" "B" "w").
Proof. reflexivity. Qed.

(** Where the storage of the temporary is intact, the conjugate of the term
    of [two_sites] is refused as a duplicate. *)
Lemma conjugate_refused_where_intact :
  add_hopping (mkIndex3D (-1) 0 0) "B" "A" "t" two_sites
  = (Throw HoppingDuplicate, two_sites).
Proof. reflexivity. Qed.

(** C3 on the lattice that holds the term ((1,0,0), A, B), where the
    comparison with the destroyed temporary answers false: the conjugate
    ((-1,0,0), B, A) is accepted and stored in the family "t". *)
Lemma C3_witness :
  add_hopping (U := clobbered) (mkIndex3D (-1) 0 0) "B" "A" "t" two_sites_clobbered
  = (Ok tt,
     set_hoppings
       (<["t" := push_term (mkHoppingTerm (mkIndex3D (-1) 0 0) 1 0)
                   family_t_two_sites]> (hoppings two_sites_clobbered))
       two_sites_clobbered).
Proof.
  assert (reachable (U := clobbered) two_sites_clobbered) as Hreach
    by apply (reachable_run_all (U := clobbered)), reachable_ctor.
  assert (term_AB ∈ all_terms two_sites_clobbered) as Hin.
  { assert (all_terms two_sites_clobbered = [term_AB]) as -> by reflexivity. left. }
  destruct (C3_conjugate_check_reads_destroyed_temporary (U := clobbered)
              two_sites_clobbered term_AB "B" "A" "t" site_B site_A seven
              Hreach Hin eq_refl eq_refl) as [_ Hconj].
  destruct (Hconj eq_refl eq_refl family_t_two_sites eq_refl eq_refl eq_refl)
    as [_ Haccepted].
  apply Haccepted.
  - assert (all_terms two_sites_clobbered = [term_AB]) as -> by reflexivity.
    intros Hin'. apply list_elem_of_singleton in Hin'. inversion Hin'.
  - intros h _. reflexivity.
Defined.

(** The matrix [nearly_upper] is square with a real diagonal, has the entry
    1 below the diagonal and differs from its adjoint, and [add_sublattice]
    registers it: 1 is less than 1e-12 times 2^40, the largest magnitude
    of the upper part. *)
Lemma C4_counterexample :
  ("A" : string) <> EmptyString
  /\ sublattices (Lattice_ctor e1 e2 v0) !! "A" = None
  /\ nsub (Lattice_ctor e1 e2 v0) <= sub_id_max
  /\ entry nearly_upper 1 0 = (1, 0)%Z
  /\ m_upper nearly_upper = false
  /\ nearly_upper <> m_adjoint nearly_upper
  /\ add_sublattice "A" v0 nearly_upper (Lattice_ctor e1 e2 v0)
     = (Ok tt,
        set_sublattices
          (<["A" := mkSublattice v0 nearly_upper 0 0]>
             (sublattices (Lattice_ctor e1 e2 v0)))
          (Lattice_ctor e1 e2 v0)).
Proof.
  split; [discriminate|].
  split; [reflexivity|].
  split; [apply Nat.leb_le; reflexivity|].
  split; [reflexivity|].
  split; [reflexivity|].
  split; [|reflexivity].
  assert (m_adjoint nearly_upper
          = [[(1099511627776, 0); (1, 0)]; [(0, 0); (0, 0)]]%Z) as -> by reflexivity.
  intros Heq. inversion Heq.
Qed.

(** C4 on a Hermitian matrix that is not upper triangular. *)
Lemma C4_witness :
  add_sublattice "A" v0 hermitian_2 (Lattice_ctor e1 e2 v0)
  = (Ok tt,
     set_sublattices
       (<["A" := mkSublattice v0 hermitian_2
                   (nsub (Lattice_ctor e1 e2 v0)) (nsub (Lattice_ctor e1 e2 v0))]>
          (sublattices (Lattice_ctor e1 e2 v0)))
       (Lattice_ctor e1 e2 v0)).
Proof.
  apply (C4_add_sublattice_validation "A" v0 hermitian_2 (Lattice_ctor e1 e2 v0)).
  - intros m. reflexivity.
  - intros m. reflexivity.
  - discriminate.
  - reflexivity.
  - apply Nat.leb_le. reflexivity.
  - reflexivity.
  - reflexivity.
  - right. reflexivity.
Defined.

(** The vector [tiny] is not zero, and the constructor drops it. *)
Lemma C9_counterexample :
  SFeqb (vx tiny) float_zero = false
  /\ tiny <> v0
  /\ vectors (Lattice_ctor e1 tiny v0) = [e1]
  /\ ndim (Lattice_ctor e1 tiny v0) = 1.
Proof.
  split; [reflexivity|].
  split; [|split; reflexivity].
  intros Heq. inversion Heq.
Qed.

(** C9 with [tiny] as second vector and [e2] as third: [e2] becomes the
    second primitive vector. *)
Lemma C9_witness :
  vectors (Lattice_ctor e1 tiny e2) = [e1; e2]
  /\ ndim (Lattice_ctor e1 tiny e2) = 2.
Proof.
  assert (forall v, isZero v = Vector3f_isZero v) as Hlaw by (intros v; reflexivity).
  destruct (C9_constructor_drops_small_vectors e1 tiny e2 Hlaw) as (Hv & Hn & _).
  split; [exact Hv|exact Hn].
Defined.

(** C5 on an alias added to the lattice with the one sublattice "A". *)
Lemma C5_witness :
  exists s,
    sublattices (run (Call_add_alias "A2" "A" e1) square_sites).2 !! "A2" = Some s
    /\ s_unique_id s = nsub square_sites
    /\ nsub (run (Call_add_alias "A2" "A" e1) square_sites).2 = S (nsub square_sites)
    /\ (forall n' s', sublattices square_sites !! n' = Some s' ->
          sublattices (run (Call_add_alias "A2" "A" e1) square_sites).2 !! n' = Some s'
          /\ s_unique_id s' < s_unique_id s)
    /\ (forall i, i < nsub (run (Call_add_alias "A2" "A" e1) square_sites).2 <->
          exists n' s',
            sublattices (run (Call_add_alias "A2" "A" e1) square_sites).2 !! n' = Some s'
            /\ s_unique_id s' = i)
    /\ (forall n1 n2 s1 s2,
          sublattices (run (Call_add_alias "A2" "A" e1) square_sites).2 !! n1 = Some s1 ->
          sublattices (run (Call_add_alias "A2" "A" e1) square_sites).2 !! n2 = Some s2 ->
          s_unique_id s1 = s_unique_id s2 -> n1 = n2).
Proof.
  apply (C5_new_sublattice_id_is_count square_sites (Call_add_alias "A2" "A" e1) "A2").
  - apply reachable_square_sites.
  - reflexivity.
  - reflexivity.
Defined.

(** C7 on the square lattice: the offset (0.5, 0, 0) is stored, the offset
    (1, 0, 0) is refused. *)
Lemma C7_witness :
  (set_offset (mkVector3f float_half float_zero float_zero) square
   = (Ok tt, set_offset_field (mkVector3f float_half float_zero float_zero) square)
   /\ offset (set_offset (mkVector3f float_half float_zero float_zero) square).2
      = mkVector3f float_half float_zero float_zero)
  /\ (set_offset e1 square = (Throw OffsetTooLarge, square)
      /\ offset (set_offset e1 square).2 = offset square).
Proof.
  split.
  - apply (C7_set_offset_bound (mkVector3f float_half float_zero float_zero) square).
    assert (coeffs (translate_coordinates
                      (mkVector3f float_half float_zero float_zero) square)
            = [float_half; float_zero; float_zero]) as -> by reflexivity.
    repeat constructor.
  - apply (C7_set_offset_bound e1 square).
    assert (coeffs (translate_coordinates e1 square)
            = [float_one; float_zero; float_zero]) as -> by reflexivity.
    left. reflexivity.
Defined.

(** On the chain with the primitive vector (1,0,0), [with_offset] with the
    position (1,0,0) throws: the fractional coordinate is 1.  No lattice is
    returned. *)
Lemma C8_counterexample :
  reachable chain
  /\ with_offset e1 chain = Throw OffsetTooLarge
  /\ ~ exists a st',
         invoke_derive 0 (with_offset e1) {[0 := chain]} = Some (Ok a, st').
Proof.
  split; [apply reachable_chain|].
  assert (with_offset e1 chain = Throw OffsetTooLarge) as Hw by reflexivity.
  split; [exact Hw|].
  intros (a & st' & H). unfold invoke_derive in H.
  rewrite lookup_singleton_eq, Hw in H. discriminate.
Qed.

(** C8 on a store that holds the chain at address 0. *)
Lemma C8_witness :
  (exists a,
      invoke_derive 0 (with_min_neighbors 3) {[0 := chain]}
      = Some (Ok a, <[a := set_min_neighbors_field 3 chain]> {[0 := chain]})
      /\ a <> 0 /\ ({[0 := chain]} : gmap nat Lattice) !! a = None)
  /\ ((exists a,
          invoke_derive 0
            (with_offset (mkVector3f float_half float_zero float_zero)) {[0 := chain]}
          = Some (Ok a,
                  <[a := set_offset_field
                           (mkVector3f float_half float_zero float_zero) chain]>
                    {[0 := chain]})
          /\ a <> 0 /\ ({[0 := chain]} : gmap nat Lattice) !! a = None
          /\ (set_offset (mkVector3f float_half float_zero float_zero) chain).1 = Ok tt)
      \/ (invoke_derive 0
            (with_offset (mkVector3f float_half float_zero float_zero)) {[0 := chain]}
          = Some (Throw OffsetTooLarge, {[0 := chain]})
          /\ (set_offset (mkVector3f float_half float_zero float_zero) chain).1
             = Throw OffsetTooLarge))
  /\ (forall f r st',
        f = with_offset (mkVector3f float_half float_zero float_zero)
        \/ f = with_min_neighbors 3 ->
        invoke_derive 0 f {[0 := chain]} = Some (r, st') ->
        st' !! 0 = Some chain
        /\ forall a, r = Ok a ->
             forall A (m : M A) r' st'',
               invoke a m st' = Some (r', st'') -> st'' !! 0 = Some chain).
Proof.
  apply (C8_derivation_leaves_receiver {[0 := chain]} 0 chain
           (mkVector3f float_half float_zero float_zero) 3).
  apply lookup_singleton_eq.
Defined.

(** C10 on the square lattice: the positions (0.5, 0, 1) and (0.5, 0, 0)
    differ out of the plane only. *)
Lemma C10_witness :
  translate_coordinates (mkVector3f float_half float_zero float_one) square
  = translate_coordinates (mkVector3f float_half float_zero float_zero) square
  /\ (forall i, ndim square <= i -> i < 3 ->
        coeff (coeffs (translate_coordinates
                         (mkVector3f float_half float_zero float_one) square)) i
        = float_zero)
  /\ (set_offset (mkVector3f float_half float_zero float_one) square).1
     = (set_offset (mkVector3f float_half float_zero float_zero) square).1
  /\ ((set_offset (mkVector3f float_half float_zero float_one) square).1
      = Throw OffsetTooLarge <->
      exists i, i < ndim square /\ i < 3
                /\ SFltb float_0_55
                     (SFabs (coeff (coeffs (translate_coordinates
                                              (mkVector3f float_half float_zero float_one)
                                              square)) i))
                   = true).
Proof.
  apply (C10_only_spanned_components_count
           (mkVector3f float_half float_zero float_one)
           (mkVector3f float_half float_zero float_zero) square).
  reflexivity.
Defined.

(** ** The further properties on the example lattices *)

Import ExactQueries MoreExamples.

Lemma reachable_aliased_once : reachable aliased_once.
Proof. apply reachable_run_all, reachable_two_sites. Qed.

Lemma reachable_aliased : reachable aliased.
Proof. apply reachable_run_all, reachable_aliased_once. Qed.

(** X2 on the lattice [two_sites]. *)
Lemma X2_witness :
  nsub two_sites <= S sub_id_max
  /\ size (hoppings two_sites) <= S hop_id_max
  /\ (forall name s, sublattices two_sites !! name = Some s ->
        s_unique_id s <= sub_id_max /\ s_alias_id s <= sub_id_max)
  /\ (forall name f, hoppings two_sites !! name = Some f ->
        f_unique_id f <= hop_id_max).
Proof. apply (X2_identifiers_fit two_sites). apply reachable_two_sites. Defined.

(** X3 on the lattice [two_sites]. *)
Lemma X3_witness :
  (forall i, i < size (hoppings two_sites) <->
     exists name f, hoppings two_sites !! name = Some f /\ f_unique_id f = i)
  /\ (forall n1 n2 f1 f2,
        hoppings two_sites !! n1 = Some f1 -> hoppings two_sites !! n2 = Some f2 ->
        f_unique_id f1 = f_unique_id f2 -> n1 = n2).
Proof. apply (X3_family_ids_are_dense two_sites). apply reachable_two_sites. Defined.

(** X4 on the lattice [two_sites]. *)
Lemma X4_witness :
  NoDup (all_terms two_sites)
  /\ (forall fam1 fam2 f1 f2 t,
        hoppings two_sites !! fam1 = Some f1 -> hoppings two_sites !! fam2 = Some f2 ->
        t ∈ terms f1 -> t ∈ terms f2 -> fam1 = fam2)
  /\ (forall t, t ∈ all_terms two_sites ->
        ~ (t_relative_index t = Index3D_Zero /\ t_from t = t_to t))
  /\ (forall t, t ∈ all_terms two_sites ->
        t_from t < nsub two_sites /\ t_to t < nsub two_sites).
Proof. apply (X4_no_term_stored_twice two_sites). apply reachable_two_sites. Defined.

(** X5 on the lattice [two_sites]: the identifier 1 gives "B". *)
Lemma X5_witness : sublattice_by_id 1 two_sites = Ok site_B.
Proof.
  apply (proj1 (X5_sublattice_by_id two_sites reachable_two_sites) "B" site_B).
  reflexivity.
Defined.

(** X6 on the lattice [two_sites]: the identifier 0 gives "t". *)
Lemma X6_witness : hopping_family_by_id 0 two_sites = Ok family_t_two_sites.
Proof.
  apply (proj1 (X6_hopping_family_by_id two_sites reachable_two_sites)
           "t" family_t_two_sites).
  reflexivity.
Defined.

(** X7 on the term of [two_sites]. *)
Lemma X7_witness :
  exists sf st,
    sublattice_by_id (t_from term_AB) two_sites = Ok sf
    /\ rows (s_energy sf) = rows (f_energy family_t_two_sites)
    /\ sublattice_by_id (t_to term_AB) two_sites = Ok st
    /\ cols (s_energy st) = cols (f_energy family_t_two_sites).
Proof.
  apply (X7_stored_terms_fit_their_family two_sites "t" family_t_two_sites term_AB).
  - apply reachable_two_sites.
  - reflexivity.
  - left.
Defined.

(** X8 on the first sublattice of a lattice. *)
Lemma X8_witness :
  sublattice "A" (Lattice_ctor e1 e2 v0) = Throw (NoSublatticeNamed "A")
  /\ sublattice "A" two_orbitals
     = Ok (mkSublattice v0 hermitian_2 (nsub (Lattice_ctor e1 e2 v0))
             (nsub (Lattice_ctor e1 e2 v0)))
  /\ (forall other, other <> "A" ->
        sublattice other two_orbitals = sublattice other (Lattice_ctor e1 e2 v0))
  /\ hoppings two_orbitals = hoppings (Lattice_ctor e1 e2 v0)
  /\ (forall cs,
        sublattice "A" (run_all cs two_orbitals)
        = Ok (mkSublattice v0 hermitian_2 (nsub (Lattice_ctor e1 e2 v0))
                (nsub (Lattice_ctor e1 e2 v0))))
  /\ (forall cs position' e', exists x,
        add_sublattice "A" position' e' (run_all cs two_orbitals)
        = (Throw x, run_all cs two_orbitals))
  /\ (forall cs original position', exists x,
        add_alias "A" original position' (run_all cs two_orbitals)
        = (Throw x, run_all cs two_orbitals)).
Proof.
  apply (X8_add_sublattice_then_lookup "A" v0 hermitian_2 (Lattice_ctor e1 e2 v0)
           two_orbitals).
  reflexivity.
Defined.

(** X9 on the first family of the lattice with the one sublattice "A". *)
Lemma X9_witness :
  hopping_family "t" square_sites = Throw (NoHoppingNamed "t")
  /\ hopping_family "t" (register_hopping_energy "t" seven square_sites).2
     = Ok (mkHoppingFamily seven (size (hoppings square_sites)) [])
  /\ (forall other, other <> "t" ->
        hopping_family other (register_hopping_energy "t" seven square_sites).2
        = hopping_family other square_sites)
  /\ sublattices (register_hopping_energy "t" seven square_sites).2
     = sublattices square_sites
  /\ (forall e', exists x,
        register_hopping_energy "t" e'
          (register_hopping_energy "t" seven square_sites).2
        = (Throw x, (register_hopping_energy "t" seven square_sites).2)
        /\ (x = HoppingExists "t" \/ x = TooManyHoppings)
        /\ (size (hoppings (register_hopping_energy "t" seven square_sites).2)
            <= hop_id_max -> x = HoppingExists "t")).
Proof.
  apply (X9_register_hopping_energy_then_lookup "t" seven square_sites
           (register_hopping_energy "t" seven square_sites).2).
  reflexivity.
Defined.

(** X10 on an alias of an alias: the alias identifier of "A3" is the unique
    identifier of "A2", not that of "A". *)
Lemma X10_witness :
  exists L',
    add_alias "A3" "A2" e2 aliased_once = (Ok tt, L')
    /\ sublattice "A3" L'
       = Ok (mkSublattice e2 (s_energy site_A2) (nsub aliased_once)
               (s_unique_id site_A2))
    /\ sublattice "A2" L' = Ok site_A2
    /\ nsub L' = S (nsub aliased_once)
    /\ hoppings L' = hoppings aliased_once.
Proof.
  apply (proj2 (X10_add_alias "A3" "A2" e2 aliased_once) site_A2).
  - reflexivity.
  - discriminate.
  - apply Nat.leb_le. reflexivity.
  - reflexivity.
Defined.

(** X11 on a second term from "A" to "B" in the family "t" of
    [two_sites]. *)
Lemma X11_witness :
  exists from to family os site_from site_to,
    sublattice "A" two_sites = Ok from
    /\ sublattice "B" two_sites = Ok to
    /\ hopping_family "t" two_sites = Ok family
    /\ hopping_family "t"
         (add_hopping (mkIndex3D 0 1 0) "A" "B" "t" two_sites).2
       = Ok (mkHoppingFamily (f_energy family) (f_unique_id family)
               (terms family
                ++ [mkHoppingTerm (mkIndex3D 0 1 0) (s_unique_id from)
                      (s_unique_id to)]))
    /\ (forall other, other <> "t" ->
          hopping_family other
            (add_hopping (mkIndex3D 0 1 0) "A" "B" "t" two_sites).2
          = hopping_family other two_sites)
    /\ sublattices (add_hopping (mkIndex3D 0 1 0) "A" "B" "t" two_sites).2
       = sublattices two_sites
    /\ optimized_structure
         (add_hopping (mkIndex3D 0 1 0) "A" "B" "t" two_sites).2 = Some os
    /\ os !! s_unique_id from = Some site_from
    /\ multiplicity
         (mkHopping (mkIndex3D 0 1 0) (s_unique_id to) (f_unique_id family) false)
         (site_hoppings site_from) = 1
    /\ os !! s_unique_id to = Some site_to
    /\ multiplicity
         (mkHopping (index_neg (mkIndex3D 0 1 0)) (s_unique_id from)
            (f_unique_id family) true)
         (site_hoppings site_to) = 1.
Proof.
  apply (X11_add_hopping_then_structure (mkIndex3D 0 1 0) "A" "B" "t" two_sites
           (add_hopping (mkIndex3D 0 1 0) "A" "B" "t" two_sites).2).
  - apply reachable_two_sites.
  - reflexivity.
Defined.

(** X12 on [two_sites] and an energy that no family has: the term goes to
    the new family "__anonymous__2". *)
Lemma X12_witness :
  exists fam family' from to,
    sublattices two_sites !! "A" = Some from
    /\ sublattices two_sites !! "B" = Some to
    /\ hoppings (add_hopping_matrix (mkIndex3D 0 1 0) "A" "B" seven two_sites).2
         !! fam = Some family'
    /\ last (terms family')
       = Some (mkHoppingTerm (mkIndex3D 0 1 0) (s_unique_id from) (s_unique_id to))
    /\ sublattices (add_hopping_matrix (mkIndex3D 0 1 0) "A" "B" seven two_sites).2
       = sublattices two_sites
    /\ ((exists n f, hoppings two_sites !! n = Some f
                     /\ mat_eqb (f_energy f) seven = true) ->
        (exists family, hoppings two_sites !! fam = Some family
                        /\ mat_eqb (f_energy family) seven = true
                        /\ family_extends family family')
        /\ size (hoppings
                   (add_hopping_matrix (mkIndex3D 0 1 0) "A" "B" seven two_sites).2)
           = size (hoppings two_sites))
    /\ ((forall n f, hoppings two_sites !! n = Some f ->
           mat_eqb (f_energy f) seven = false) ->
        fam = "__anonymous__" +:+ pretty (size (hoppings two_sites))
        /\ hoppings two_sites !! fam = None
        /\ family' = mkHoppingFamily seven (size (hoppings two_sites))
                       [mkHoppingTerm (mkIndex3D 0 1 0) (s_unique_id from)
                          (s_unique_id to)]
        /\ size (hoppings
                   (add_hopping_matrix (mkIndex3D 0 1 0) "A" "B" seven two_sites).2)
           = S (size (hoppings two_sites))).
Proof.
  apply (X12_add_hopping_with_energy (mkIndex3D 0 1 0) "A" "B" seven two_sites
           (add_hopping_matrix (mkIndex3D 0 1 0) "A" "B" seven two_sites).2).
  reflexivity.
Defined.

Lemma hoppings_anonymous_taken :
  hoppings anonymous_taken
  = {["__anonymous__1" := mkHoppingFamily [[(-1, 0)%Z]] 0 []]}.
Proof. reflexivity. Qed.

(** X13 on a lattice whose one family was registered under the name
    "__anonymous__1". *)
Lemma X13_witness :
  add_hopping_matrix (mkIndex3D 1 0 0) "A" "A" seven anonymous_taken
  = (Throw (HoppingExists
              ("__anonymous__" +:+ pretty (size (hoppings anonymous_taken)))),
     anonymous_taken).
Proof.
  apply (X13_synthesized_name_in_use (mkIndex3D 1 0 0) "A" "A" seven anonymous_taken).
  - intros n f. rewrite hoppings_anonymous_taken.
    intros [_ <-]%lookup_singleton_Some. reflexivity.
  - assert (hoppings anonymous_taken
            !! ("__anonymous__" +:+ pretty (size (hoppings anonymous_taken)))
            = Some (mkHoppingFamily [[(-1, 0)%Z]] 0 [])) as -> by reflexivity.
    intros H. inversion H.
  - apply Nat.leb_le. reflexivity.
Defined.

(** X14 on the alias "A3": its site is at index 3 and has the alias 2. *)
Lemma X14_witness :
  exists os site,
    optimized_structure aliased = Some os
    /\ length os = nsub aliased
    /\ os !! s_unique_id site_A3 = Some site
    /\ site_position site = s_position site_A3
    /\ site_alias site = s_alias_id site_A3
    /\ site_alias site < length os.
Proof.
  apply (X14_sites_of_the_structure aliased "A3" site_A3).
  - apply reachable_aliased.
  - reflexivity.
Defined.

(** X15 on the lattice [two_sites], whose two sites have the count 1. *)
Lemma X15_witness :
  exists os n,
    optimized_structure two_sites = Some os
    /\ max_hoppings two_sites = Some (Ok (cast_int n))
    /\ (0 <= n)%Z
    /\ (forall s, s ∈ os -> (site_load two_sites s <= n)%Z)
    /\ (n = 0%Z \/ exists s, s ∈ os /\ site_load two_sites s = n)
    /\ ((n <= int_max)%Z -> cast_int n = n).
Proof.
  destruct (X15_max_hoppings two_sites) as (os & Hos & Hfit & _).
  - apply Z.leb_le. reflexivity.
  - apply Z.leb_le. reflexivity.
  - apply reachable_two_sites.
  - destruct Hfit as (n & Hn).
    + assert (optimized_structure two_sites
              = Some [mkSite v0 0 [mkHopping (mkIndex3D 1 0 0) 1 0 false];
                      mkSite (mkVector3f float_half float_zero float_zero) 1
                        [mkHopping (mkIndex3D (-1) 0 0) 0 0 true]]) as Hval
        by reflexivity.
      rewrite Hval in Hos. injection Hos as <-.
      intros s Hs.
      apply elem_of_cons in Hs as [->|Hs];
        [|apply list_elem_of_singleton in Hs; subst s].
      * assert (site_load two_sites
                  (mkSite v0 0 [mkHopping (mkIndex3D 1 0 0) 1 0 false]) = 1%Z) as ->
          by reflexivity.
        apply Z.leb_le. reflexivity.
      * assert (site_load two_sites
                  (mkSite (mkVector3f float_half float_zero float_zero) 1
                     [mkHopping (mkIndex3D (-1) 0 0) 0 0 true]) = 1%Z) as ->
          by reflexivity.
        apply Z.leb_le. reflexivity.
    + exists os, n. split; [exact Hos|exact Hn].
Defined.

(** X16 on the lattice [two_sites]. *)
Lemma X16_witness :
  (forall name,
     sub_name_map two_sites !! name = s_unique_id <$> sublattices two_sites !! name)
  /\ (forall name,
        hop_name_map two_sites !! name = f_unique_id <$> hoppings two_sites !! name)
  /\ (forall n1 n2 i,
        sub_name_map two_sites !! n1 = Some i ->
        sub_name_map two_sites !! n2 = Some i -> n1 = n2)
  /\ (forall n1 n2 i,
        hop_name_map two_sites !! n1 = Some i ->
        hop_name_map two_sites !! n2 = Some i -> n1 = n2)
  /\ (forall i, i < nsub two_sites <->
        exists name, sub_name_map two_sites !! name = Some i)
  /\ (forall i, i < size (hoppings two_sites) <->
        exists name, hop_name_map two_sites !! name = Some i).
Proof. apply (X16_name_maps two_sites). apply reachable_two_sites. Defined.

(** X17 on a lattice with a sublattice of two orbitals, after a failing
    and a successful call. *)
Lemma X17_witness :
  has_multiple_orbitals (run_all two_more_calls two_orbitals) = true.
Proof.
  apply (X17_flags_stay_set two_more_calls two_orbitals).
  reflexivity.
Defined.

(** X18 on the square lattice: the third coefficient of the index is not
    read. *)
Lemma X18_witness :
  calc_position (mkIndex3D 2 1 5) "A" square
  = calc_position (mkIndex3D 2 1 0) "A" square
  /\ exists cell,
       calc_position (mkIndex3D 2 1 5) EmptyString square = Ok cell
       /\ ("A" <> EmptyString ->
           calc_position (mkIndex3D 2 1 5) "A" square
           = match sublattices square !! "A" with
             | Some s => Ok (vec_add cell (s_position s))
             | None => Throw (NoSublatticeNamed "A")
             end).
Proof.
  apply (X18_calc_position (mkIndex3D 2 1 5) (mkIndex3D 2 1 0) "A" square).
  intros k Hk.
  assert (ndim square = 2) as Hn by reflexivity. rewrite Hn in Hk.
  destruct k as [|[|k]]; [reflexivity|reflexivity|lia].
Defined.

(** X19 on the chain. *)
Lemma X19_witness :
  with_offset e1 (set_offset_field (mkVector3f float_half float_zero float_zero) chain)
  = with_offset e1 chain
  /\ with_offset (mkVector3f float_half float_zero float_zero)
       (set_min_neighbors_field 3 chain)
     = with_min_neighbors 3
         (set_offset_field (mkVector3f float_half float_zero float_zero) chain)
  /\ with_min_neighbors 3 chain = Ok (set_min_neighbors_field 3 chain).
Proof.
  apply (X19_derivations_compose (mkVector3f float_half float_zero float_zero)
           e1 3 chain).
  reflexivity.
Defined.

(** X21 on the chain: the position (NaN, 0, 0) is stored as the offset. *)
Lemma X21_witness :
  set_offset (mkVector3f float_nan float_zero float_zero) chain
  = (Ok tt, set_offset_field (mkVector3f float_nan float_zero float_zero) chain).
Proof.
  apply (X21_offset_check_on_nan_and_infinity
           (mkVector3f float_nan float_zero float_zero) chain).
  assert (coeffs (translate_coordinates
                    (mkVector3f float_nan float_zero float_zero) chain)
          = [S754_nan; float_zero; float_zero]) as -> by reflexivity.
  constructor; [left; reflexivity|].
  constructor; [right; reflexivity|].
  constructor; [right; reflexivity|].
  constructor.
Defined.
